(** * Red-black tree of DS-Playground (include/tree/RBTree.h)

    The nodes of the C++ tree live on the heap and are linked by
    [shared_ptr] children and a [weak_ptr] parent.  The heap is modelled
    as a finite map from node addresses to node records; a null pointer
    is [None].  Every function of RBTree.h is translated into a small
    option-state monad over that heap: [None] is a failed [assert], a
    dereference of a pointer that is not allocated, or an exhausted loop
    bound ([fuel]). *)

From stdpp Require Import base gmap list sorting.
From Stdlib Require Import ZArith Lia Reals Lra.

Open Scope Z_scope.

(** ** Data model *)

Inductive RBColor := BLACK | RED.

#[global] Instance RBColor_eq_dec : EqDecision RBColor.
Proof. solve_decision. Defined.

Definition ptr := positive.

(** class RBTreeNode: color, value, weak parent, left and right children *)
Record RBTreeNode := mkNode {
  _color : RBColor;
  _value : Z;
  _parent : option ptr;
  _left : option ptr;
  _right : option ptr
}.

(** using RBTree = std::shared_ptr<RBTreeNode> *)
Definition RBTree := option ptr.

Abbreviation heap := (gmap ptr RBTreeNode).

(** ** The state monad *)

Definition M (A : Type) := heap -> option (A * heap).

Definition ret {A} (a : A) : M A := fun h => Some (a, h).
Definition bind {A B} (m : M A) (k : A -> M B) : M B :=
  fun h => match m h with Some (a, h') => k a h' | None => None end.
Definition fail {A} : M A := fun _ => None.
Definition assert (b : bool) : M unit := if b then ret tt else fail.

Notation "x <- m ;; k" := (bind m (fun x => k))
  (at level 100, m at next level, right associativity).
Notation "m ;;; k" := (bind m (fun _ => k))
  (at level 100, right associativity).

(** dereference of a node pointer *)
Definition load (p : ptr) : M RBTreeNode :=
  fun h => match h !! p with Some n => Some (n, h) | None => None end.
Definition store (p : ptr) (n : RBTreeNode) : M unit :=
  fun h => Some (tt, <[p := n]> h).

Definition get_color (p : ptr) : M RBColor := n <- load p;; ret (_color n).
Definition get_value (p : ptr) : M Z := n <- load p;; ret (_value n).
(** [_parent.lock()]: nodes are never freed while reachable, so locking
    the weak pointer yields the stored address *)
Definition get_parent (p : ptr) : M RBTree := n <- load p;; ret (_parent n).
Definition get_left (p : ptr) : M RBTree := n <- load p;; ret (_left n).
Definition get_right (p : ptr) : M RBTree := n <- load p;; ret (_right n).

Definition set_color (p : ptr) (c : RBColor) : M unit :=
  n <- load p;; store p (mkNode c (_value n) (_parent n) (_left n) (_right n)).
Definition set_value (p : ptr) (v : Z) : M unit :=
  n <- load p;; store p (mkNode (_color n) v (_parent n) (_left n) (_right n)).
Definition set_parent (p : ptr) (q : RBTree) : M unit :=
  n <- load p;; store p (mkNode (_color n) (_value n) q (_left n) (_right n)).
Definition set_left (p : ptr) (q : RBTree) : M unit :=
  n <- load p;; store p (mkNode (_color n) (_value n) (_parent n) q (_right n)).
Definition set_right (p : ptr) (q : RBTree) : M unit :=
  n <- load p;; store p (mkNode (_color n) (_value n) (_parent n) (_left n) q).

(** std::make_shared: a fresh address *)
Definition make_shared (n : RBTreeNode) : M ptr :=
  fun h => let p := fresh (dom h) in Some (p, <[p := n]> h).

Definition ptr_eqb (p q : RBTree) : bool := bool_decide (p = q).

(** IsBlack / IsRed: a null pointer is black *)
Definition IsBlack (p : RBTree) : M bool :=
  match p with
  | None => ret true
  | Some q => c <- get_color q;; ret (bool_decide (c = BLACK))
  end.
Definition IsRed (p : RBTree) : M bool := b <- IsBlack p;; ret (negb b).

Definition IsRoot (p : ptr) : M bool :=
  q <- get_parent p;; ret (bool_decide (q = None)).
Definition IsLeaf (p : ptr) : M bool :=
  l <- get_left p;; r <- get_right p;; ret (bool_decide (l = None /\ r = None)).

(** ** Search *)

Fixpoint Search_loop (fuel : nat) (cur : RBTree) (value : Z) : M RBTree :=
  match fuel with
  | O => fail
  | S fuel' =>
      match cur with
      | None => ret None
      | Some c =>
          cv <- get_value c;;
          if Z.eqb value cv then ret (Some c)
          else if Z.ltb value cv then (l <- get_left c;; Search_loop fuel' l value)
          else (r <- get_right c;; Search_loop fuel' r value)
      end
  end.

(** ** Rotations: [top] is the caller's pointer variable; the function
    returns its new value ([top = that]) *)

Definition LeftRotate (top : ptr) : M ptr :=
  tr <- get_right top;;
  assert (bool_decide (tr <> None));;;
  match tr with None => fail | Some that =>
  let self := top in
  parent <- get_parent top;;
  (* Rotate key nodes *)
  set_parent self (Some that);;;
  tl <- get_left that;;
  set_right self tl;;;
  set_left that (Some self);;;
  set_parent that parent;;;
  (* Adjust subtrees *)
  sr <- get_right self;;
  (match sr with Some s => set_parent s (Some self) | None => ret tt end);;;
  (* Adjust parent *)
  (match parent with
   | Some p =>
       pl <- get_left p;;
       if ptr_eqb pl (Some self) then set_left p (Some that)
       else set_right p (Some that)
   | None => ret tt
   end);;;
  ret that
  end.

Definition RightRotate (top : ptr) : M ptr :=
  tl <- get_left top;;
  assert (bool_decide (tl <> None));;;
  match tl with None => fail | Some that =>
  let self := top in
  parent <- get_parent top;;
  (* Rotate key nodes *)
  tr <- get_right that;;
  set_left self tr;;;
  set_parent self (Some that);;;
  set_right that (Some self);;;
  set_parent that parent;;;
  (* Adjust subtrees *)
  sl <- get_left self;;
  (match sl with Some s => set_parent s (Some self) | None => ret tt end);;;
  (* Adjust parent *)
  (match parent with
   | Some p =>
       pl <- get_left p;;
       if ptr_eqb pl (Some self) then set_left p (Some that)
       else set_right p (Some that)
   | None => ret tt
   end);;;
  ret that
  end.

(** ** Insertion *)

(** [__Insert_Adjust(cur, root)]: returns the new value of [root].  The
    assignment [cur = parent->_left] of case 3.1 writes the caller's
    variable only, which no caller reads afterwards. *)
Fixpoint Insert_Adjust (fuel : nat) (cur : ptr) (root : RBTree) : M RBTree :=
  match fuel with
  | O => fail
  | S fuel' =>
  cc <- get_color cur;;
  assert (bool_decide (cc = RED));;;
  parent <- get_parent cur;;
  match parent with
  (* No parent: cur == root *)
  | None => assert (ptr_eqb (Some cur) root);;; set_color cur BLACK;;; ret root
  | Some parent =>
  pc <- get_color parent;;
  (* Case 1: parent is black *)
  if bool_decide (pc = BLACK) then ret root else
  grand <- get_parent parent;;
  assert (bool_decide (grand <> None));;;
  match grand with None => fail | Some grand =>
  gl <- get_left grand;;
  if ptr_eqb (Some parent) gl then
    (* Left *)
    uncle <- get_right grand;;
    ur <- IsRed uncle;;
    if ur then
      (* Case 2: uncle is red *)
      match uncle with None => fail | Some u =>
      set_color u BLACK;;; set_color parent BLACK;;; set_color grand RED;;;
      Insert_Adjust fuel' grand root
      end
    else
      (* Case 3: uncle is black *)
      pr <- get_right parent;;
      parent <- (if ptr_eqb (Some cur) pr then LeftRotate parent else ret parent);;
      set_color parent BLACK;;; set_color grand RED;;;
      let change := ptr_eqb (Some grand) root in
      grand <- RightRotate grand;;
      ret (if change then Some grand else root)
  else
    (* Right, symmetric *)
    uncle <- get_left grand;;
    ur <- IsRed uncle;;
    if ur then
      match uncle with None => fail | Some u =>
      set_color u BLACK;;; set_color parent BLACK;;; set_color grand RED;;;
      Insert_Adjust fuel' grand root
      end
    else
      pl <- get_left parent;;
      parent <- (if ptr_eqb (Some cur) pl then RightRotate parent else ret parent);;
      set_color parent BLACK;;; set_color grand RED;;;
      let change := ptr_eqb (Some grand) root in
      grand <- LeftRotate grand;;
      ret (if change then Some grand else root)
  end
  end
  end.

(** The descent loop of [Insert]: [None] is [return false], [Some parent]
    the value of [parent] when the loop exits. *)
Fixpoint Insert_loop (ALLOW_DUP : bool) (fuel : nat) (value : Z)
    (parent cur : RBTree) : M (option RBTree) :=
  match fuel with
  | O => fail
  | S fuel' =>
  match cur with
  | None => ret (Some parent)
  | Some c =>
      cv <- get_value c;;
      (* Equals *)
      if negb ALLOW_DUP && Z.eqb value cv then ret None
      else if Z.leb value cv then (l <- get_left c;; Insert_loop ALLOW_DUP fuel' value (Some c) l)
      else (r <- get_right c;; Insert_loop ALLOW_DUP fuel' value (Some c) r)
  end
  end.

(** [Insert(root, value)]: the boolean result and the new value of [root] *)
Definition Insert_fuel (ALLOW_DUP : bool) (fuel : nat) (root : RBTree) (value : Z)
    : M (bool * RBTree) :=
  match root with
  | None => p <- make_shared (mkNode BLACK value None None None);; ret (true, Some p)
  | Some r =>
  isr <- IsRoot r;;
  assert isr;;;
  (* Find the node to insert *)
  res <- Insert_loop ALLOW_DUP fuel value None root;;
  match res with
  | None => ret (false, root)
  | Some parent =>
  match parent with None => fail | Some parent =>
  (* Add a new node to the tree *)
  cur <- make_shared (mkNode RED value None None None);;
  set_parent cur (Some parent);;;
  pv <- get_value parent;;
  (if Z.leb value pv then set_left parent (Some cur) else set_right parent (Some cur));;;
  (* Adjust the tree *)
  root <- Insert_Adjust fuel cur root;;
  ret (true, root)
  end
  end
  end.

(** The loops are bounded by the number of allocated nodes plus one. *)
Definition Insert (ALLOW_DUP : bool) (root : RBTree) (value : Z) : M (bool * RBTree) :=
  fun h => Insert_fuel ALLOW_DUP (S (size h)) root value h.

Definition Search (root : RBTree) (value : Z) : M RBTree :=
  fun h => Search_loop (S (size h)) root value h.

(** ** Removal *)

Fixpoint Remove_Adjust (fuel : nat) (cur : ptr) (root : RBTree) : M RBTree :=
  match fuel with
  | O => fail
  | S fuel' =>
  cc <- get_color cur;;
  assert (bool_decide (cc = BLACK));;;
  parent <- get_parent cur;;
  match parent with
  | None => assert (ptr_eqb (Some cur) root);;; ret root
  | Some parent =>
  pl <- get_left parent;;
  if ptr_eqb (Some cur) pl then
    (* Left *)
    sib <- get_right parent;;
    sred <- IsRed sib;;
    (* Case 1: Sibling is red *)
    st <- (if sred then
             match sib with None => fail | Some s =>
             set_color parent RED;;; set_color s BLACK;;;
             let change := ptr_eqb (Some parent) root in
             top <- LeftRotate parent;;
             let root := if change then Some top else root in
             (* Update parent and sibling *)
             parent <- get_parent cur;;
             match parent with None => fail | Some parent =>
             sib <- get_right parent;; ret (parent, sib, root) end
             end
           else ret (parent, sib, root));;
    let '(parent, sib, root) := st in
    assert (bool_decide (sib <> None));;;
    match sib with None => fail | Some sib =>
    (* Case 3: Right cousin is black, left cousin is red *)
    sr <- get_right sib;;
    c3a <- IsBlack sr;;
    c3 <- (if c3a then (sl <- get_left sib;; IsRed sl) else ret false);;
    sib <- (if c3 then
              sl <- get_left sib;;
              match sl with None => fail | Some sl =>
              set_color sl BLACK;;; set_color sib RED;;; RightRotate sib end
            else ret sib);;
    (* Case 2: Right cousin is red *)
    sr <- get_right sib;;
    c2 <- IsRed sr;;
    if c2 then
      match sr with None => fail | Some sr =>
      set_color sr BLACK;;;
      pc <- get_color parent;;
      set_color sib pc;;;
      set_color parent BLACK;;;
      let change := ptr_eqb (Some parent) root in
      top <- LeftRotate parent;;
      ret (if change then Some top else root)
      end
    else
      (* Case 4: both cousins black *)
      sl <- get_left sib;;
      b <- IsBlack sl;;
      assert b;;;
      pr <- IsRed (Some parent);;
      if pr then (set_color sib RED;;; set_color parent BLACK;;; ret root)
      else (set_color sib RED;;; Remove_Adjust fuel' parent root)
    end
  else
    (* Right, symmetric *)
    sib <- get_left parent;;
    sred <- IsRed sib;;
    st <- (if sred then
             match sib with None => fail | Some s =>
             set_color parent RED;;; set_color s BLACK;;;
             let change := ptr_eqb (Some parent) root in
             top <- RightRotate parent;;
             let root := if change then Some top else root in
             parent <- get_parent cur;;
             match parent with None => fail | Some parent =>
             sib <- get_left parent;; ret (parent, sib, root) end
             end
           else ret (parent, sib, root));;
    let '(parent, sib, root) := st in
    assert (bool_decide (sib <> None));;;
    match sib with None => fail | Some sib =>
    sl <- get_left sib;;
    c3a <- IsBlack sl;;
    c3 <- (if c3a then (sr <- get_right sib;; IsRed sr) else ret false);;
    sib <- (if c3 then
              sr <- get_right sib;;
              match sr with None => fail | Some sr =>
              set_color sr BLACK;;; set_color sib RED;;; LeftRotate sib end
            else ret sib);;
    sl <- get_left sib;;
    c2 <- IsRed sl;;
    if c2 then
      match sl with None => fail | Some sl =>
      set_color sl BLACK;;;
      pc <- get_color parent;;
      set_color sib pc;;;
      set_color parent BLACK;;;
      let change := ptr_eqb (Some parent) root in
      top <- RightRotate parent;;
      ret (if change then Some top else root)
      end
    else
      sr <- get_right sib;;
      b <- IsBlack sr;;
      assert b;;;
      pr <- IsRed (Some parent);;
      if pr then (set_color sib RED;;; set_color parent BLACK;;; ret root)
      else (set_color sib RED;;; Remove_Adjust fuel' parent root)
    end
  end
  end.

(** [while (minNode->_left) minNode = minNode->_left;] *)
Fixpoint min_loop (fuel : nat) (minNode : ptr) : M ptr :=
  match fuel with
  | O => fail
  | S fuel' =>
      l <- get_left minNode;;
      match l with None => ret minNode | Some l => min_loop fuel' l end
  end.

(** [Remove(root, value)]: the removed node and the new value of [root] *)
Definition Remove_fuel (fuel : nat) (root : RBTree) (value : Z) : M (RBTree * RBTree) :=
  match root with
  | None => ret (None, root)
  | Some r =>
  isr <- IsRoot r;;
  assert isr;;;
  (* Find the node that contains the value *)
  cur <- Search_loop fuel root value;;
  match cur with
  | None => ret (None, root)
  | Some cur =>
  cl <- get_left cur;;
  cr <- get_right cur;;
  (* two subtrees: swap with the minimum node of the right subtree *)
  cur <- (if bool_decide (cl <> None /\ cr <> None) then
            match cr with None => fail | Some cr =>
            minNode <- min_loop fuel cr;;
            cv <- get_value cur;;
            mv <- get_value minNode;;
            set_value cur mv;;;
            set_value minNode cv;;;
            ret minNode
            end
          else ret cur);;
  (* Adjust the tree *)
  blk <- IsBlack (Some cur);;
  root <- (if blk then Remove_Adjust fuel cur root else ret root);;
  (* Find parent *)
  parent <- get_parent cur;;
  match parent with
  | None =>
      (* Remove root node *)
      assert (ptr_eqb (Some cur) root);;;
      leaf <- IsLeaf cur;;
      root <- (if leaf then ret None
               else
                 cl <- get_left cur;;
                 cr <- get_right cur;;
                 let that := match cl with Some _ => cl | None => cr end in
                 match that with None => fail | Some t =>
                 tleaf <- IsLeaf t;;
                 assert tleaf;;;
                 set_color t BLACK;;;
                 set_parent t None;;;
                 ret (Some t)
                 end);;
      set_right cur None;;;
      set_left cur None;;;
      ret (Some cur, root)
  | Some parent =>
      pl <- get_left parent;;
      (* Reference for parent's pointer *)
      let set_child q := if ptr_eqb pl (Some cur) then set_left parent q
                         else set_right parent q in
      leaf <- IsLeaf cur;;
      (if leaf then set_child None
       else
         cl <- get_left cur;;
         match cl with
         | Some l => set_child (Some l);;; cp <- get_parent cur;; set_parent l cp
         | None =>
             cr <- get_right cur;;
             match cr with None => fail | Some r =>
             set_child (Some r);;; cp <- get_parent cur;; set_parent r cp end
         end);;;
      set_right cur None;;;
      set_left cur None;;;
      set_parent cur None;;;
      ret (Some cur, root)
  end
  end
  end.

Definition Remove (root : RBTree) (value : Z) : M (RBTree * RBTree) :=
  fun h => Remove_fuel (S (size h)) root value h.

(** ** Abstract trees

    A red-black tree reachable from a root pointer is described by an
    inductive tree whose nodes carry their address.  A position in the
    tree (the node a fixup is working on, together with all its
    ancestors) is a zipper: the list of frames from the node's parent up
    to the root.  The parent pointers of the C++ nodes are the frames. *)

Inductive tree :=
  | Leaf
  | Node (c : RBColor) (i : ptr) (v : Z) (l r : tree).

Inductive frame :=
  (** the hole is the left child of node [i]; [r] is its right subtree *)
  | FL (c : RBColor) (i : ptr) (v : Z) (r : tree)
  (** the hole is the right child of node [i]; [l] is its left subtree *)
  | FR (c : RBColor) (i : ptr) (v : Z) (l : tree).

Definition path := list frame.

Definition ptr_of (t : tree) : RBTree :=
  match t with Leaf => None | Node _ i _ _ _ => Some i end.

Definition color (t : tree) : RBColor :=
  match t with Leaf => BLACK | Node c _ _ _ _ => c end.

Definition is_red (t : tree) : bool :=
  match t with Node RED _ _ _ _ => true | _ => false end.

Definition recolor (c : RBColor) (t : tree) : tree :=
  match t with Leaf => Leaf | Node _ i v l r => Node c i v l r end.

Definition fill (f : frame) (t : tree) : tree :=
  match f with
  | FL c i v r => Node c i v t r
  | FR c i v l => Node c i v l t
  end.

Fixpoint plug (t : tree) (p : path) : tree :=
  match p with
  | [] => t
  | f :: p' => plug (fill f t) p'
  end.

Definition frame_id (f : frame) : ptr :=
  match f with FL _ i _ _ => i | FR _ i _ _ => i end.

Definition frame_color (f : frame) : RBColor :=
  match f with FL c _ _ _ => c | FR c _ _ _ => c end.

Definition parent_of (p : path) : RBTree :=
  match p with [] => None | f :: _ => Some (frame_id f) end.

(** in-order sequence of values *)
Fixpoint inorder (t : tree) : list Z :=
  match t with
  | Leaf => []
  | Node _ _ v l r => inorder l ++ v :: inorder r
  end.

(** in-order sequence of addresses *)
Fixpoint idl (t : tree) : list ptr :=
  match t with
  | Leaf => []
  | Node _ i _ l r => idl l ++ i :: idl r
  end.

Fixpoint ids (t : tree) : gset ptr :=
  match t with
  | Leaf => ∅
  | Node _ i _ l r => {[i]} ∪ ids l ∪ ids r
  end.

(** no address occurs twice *)
Fixpoint uniq (t : tree) : Prop :=
  match t with
  | Leaf => True
  | Node _ i _ l r => (i ∉ ids l) /\ (i ∉ ids r) /\ (ids l ## ids r) /\ uniq l /\ uniq r
  end.

(** [rep h par t]: the nodes of [t] are allocated in [h] with exactly the
    color, value and links of [t]; [par] is the parent pointer of the top
    node.  Parent and child pointers are therefore symmetric. *)
Fixpoint rep (h : heap) (par : RBTree) (t : tree) : Prop :=
  match t with
  | Leaf => True
  | Node c i v l r =>
      h !! i = Some (mkNode c v par (ptr_of l) (ptr_of r)) /\
      rep h (Some i) l /\ rep h (Some i) r
  end.

(** the tree reachable from [root] in [h] is [t] *)
Definition tree_at (h : heap) (root : RBTree) (t : tree) : Prop :=
  root = ptr_of t /\ rep h None t /\ uniq t.

Fixpoint height (t : tree) : nat :=
  match t with Leaf => 0 | Node _ _ _ l r => S (Nat.max (height l) (height r)) end.

Fixpoint count (t : tree) : nat :=
  match t with Leaf => 0 | Node _ _ _ l r => S (count l + count r) end.

(** ** The invariants of the data model (spec section 3) *)

(** 1. BST order: left values [<=] ([<] without duplicates), right values [>=] *)
Fixpoint bst_order (ALLOW_DUP : bool) (t : tree) : Prop :=
  match t with
  | Leaf => True
  | Node _ _ v l r =>
      Forall (fun x => if ALLOW_DUP then x <= v else x < v) (inorder l) /\
      Forall (fun x => v <= x) (inorder r) /\
      bst_order ALLOW_DUP l /\ bst_order ALLOW_DUP r
  end.

(** 4. no red node has a red child *)
Fixpoint no_red_red (t : tree) : Prop :=
  match t with
  | Leaf => True
  | Node c _ _ l r =>
      (c = RED -> color l = BLACK /\ color r = BLACK) /\ no_red_red l /\ no_red_red r
  end.

(** 5. the number of black nodes on every path down to an absent child *)
Fixpoint black_height (t : tree) (n : nat) : Prop :=
  match t with
  | Leaf => n = 0%nat
  | Node c _ _ l r =>
      exists m, n = (match c with BLACK => S m | RED => m end)%nat /\
        black_height l m /\ black_height r m
  end.

(** the five invariants of a whole tree; 2 (parent/child symmetry) and
    3 (absent children are black, [IsBlack]) are part of [tree_at] and of
    [color] *)
Definition rb_tree (ALLOW_DUP : bool) (t : tree) : Prop :=
  bst_order ALLOW_DUP t /\ no_red_red t /\ (exists n, black_height t n) /\ color t = BLACK.

Definition valid (ALLOW_DUP : bool) (h : heap) (root : RBTree) : Prop :=
  exists t, tree_at h root t /\ rb_tree ALLOW_DUP t.

(** ** The algorithms on abstract trees

    Each function below follows its C++ counterpart case by case; the
    simulation lemmas further down show that the heap functions compute
    exactly these trees. *)

(** LeftRotate / RightRotate: colors and values stay with their nodes *)
Definition rotl (t : tree) : tree :=
  match t with
  | Node c i v l (Node c' j w rl rr) => Node c' j w (Node c i v l rl) rr
  | _ => t
  end.

Definition rotr (t : tree) : tree :=
  match t with
  | Node c i v (Node c' j w ll lr) r => Node c' j w ll (Node c i v lr r)
  | _ => t
  end.

(** Search, returning the position where the descent stops *)
Fixpoint search_z (value : Z) (t : tree) (p : path) : tree * path :=
  match t with
  | Leaf => (Leaf, p)
  | Node c i v l r =>
      if Z.eqb value v then (t, p)
      else if Z.ltb value v then search_z value l (FL c i v r :: p)
      else search_z value r (FR c i v l :: p)
  end.

(** the descent of Insert: [Dup] is [return false], [At p] the absent
    child where the new node is attached *)
Inductive descent := Dup | At (p : path).

Fixpoint ins_z (ALLOW_DUP : bool) (value : Z) (t : tree) (p : path) : descent :=
  match t with
  | Leaf => At p
  | Node c i v l r =>
      if negb ALLOW_DUP && Z.eqb value v then Dup
      else if Z.leb value v then ins_z ALLOW_DUP value l (FL c i v r :: p)
      else ins_z ALLOW_DUP value r (FR c i v l :: p)
  end.

(** __Insert_Adjust on the node [t] at position [p]; the result is the
    whole tree *)
Fixpoint ins_fix (t : tree) (p : path) {struct p} : option tree :=
  match t with
  | Leaf => None
  | Node cc i v l r =>
  if bool_decide (cc = RED) then
  match p with
  | [] => Some (Node BLACK i v l r)
  | fp :: p1 =>
    if bool_decide (frame_color fp = BLACK) then Some (plug t p) else
    match p1 with
    | [] => None
    | FL gc gi gv u :: p2 =>
        if is_red u then
          ins_fix (Node RED gi gv (recolor BLACK (fill fp t)) (recolor BLACK u)) p2
        else
          let par := match fp with
                     | FR _ _ _ _ => rotl (fill fp t)
                     | FL _ _ _ _ => fill fp t
                     end in
          Some (plug (rotr (Node RED gi gv (recolor BLACK par) u)) p2)
    | FR gc gi gv u :: p2 =>
        if is_red u then
          ins_fix (Node RED gi gv (recolor BLACK u) (recolor BLACK (fill fp t))) p2
        else
          let par := match fp with
                     | FL _ _ _ _ => rotr (fill fp t)
                     | FR _ _ _ _ => fill fp t
                     end in
          Some (plug (rotl (Node RED gi gv u (recolor BLACK par))) p2)
    end
  end
  else None
  end.

(** Insert with [nid] the address of the new node *)
Definition ains (ALLOW_DUP : bool) (nid : ptr) (value : Z) (t : tree)
    : option (bool * tree) :=
  match t with
  | Leaf => Some (true, Node BLACK nid value Leaf Leaf)
  | Node _ _ _ _ _ =>
      match ins_z ALLOW_DUP value t [] with
      | Dup => Some (false, t)
      | At p =>
          match ins_fix (Node RED nid value Leaf Leaf) p with
          | Some t' => Some (true, t')
          | None => None
          end
      end
  end.

(** Cases 3, 2 and 4 of __Remove_Adjust for [cur] ([t]) the left child of
    the parent [pc pi pv] with sibling [s]; [p1] is the path above the
    parent and [k] the recursive call on the parent (case 4.2). *)
Definition rem_fix_L (k : tree -> option path) (t : tree) (pc : RBColor) (pi : ptr)
    (pv : Z) (s : tree) (p1 : path) : option path :=
  match s with
  | Leaf => None
  | Node _ si sv sl sr =>
  let s := if negb (is_red sr) && is_red sl
           then rotr (Node RED si sv (recolor BLACK sl) sr) else s in
  match s with
  | Leaf => None
  | Node _ si sv sl sr =>
  if is_red sr then Some (FL BLACK pi pv sl :: FL pc si sv (recolor BLACK sr) :: p1)
  else if is_red sl then None
  else if bool_decide (pc = RED) then Some (FL BLACK pi pv (Node RED si sv sl sr) :: p1)
  else match k (Node BLACK pi pv t (Node RED si sv sl sr)) with
       | Some p1' => Some (FL BLACK pi pv (Node RED si sv sl sr) :: p1')
       | None => None
       end
  end
  end.

(** the mirror image: [cur] is the right child, [s] the left sibling *)
Definition rem_fix_R (k : tree -> option path) (t : tree) (pc : RBColor) (pi : ptr)
    (pv : Z) (s : tree) (p1 : path) : option path :=
  match s with
  | Leaf => None
  | Node _ si sv sl sr =>
  let s := if negb (is_red sl) && is_red sr
           then rotl (Node RED si sv sl (recolor BLACK sr)) else s in
  match s with
  | Leaf => None
  | Node _ si sv sl sr =>
  if is_red sl then Some (FR BLACK pi pv sr :: FR pc si sv (recolor BLACK sl) :: p1)
  else if is_red sr then None
  else if bool_decide (pc = RED) then Some (FR BLACK pi pv (Node RED si sv sl sr) :: p1)
  else match k (Node BLACK pi pv (Node RED si sv sl sr) t) with
       | Some p1' => Some (FR BLACK pi pv (Node RED si sv sl sr) :: p1')
       | None => None
       end
  end
  end.

(** __Remove_Adjust on the node [t] at position [p]; the node itself is
    never changed, the result is its new position.  After case 1 the
    parent is red, so case 4.2 (the recursion) cannot follow it: that
    continuation is never called. *)
Fixpoint rem_fix (t : tree) (p : path) {struct p} : option path :=
  match t with
  | Leaf => None
  | Node cc _ _ _ _ =>
  if bool_decide (cc = BLACK) then
  match p with
  | [] => Some []
  | FL pc pi pv s :: p1 =>
      if is_red s then
        match s with
        | Node _ si sv sl sr =>
            rem_fix_L (fun _ => None) t RED pi pv sl (FL BLACK si sv sr :: p1)
        | Leaf => None
        end
      else rem_fix_L (fun tp => rem_fix tp p1) t pc pi pv s p1
  | FR pc pi pv s :: p1 =>
      if is_red s then
        match s with
        | Node _ si sv sl sr =>
            rem_fix_R (fun _ => None) t RED pi pv sr (FR BLACK si sv sl :: p1)
        | Leaf => None
        end
      else rem_fix_R (fun tp => rem_fix tp p1) t pc pi pv s p1
  end
  else None
  end.

(** the minimum node of a subtree, with its position *)
Fixpoint leftmost (t : tree) (p : path) : tree * path :=
  match t with
  | Node c i v (Node _ _ _ _ _ as l) r => leftmost l (FL c i v r :: p)
  | _ => (t, p)
  end.

Definition child_of (t : tree) : tree :=
  match t with
  | Node _ _ _ (Node _ _ _ _ _ as l) _ => l
  | Node _ _ _ Leaf r => r
  | Leaf => Leaf
  end.

(** the node [x] at position [px'] (after the fixup) is unlinked: its
    only child takes its place *)
Definition adetach (x : tree) (px' : path) : option (RBTree * tree) :=
  match x with
  | Leaf => None
  | Node _ xi _ xl xr =>
  match px' with
  | [] =>
      match xl, xr with
      | Leaf, Leaf => Some (Some xi, Leaf)
      | _, _ =>
          match child_of x with
          | Node _ ti tv Leaf Leaf => Some (Some xi, Node BLACK ti tv Leaf Leaf)
          | _ => None
          end
      end
  | _ => Some (Some xi, plug (child_of x) px')
  end
  end.

(** Remove: the address of the removed node and the new tree *)
Definition arem (value : Z) (t : tree) : option (RBTree * tree) :=
  match t with
  | Leaf => Some (None, Leaf)
  | Node _ _ _ _ _ =>
  match search_z value t [] with
  | (Leaf, _) => Some (None, t)
  | (Node c i v l r, p) =>
      let xp :=
        match l, r with
        | Node _ _ _ _ _, Node _ _ _ _ _ =>
            match leftmost r [] with
            | (Node mc mi mv ml mr, pm) => (Node mc mi v ml mr, pm ++ FR c i mv l :: p)
            | (Leaf, pm) => (Leaf, pm)
            end
        | _, _ => (Node c i v l r, p)
        end in
      match xp with
      | (Leaf, _) => None
      | (Node xc xi xv xl xr as x, px) =>
      match (if bool_decide (xc = BLACK) then rem_fix x px else Some px) with
      | None => None
      | Some px' => adetach x px'
      end
      end
  end
  end.

(** ** Sequences of public operations *)

Inductive op := OpInsert (v : Z) | OpRemove (v : Z).

Fixpoint run (ALLOW_DUP : bool) (ops : list op) (h : heap) (root : RBTree)
    : option (heap * RBTree) :=
  match ops with
  | [] => Some (h, root)
  | OpInsert v :: ops' =>
      match Insert ALLOW_DUP root v h with
      | Some ((_, root'), h') => run ALLOW_DUP ops' h' root'
      | None => None
      end
  | OpRemove v :: ops' =>
      match Remove root v h with
      | Some ((_, root'), h') => run ALLOW_DUP ops' h' root'
      | None => None
      end
  end.

(** ** Proof vocabulary *)

Definition frame_sib (f : frame) : tree :=
  match f with FL _ _ _ r => r | FR _ _ _ l => l end.

(** the nodes of a path: the hole's pointer is [x] *)
Fixpoint rep_path (h : heap) (x : RBTree) (p : path) : Prop :=
  match p with
  | [] => True
  | FL c i v r :: p' =>
      h !! i = Some (mkNode c v (parent_of p') x (ptr_of r)) /\
      rep h (Some i) r /\ rep_path h (Some i) p'
  | FR c i v l :: p' =>
      h !! i = Some (mkNode c v (parent_of p') (ptr_of l) x) /\
      rep h (Some i) l /\ rep_path h (Some i) p'
  end.

Fixpoint ids_path (p : path) : gset ptr :=
  match p with
  | [] => ∅
  | f :: p' => {[frame_id f]} ∪ ids (frame_sib f) ∪ ids_path p'
  end.

Fixpoint uniq_path (p : path) : Prop :=
  match p with
  | [] => True
  | f :: p' =>
      (frame_id f ∉ ids (frame_sib f)) /\ (frame_id f ∉ ids_path p') /\
      (ids (frame_sib f) ## ids_path p') /\ uniq (frame_sib f) /\ uniq_path p'
  end.

(** red-black shape with black height [n] (no red node with a red child) *)
Inductive is_rb : tree -> nat -> Prop :=
  | rb_leaf : is_rb Leaf 0
  | rb_red i v l r n :
      is_rb l n -> is_rb r n -> color l = BLACK -> color r = BLACK ->
      is_rb (Node RED i v l r) n
  | rb_black i v l r n :
      is_rb l n -> is_rb r n -> is_rb (Node BLACK i v l r) (S n).

(** [ctx p n b]: plugging into the hole of [p] a red-black tree of black
    height [n] (black when [b]) gives a valid whole tree *)
Inductive ctx : path -> nat -> bool -> Prop :=
  | ctx_top n : ctx [] n true
  | ctx_FL_black i v s p n b :
      is_rb s n -> ctx p (S n) b -> ctx (FL BLACK i v s :: p) n false
  | ctx_FR_black i v s p n b :
      is_rb s n -> ctx p (S n) b -> ctx (FR BLACK i v s :: p) n false
  | ctx_FL_red i v s p n :
      is_rb s n -> color s = BLACK -> ctx p n false -> ctx (FL RED i v s :: p) n true
  | ctx_FR_red i v s p n :
      is_rb s n -> color s = BLACK -> ctx p n false -> ctx (FR RED i v s :: p) n true.

(** what the fixup guarantees: the position of the node it was called on
    now fits a subtree whose black height is one less *)
Definition rem_spec (p' : path) (m : nat) : Prop :=
  exists b', ctx p' m b' /\ (b' = true -> p' = []).

(** what a fixup called on [t] at position [p] guarantees: it returns
    the new root and the heap represents [t] at its new position [p'];
    nothing outside the tree is written *)
Definition adj_post (t : tree) (p p' : path) (h : heap) (root' : RBTree) (h' : heap) : Prop :=
  root' = ptr_of (plug t p') /\ rep h' None (plug t p') /\
  forall k, k ∉ ids (plug t p) -> h' !! k = h !! k.

(** the order of the in-order sequence: strict without duplicates *)
Definition ord (ALLOW_DUP : bool) (x y : Z) : Prop :=
  if ALLOW_DUP then x <= y else x < y.

(** weakest precondition of a heap computation: it succeeds and its
    result satisfies [Q] *)
Definition wp {A} (m : M A) (h : heap) (Q : A -> heap -> Prop) : Prop :=
  exists a h', m h = Some (a, h') /\ Q a h'.

(** The part of [__Remove_Adjust] after case 1 (cases 3, 2 and 4) as a
    function of the triple [(parent, sib, root)] it starts from; [rec] is
    the recursive call.  [Remove_Adjust (S fuel)] continues with
    [Remove_Adjust_tail_L (Remove_Adjust fuel)] when [cur] is a left
    child and with [Remove_Adjust_tail_R (Remove_Adjust fuel)] otherwise. *)
Definition Remove_Adjust_tail_L (rec : ptr -> RBTree -> M RBTree)
    (st : ptr * RBTree * RBTree) : M RBTree :=
  let '(parent, sib, root) := st in
  assert (bool_decide (sib <> None));;;
  match sib with None => fail | Some sib =>
  (* Case 3: Right cousin is black, left cousin is red *)
  sr <- get_right sib;;
  c3a <- IsBlack sr;;
  c3 <- (if c3a then (sl <- get_left sib;; IsRed sl) else ret false);;
  sib <- (if c3 then
            sl <- get_left sib;;
            match sl with None => fail | Some sl =>
            set_color sl BLACK;;; set_color sib RED;;; RightRotate sib end
          else ret sib);;
  (* Case 2: Right cousin is red *)
  sr <- get_right sib;;
  c2 <- IsRed sr;;
  if c2 then
    match sr with None => fail | Some sr =>
    set_color sr BLACK;;;
    pc <- get_color parent;;
    set_color sib pc;;;
    set_color parent BLACK;;;
    let change := ptr_eqb (Some parent) root in
    top <- LeftRotate parent;;
    ret (if change then Some top else root)
    end
  else
    (* Case 4: both cousins black *)
    sl <- get_left sib;;
    b <- IsBlack sl;;
    assert b;;;
    pr <- IsRed (Some parent);;
    if pr then (set_color sib RED;;; set_color parent BLACK;;; ret root)
    else (set_color sib RED;;; rec parent root)
  end.

Definition Remove_Adjust_tail_R (rec : ptr -> RBTree -> M RBTree)
    (st : ptr * RBTree * RBTree) : M RBTree :=
  let '(parent, sib, root) := st in
  assert (bool_decide (sib <> None));;;
  match sib with None => fail | Some sib =>
  sl <- get_left sib;;
  c3a <- IsBlack sl;;
  c3 <- (if c3a then (sr <- get_right sib;; IsRed sr) else ret false);;
  sib <- (if c3 then
            sr <- get_right sib;;
            match sr with None => fail | Some sr =>
            set_color sr BLACK;;; set_color sib RED;;; LeftRotate sib end
          else ret sib);;
  sl <- get_left sib;;
  c2 <- IsRed sl;;
  if c2 then
    match sl with None => fail | Some sl =>
    set_color sl BLACK;;;
    pc <- get_color parent;;
    set_color sib pc;;;
    set_color parent BLACK;;;
    let change := ptr_eqb (Some parent) root in
    top <- RightRotate parent;;
    ret (if change then Some top else root)
    end
  else
    sr <- get_right sib;;
    b <- IsBlack sr;;
    assert b;;;
    pr <- IsRed (Some parent);;
    if pr then (set_color sib RED;;; set_color parent BLACK;;; ret root)
    else (set_color sib RED;;; rec parent root)
  end.

(** The end of [Remove] after the node [cur] to unlink is known (the
    swap with the minimum node done): [Remove_fuel] continues with
    [Remove_detach fuel root cur], which adjusts the tree and then runs
    [Remove_unlink]. *)
Definition Remove_unlink (root : RBTree) (cur : ptr) : M (RBTree * RBTree) :=
  (* Find parent *)
  parent <- get_parent cur;;
  match parent with
  | None =>
      (* Remove root node *)
      assert (ptr_eqb (Some cur) root);;;
      leaf <- IsLeaf cur;;
      root <- (if leaf then ret None
               else
                 cl <- get_left cur;;
                 cr <- get_right cur;;
                 let that := match cl with Some _ => cl | None => cr end in
                 match that with None => fail | Some t =>
                 tleaf <- IsLeaf t;;
                 assert tleaf;;;
                 set_color t BLACK;;;
                 set_parent t None;;;
                 ret (Some t)
                 end);;
      set_right cur None;;;
      set_left cur None;;;
      ret (Some cur, root)
  | Some parent =>
      pl <- get_left parent;;
      (* Reference for parent's pointer *)
      let set_child q := if ptr_eqb pl (Some cur) then set_left parent q
                         else set_right parent q in
      leaf <- IsLeaf cur;;
      (if leaf then set_child None
       else
         cl <- get_left cur;;
         match cl with
         | Some l => set_child (Some l);;; cp <- get_parent cur;; set_parent l cp
         | None =>
             cr <- get_right cur;;
             match cr with None => fail | Some r =>
             set_child (Some r);;; cp <- get_parent cur;; set_parent r cp end
         end);;;
      set_right cur None;;;
      set_left cur None;;;
      set_parent cur None;;;
      ret (Some cur, root)
  end.

Definition Remove_detach (fuel : nat) (root : RBTree) (cur : ptr) : M (RBTree * RBTree) :=
  blk <- IsBlack (Some cur);;
  root <- (if blk then Remove_Adjust fuel cur root else ret root);;
  Remove_unlink root cur.

(** the tree with the value of the node [j] replaced by [w] *)
Fixpoint set_val (j : ptr) (w : Z) (t : tree) : tree :=
  match t with
  | Leaf => Leaf
  | Node c i v l r => Node c i (if bool_decide (i = j) then w else v) (set_val j w l) (set_val j w r)
  end.

Definition set_val_frame (j : ptr) (w : Z) (f : frame) : frame :=
  match f with
  | FL c i v s => FL c i (if bool_decide (i = j) then w else v) (set_val j w s)
  | FR c i v s => FR c i (if bool_decide (i = j) then w else v) (set_val j w s)
  end.

(** the in-order list of (address, value) pairs *)
Fixpoint nodes (t : tree) : list (ptr * Z) :=
  match t with
  | Leaf => []
  | Node _ i v l r => nodes l ++ (i, v) :: nodes r
  end.

(** ** Invariant of the public operations and the demo tree *)

(** the invariant kept by the public operations: a red-black tree with a
    black root whose in-order sequence is sorted *)
Definition rb_inv (ALLOW_DUP : bool) (h : heap) (root : RBTree) (t : tree) : Prop :=
  tree_at h root t /\ (exists n, is_rb t n) /\ color t = BLACK /\
  StronglySorted (ord ALLOW_DUP) (inorder t).

(** the heaps and roots produced by a sequence of public operations
    starting from the empty tree *)
Definition reachable (ALLOW_DUP : bool) (h : heap) (root : RBTree) : Prop :=
  exists ops, run ALLOW_DUP ops ∅ None = Some (h, root).

(** colors and values of all allocated nodes are kept *)
Definition keeps_cv (h h' : heap) : Prop :=
  forall k n, h !! k = Some n ->
    exists n', h' !! k = Some n' /\ _color n' = _color n /\ _value n' = _value n.

Definition cvp {A} (m : M A) : Prop :=
  forall h a h', m h = Some (a, h') -> keeps_cv h h'.

(** a tree built by the public operations: 5, 3, 8 and 1 inserted without
    duplicates *)
Definition demo_ops : list op := [OpInsert 5; OpInsert 3; OpInsert 8; OpInsert 1].

Definition demo_state : option (heap * RBTree) := run false demo_ops ∅ None.

Definition demo_heap : heap := match demo_state with Some (h, _) => h | None => ∅ end.

Definition demo_root : RBTree := match demo_state with Some (_, r) => r | None => None end.

Definition demo_left : tree := Node BLACK 2%positive 3 (Node RED 4%positive 1 Leaf Leaf) Leaf.

Definition demo_right : tree := Node BLACK 3%positive 8 Leaf Leaf.

Definition demo_tree : tree := Node BLACK 1%positive 5 demo_left demo_right.

(** the heap after inserting 4 into the demo tree *)
Definition demo_heap4 : heap :=
  match Insert false demo_root 4 demo_heap with Some (_, h) => h | None => ∅ end.

(** remove_one: removing one copy of a value from a list *)
Fixpoint remove_one (v : Z) (l : list Z) : list Z :=
  match l with [] => [] | x :: l' => if Z.eqb x v then l' else x :: remove_one v l' end.

Definition bag_op (AD : bool) (o : op) (l : list Z) : list Z :=
  match o with
  | OpInsert v => if AD then v :: l else if bool_decide (v ∈ l) then l else v :: l
  | OpRemove v => remove_one v l
  end.

Definition bag_run (AD : bool) (ops : list op) (l : list Z) : list Z :=
  fold_left (fun l o => bag_op AD o l) ops l.

(** ** Values, binary tree traversals and swizzles, in [nat] scope *)
Close Scope Z_scope.

(** ** Binary tree traversals (include/tree/BinTree.h, include/binTree/binTree.h)

    Both headers define the same [BinTreeNode] class, once with
    [shared_ptr] children and once with raw pointers; the traversal code is
    the same.  A child pointer is a [BinTree], [BNil] being the null
    pointer.  [Visit] is the base class's, which returns [_value].  The
    optional output vector [out] is an [option (list T)]: [None] is a null
    pointer, and [push_back] appends at the end. *)

Section BinTreeModel.
Context {T : Type}.

Inductive BinTree := BNil | BNode (_value : T) (_left _right : BinTree).

(** [if(out) out->push_back(t);] *)
Definition push_back (t : T) (out : option (list T)) : option (list T) :=
  match out with Some o => Some (o ++ [t]) | None => None end.

(** the recursive traversals; the guard [if(_left)] skips a null child,
    which is [BNil] leaving [out] as it is *)
Fixpoint PreOrder (t : BinTree) (out : option (list T)) : option (list T) :=
  match t with
  | BNil => out
  | BNode v l r => PreOrder r (PreOrder l (push_back v out))
  end.

Fixpoint InOrder (t : BinTree) (out : option (list T)) : option (list T) :=
  match t with
  | BNil => out
  | BNode v l r => InOrder r (push_back v (InOrder l out))
  end.

Fixpoint PostOrder (t : BinTree) (out : option (list T)) : option (list T) :=
  match t with
  | BNil => out
  | BNode v l r => push_back v (PostOrder r (PostOrder l out))
  end.

(** the queue of [LevelOrder] holds non-null nodes: a node is its value
    and its two children *)
Definition qnode : Type := T * BinTree * BinTree.

(** [if(cur->_left) q.push(cur->_left)] *)
Definition push_child (c : BinTree) : list qnode :=
  match c with BNil => [] | BNode v l r => [(v, l, r)] end.

Fixpoint bsize (t : BinTree) : nat :=
  match t with BNil => 0 | BNode _ l r => S (bsize l + bsize r) end.

(** [while(!q.empty()) { cur = q.front(); q.pop(); ... }], bounded by
    [fuel] iterations; [None] is an exhausted bound *)
Fixpoint LevelOrder_loop (fuel : nat) (q : list qnode) (out : option (list T))
    : option (option (list T)) :=
  match fuel with
  | O => None
  | S fuel' =>
      match q with
      | [] => Some out
      | (v, l, r) :: q' =>
          LevelOrder_loop fuel' (q' ++ push_child l ++ push_child r) (push_back v out)
      end
  end.

(** [LevelOrder] called on the node [(v, l, r)]: the queue starts with
    [this]; each iteration removes one node, so the number of nodes plus
    one bounds the loop *)
Definition LevelOrder (v : T) (l r : BinTree) (out : option (list T)) : option (option (list T)) :=
  LevelOrder_loop (S (bsize (BNode v l r))) [(v, l, r)] out.

(** proof vocabulary: the values in pre-order, the height, and the values
    at depth [d] from left to right *)
Fixpoint bvals (t : BinTree) : list T :=
  match t with BNil => [] | BNode v l r => v :: bvals l ++ bvals r end.

Fixpoint bheight (t : BinTree) : nat :=
  match t with BNil => 0 | BNode _ l r => S (Nat.max (bheight l) (bheight r)) end.

Fixpoint depth_vals (t : BinTree) (d : nat) : list T :=
  match t with
  | BNil => []
  | BNode v l r => match d with O => [v] | S d' => depth_vals l d' ++ depth_vals r d' end
  end.

End BinTreeModel.

Arguments BinTree : clear implicits.

(** ** Vector swizzles (include/vec/vec.h)

    The components of a [Vec2f] or [Vec3f] and every swizzle member share
    the storage [data] of the union; it is a list of the component type
    [F].  A swizzle is given by its index list [Indices] (never empty);
    its [VecType] has one component per index, and [VecType res{}] is the
    zero vector.  The indices are template constants below [N], so every
    access is within [data]; [data[i]] reads with a default only to keep
    the functions total. *)

Section SwizzleModel.
Context {F : Type} (zero : F).

(** [AreDifferentIndices<FirstIndex, Rest...>()] *)
Fixpoint AreDifferentIndices (FirstIndex : nat) (Rest : list nat) : bool :=
  match Rest with
  | [] => true
  | SecondIndex :: Rest' =>
      if Nat.eqb FirstIndex SecondIndex then false
      else if existsb (Nat.eqb FirstIndex) Rest' then false
      else AreDifferentIndices SecondIndex Rest'
  end.

Definition at_index (l : list F) (i : nat) : F := default zero (l !! i).

(** [for (i : {Indices...}) { res[j] = data[i]; j++; }] *)
Fixpoint swizzle_read (data : list F) (Indices : list nat) (j : nat) (res : list F) : list F :=
  match Indices with
  | [] => res
  | i :: Indices' => swizzle_read data Indices' (S j) (<[j := at_index data i]> res)
  end.

(** [for (i : {Indices...}) { data[i] = vec[j]; j++; }] *)
Fixpoint swizzle_write (data : list F) (Indices : list nat) (j : nat) (vec : list F) : list F :=
  match Indices with
  | [] => data
  | i :: Indices' => swizzle_write (<[i := at_index vec j]> data) Indices' (S j) vec
  end.

(** [VectorSwizzle::operator VecType()] *)
Definition VectorSwizzle_get (FirstIndex : nat) (Rest : list nat) (data : list F) : list F :=
  swizzle_read data (FirstIndex :: Rest) 0 (replicate (length (FirstIndex :: Rest)) zero).

(** [VectorSwizzle::operator=(vec)]: the new [data] and the returned
    [res]; a failed [assert] is [None] *)
Definition VectorSwizzle_assign (FirstIndex : nat) (Rest : list nat) (data vec : list F)
    : option (list F * list F) :=
  if AreDifferentIndices FirstIndex Rest
  then Some (swizzle_write data (FirstIndex :: Rest) 0 vec, replicate (length (FirstIndex :: Rest)) zero)
  else None.

End SwizzleModel.

Section LevelOrderVocabulary.
Context {T : Type}.
Implicit Types (out : option (list T)) (q : list (@qnode T)).

(** the level-order loop on a queue *)
Definition out_app out (a : list T) : option (list T) :=
  match out with Some o => Some (o ++ a) | None => None end.

Definition qtree (n : @qnode T) : BinTree T := let '(v, l, r) := n in BNode v l r.

Definition qsize q : nat := sum_list_with (fun n => bsize (qtree n)) q.

Definition qchildren q : list (@qnode T) :=
  concat (map (fun n => let '(_, l, r) := n in push_child l ++ push_child r) q).

Definition qroots q : list T := map (fun n => let '(v, _, _) := n in v) q.

Definition qdepth q (d : nat) : list T := concat (map (fun n => depth_vals (qtree n) d) q).

End LevelOrderVocabulary.

Open Scope Z_scope.

(** * Lemmas *)

(** ** Zippers, addresses and the heap representation *)

Lemma plug_app t p q : plug t (p ++ q) = plug (plug t p) q.
Proof. revert t; induction p as [|f p IH]; intros t; simpl; auto. Qed.

Lemma ids_plug t p : ids (plug t p) = ids t ∪ ids_path p.
Proof.
  revert t; induction p as [|f p IH]; intros t; simpl.
  - set_solver.
  - rewrite IH. destruct f; simpl; set_solver.
Qed.

Lemma uniq_plug t p :
  uniq (plug t p) <-> uniq t /\ uniq_path p /\ ids t ## ids_path p.
Proof.
  revert t; induction p as [|f p IH]; intros t; simpl.
  - split; [intros; repeat split; auto; set_solver | tauto].
  - rewrite IH. destruct f; simpl; split; intros Hu; decompose [and] Hu;
      repeat split; auto; set_solver.
Qed.

Lemma rep_plug h t p :
  rep h None (plug t p) <-> rep h (parent_of p) t /\ rep_path h (ptr_of t) p.
Proof.
  revert t; induction p as [|f p IH]; intros t; simpl.
  - tauto.
  - rewrite IH. destruct f; simpl; tauto.
Qed.

Lemma rep_frame h h' par t :
  rep h par t -> (forall j, j ∈ ids t -> h' !! j = h !! j) -> rep h' par t.
Proof.
  revert par; induction t as [|c i v l IHl r IHr]; simpl; intros par Hr Hj; auto.
  destruct Hr as (Hi & Hl & Hr). split; [|split].
  - rewrite Hj by set_solver. exact Hi.
  - apply IHl; auto. intros j Hin. apply Hj. set_solver.
  - apply IHr; auto. intros j Hin. apply Hj. set_solver.
Qed.

Lemma rep_path_frame h h' x p :
  rep_path h x p -> (forall j, j ∈ ids_path p -> h' !! j = h !! j) -> rep_path h' x p.
Proof.
  revert x; induction p as [|f p IH]; intros x Hp Hj; simpl in *; auto.
  destruct f; simpl in *; destruct Hp as (Hi & Hs & Hp); repeat split.
  all: try (rewrite Hj by set_solver; exact Hi).
  all: try (eapply rep_frame; [eassumption|]; intros; apply Hj; set_solver).
  all: apply IH; auto; intros; apply Hj; set_solver.
Qed.

Lemma rep_at h c i v l r p :
  rep h None (plug (Node c i v l r) p) ->
  h !! i = Some (mkNode c v (parent_of p) (ptr_of l) (ptr_of r)).
Proof. rewrite rep_plug. simpl. tauto. Qed.

Lemma rep_dom h par t j : rep h par t -> j ∈ ids t -> is_Some (h !! j).
Proof.
  revert par; induction t as [|c i v l IHl r IHr]; simpl; intros par Hr Hj.
  - set_solver.
  - destruct Hr as (Hi & Hl & Hr).
    apply elem_of_union in Hj as [Hj|Hj]; [apply elem_of_union in Hj as [Hj|Hj]|].
    + apply elem_of_singleton in Hj; subst; eauto.
    + eauto.
    + eauto.
Qed.

Lemma rep_path_dom h x p j : rep_path h x p -> j ∈ ids_path p -> is_Some (h !! j).
Proof.
  revert x; induction p as [|f p IH]; intros x Hp Hj; simpl in *.
  - set_solver.
  - destruct f; simpl in *; destruct Hp as (Hi & Hs & Hp);
      repeat (apply elem_of_union in Hj as [Hj|Hj]);
      try (apply elem_of_singleton in Hj; subst; eauto; fail);
      eauto using rep_dom.
Qed.

Lemma ptr_of_plug_fill p f t t' :
  ptr_of (plug (fill f t) p) = ptr_of (plug (fill f t') p).
Proof.
  revert f t t'; induction p as [|g p IH]; intros f t t'; simpl.
  - destruct f; reflexivity.
  - apply IH.
Qed.

Lemma ptr_of_plug_cons t t' f p :
  ptr_of (plug t (f :: p)) = ptr_of (plug t' (f :: p)).
Proof. apply ptr_of_plug_fill. Qed.

Lemma ptr_of_plug_in t f p :
  exists k, ptr_of (plug t (f :: p)) = Some k /\ k ∈ ids_path (f :: p).
Proof.
  revert t f; induction p as [|g p IH]; intros t f; simpl.
  - exists (frame_id f). destruct f; simpl; split; auto; set_solver.
  - destruct (IH (fill f t) g) as (k & Hk & Hin). exists k. split; auto.
    simpl in *. set_solver.
Qed.

Lemma root_test c i v l r p :
  uniq (plug (Node c i v l r) p) ->
  ptr_eqb (Some i) (ptr_of (plug (Node c i v l r) p)) = bool_decide (p = []).
Proof.
  intros Hu. destruct p as [|f p].
  - unfold ptr_eqb. simpl. rewrite !bool_decide_true; auto.
  - apply uniq_plug in Hu as (_ & _ & Hd).
    destruct (ptr_of_plug_in (Node c i v l r) f p) as (k & Hk & Hin).
    rewrite Hk. unfold ptr_eqb. rewrite (bool_decide_false (f :: p = [])) by congruence.
    apply bool_decide_false. intros Heq. injection Heq as ->. simpl in Hd. set_solver.
Qed.

(** ** Weakest preconditions of the heap primitives *)

Lemma wp_ret {A} (a : A) h (Q : A -> heap -> Prop) : Q a h -> wp (ret a) h Q.
Proof. intros HQ. exists a, h. split; auto. Qed.

Lemma wp_bind {A B} (m : M A) (k : A -> M B) h Q :
  wp m h (fun a h' => wp (k a) h' Q) -> wp (bind m k) h Q.
Proof.
  intros (a & h1 & Hm & b & h2 & Hk & HQ). exists b, h2.
  unfold bind. rewrite Hm. auto.
Qed.

Lemma wp_mono {A} (m : M A) h (Q Q' : A -> heap -> Prop) :
  wp m h Q -> (forall a h', Q a h' -> Q' a h') -> wp m h Q'.
Proof. intros (a & h' & Hm & HQ) Himp. exists a, h'. auto. Qed.

Lemma wp_run {A} (m : M A) h Q a h' : wp m h Q -> m h = Some (a, h') -> Q a h'.
Proof. intros (a0 & h0 & Hm & HQ) Hm'. rewrite Hm in Hm'. congruence. Qed.

Lemma wp_assert b h Q : b = true -> Q tt h -> wp (assert b) h Q.
Proof. intros ->. apply wp_ret. Qed.

Lemma wp_load p n h Q : h !! p = Some n -> Q n h -> wp (load p) h Q.
Proof. intros Hp HQ. exists n, h. unfold load. rewrite Hp. auto. Qed.

Lemma wp_store p n h Q : Q tt (<[p := n]> h) -> wp (store p n) h Q.
Proof. intros HQ. eexists _, _. split; [reflexivity|exact HQ]. Qed.

Local Ltac wp_field := intros Hp HQ; apply wp_bind; eapply wp_load; [exact Hp|];
  first [apply wp_ret | apply wp_store]; exact HQ.

Lemma wp_get_color p n h Q : h !! p = Some n -> Q (_color n) h -> wp (get_color p) h Q.
Proof. wp_field. Qed.
Lemma wp_get_value p n h Q : h !! p = Some n -> Q (_value n) h -> wp (get_value p) h Q.
Proof. wp_field. Qed.
Lemma wp_get_parent p n h Q : h !! p = Some n -> Q (_parent n) h -> wp (get_parent p) h Q.
Proof. wp_field. Qed.
Lemma wp_get_left p n h Q : h !! p = Some n -> Q (_left n) h -> wp (get_left p) h Q.
Proof. wp_field. Qed.
Lemma wp_get_right p n h Q : h !! p = Some n -> Q (_right n) h -> wp (get_right p) h Q.
Proof. wp_field. Qed.

Lemma wp_set_color p n c h Q : h !! p = Some n ->
  Q tt (<[p := mkNode c (_value n) (_parent n) (_left n) (_right n)]> h) ->
  wp (set_color p c) h Q.
Proof. wp_field. Qed.
Lemma wp_set_value p n x h Q : h !! p = Some n ->
  Q tt (<[p := mkNode (_color n) x (_parent n) (_left n) (_right n)]> h) ->
  wp (set_value p x) h Q.
Proof. wp_field. Qed.
Lemma wp_set_parent p n q h Q : h !! p = Some n ->
  Q tt (<[p := mkNode (_color n) (_value n) q (_left n) (_right n)]> h) ->
  wp (set_parent p q) h Q.
Proof. wp_field. Qed.
Lemma wp_set_left p n q h Q : h !! p = Some n ->
  Q tt (<[p := mkNode (_color n) (_value n) (_parent n) q (_right n)]> h) ->
  wp (set_left p q) h Q.
Proof. wp_field. Qed.
Lemma wp_set_right p n q h Q : h !! p = Some n ->
  Q tt (<[p := mkNode (_color n) (_value n) (_parent n) (_left n) q]> h) ->
  wp (set_right p q) h Q.
Proof. wp_field. Qed.

Lemma wp_make_shared n h Q :
  Q (fresh (dom h)) (<[fresh (dom h) := n]> h) -> wp (make_shared n) h Q.
Proof. intros HQ. eexists _, _. split; [reflexivity|exact HQ]. Qed.

Lemma wp_IsBlack_tree h par t Q :
  rep h par t -> Q (negb (is_red t)) h -> wp (IsBlack (ptr_of t)) h Q.
Proof.
  destruct t as [|c i v l r]; simpl; intros Hr HQ.
  - apply wp_ret. exact HQ.
  - destruct Hr as (Hi & _). apply wp_bind. eapply wp_get_color; [exact Hi|].
    apply wp_ret. destruct c; exact HQ.
Qed.

Lemma wp_IsRed_tree h par t Q :
  rep h par t -> Q (is_red t) h -> wp (IsRed (ptr_of t)) h Q.
Proof.
  intros Hr HQ. unfold IsRed. apply wp_bind. eapply wp_IsBlack_tree; [exact Hr|].
  apply wp_ret. rewrite negb_involutive. exact HQ.
Qed.

Lemma wp_IsBlack_Some p n h Q :
  h !! p = Some n -> Q (bool_decide (_color n = BLACK)) h -> wp (IsBlack (Some p)) h Q.
Proof. intros Hp HQ. apply wp_bind. eapply wp_get_color; [exact Hp|]. apply wp_ret. exact HQ. Qed.

Lemma wp_IsRed_Some p n h Q :
  h !! p = Some n -> Q (bool_decide (_color n = RED)) h -> wp (IsRed (Some p)) h Q.
Proof.
  intros Hp HQ. apply wp_bind. eapply wp_IsBlack_Some; [exact Hp|]. apply wp_ret.
  destruct (_color n); exact HQ.
Qed.

Lemma wp_IsBlack_None h Q : Q true h -> wp (IsBlack None) h Q.
Proof. apply wp_ret. Qed.

Lemma wp_IsRed_None h Q : Q false h -> wp (IsRed None) h Q.
Proof. intros HQ. apply wp_bind. apply wp_IsBlack_None. apply wp_ret. exact HQ. Qed.

Lemma disj_ne (X Y : gset ptr) a b : X ## Y -> a ∈ X -> b ∈ Y -> a <> b.
Proof. intros H Ha Hb ->. exact (H b Ha Hb). Qed.

Lemma notin_ne (X : gset ptr) a b : a ∉ X -> b ∈ X -> a <> b.
Proof. intros H Hb ->. exact (H Hb). Qed.

(** membership in a union, and distinctness of addresses from the
    disjointness facts in the context *)
Ltac in_tac :=
  first [ assumption | apply elem_of_singleton_2; reflexivity
        | apply elem_of_union_l; in_tac | apply elem_of_union_r; in_tac ].

Ltac neq_tac :=
  first
    [ assumption | apply not_eq_sym; assumption
    | match goal with
      | H : ?X ## ?Y |- ?a <> ?b =>
          first [ apply (disj_ne X Y a b H); [in_tac|in_tac]
                | apply not_eq_sym; apply (disj_ne X Y b a H); [in_tac|in_tac] ]
      | H : ?a ∉ ?X |- ?a <> ?b => apply (notin_ne X a b H); in_tac
      | H : ?b ∉ ?X |- ?a <> ?b => apply not_eq_sym; apply (notin_ne X b a H); in_tac
      end ].

Ltac notin_tac :=
  let Hin := fresh in intros Hin;
  lazymatch type of Hin with
  | ?a ∈ _ =>
    first
      [ match goal with
        | H : ?X ## ?Y |- False =>
            apply (disj_ne X Y a a H); [in_tac|in_tac|reflexivity]
        end
      | match goal with
        | H : a ∉ ?X |- False => apply H; in_tac
        end ]
  end.

Ltac destr_and :=
  repeat match goal with H : _ /\ _ |- _ => destruct H end.

Lemma ptr_eqb_not_in s i : i ∉ ids s -> ptr_eqb (ptr_of s) (Some i) = false.
Proof.
  intros Hi. unfold ptr_eqb. apply bool_decide_false.
  destruct s; simpl in *; [congruence|]. intros [= ->]. set_solver.
Qed.

Lemma ptr_eqb_refl x : ptr_eqb x x = true.
Proof. unfold ptr_eqb. apply bool_decide_true. reflexivity. Qed.

Lemma ptr_eqb_not_in' s i : i ∉ ids s -> ptr_eqb (Some i) (ptr_of s) = false.
Proof.
  intros Hi. unfold ptr_eqb. apply bool_decide_false.
  destruct s; simpl in *; [congruence|]. intros [= ->]. set_solver.
Qed.

Lemma bd_BB : bool_decide (BLACK = BLACK) = true.
Proof. reflexivity. Qed.
Lemma bd_RR : bool_decide (RED = RED) = true.
Proof. reflexivity. Qed.
Lemma bd_BR : bool_decide (BLACK = RED) = false.
Proof. reflexivity. Qed.
Lemma bd_RB : bool_decide (RED = BLACK) = false.
Proof. reflexivity. Qed.

(** one step of a heap computation; lookups are solved from the
    hypotheses and the stores done so far *)
Ltac lookup_tac :=
  repeat first
    [ rewrite lookup_insert_eq
    | rewrite lookup_insert_ne by neq_tac ];
  first [ reflexivity | eassumption ].

Ltac wprim m :=
  lazymatch m with
  | get_color _ => eapply wp_get_color; [lookup_tac|]
  | get_value _ => eapply wp_get_value; [lookup_tac|]
  | get_parent _ => eapply wp_get_parent; [lookup_tac|]
  | get_left _ => eapply wp_get_left; [lookup_tac|]
  | get_right _ => eapply wp_get_right; [lookup_tac|]
  | set_color _ _ => eapply wp_set_color; [lookup_tac|]
  | set_value _ _ => eapply wp_set_value; [lookup_tac|]
  | set_parent _ _ => eapply wp_set_parent; [lookup_tac|]
  | set_left _ _ => eapply wp_set_left; [lookup_tac|]
  | set_right _ _ => eapply wp_set_right; [lookup_tac|]
  | make_shared _ => apply wp_make_shared
  | assert _ => apply wp_assert;
      [first [ reflexivity | apply ptr_eqb_refl | apply bool_decide_true; congruence
             | unfold ptr_eqb; apply bool_decide_true; congruence ]|]
  | IsRed (Some _) => eapply wp_IsRed_Some; [lookup_tac|]
  | IsRed None => apply wp_IsRed_None
  | IsBlack (Some _) => eapply wp_IsBlack_Some; [lookup_tac|]
  | IsBlack None => apply wp_IsBlack_None
  | IsRed _ => first [eapply wp_IsRed_tree; [eassumption|] | unfold IsRed]
  | IsBlack _ => first [eapply wp_IsBlack_tree; [eassumption|] | unfold IsBlack]
  | IsRoot _ => unfold IsRoot
  | IsLeaf _ => unfold IsLeaf
  | ret _ => apply wp_ret
  | bind _ _ => idtac
  end.

Ltac wstep :=
  lazymatch goal with
  | |- wp (bind ?m _) _ _ => apply wp_bind; wprim m
  | |- wp ?m _ _ => wprim m
  end; cbn beta iota zeta delta [_color _value _parent _left _right parent_of ptr_of frame_id];
  rewrite ?bd_BB, ?bd_RR, ?bd_BR, ?bd_RB, ?ptr_eqb_refl.

(** ** Rotations *)

(** the lookups outside the written addresses are unchanged *)
Ltac unch_tac :=
  repeat (rewrite lookup_insert_ne; [|neq_tac]); reflexivity.

Ltac rep_tac :=
  repeat match goal with
  | |- _ /\ _ => split
  | |- True => exact I
  | |- rep_path ?h _ ?p =>
      match goal with H : rep_path _ _ p |- _ =>
        eapply rep_path_frame; [exact H|]; intros ??; unch_tac end
  | |- rep ?h _ ?t =>
      match goal with H : rep _ _ t |- _ =>
        eapply rep_frame; [exact H|]; intros ??; unch_tac end
  | |- _ !! _ = Some _ => lookup_tac
  end.

(** LeftRotate at a position of a tree: the heap represents the rotated
    tree, and no address outside the tree is written *)
Lemma LeftRotate_wp h p c i v l c' j w rl rr (R : ptr -> heap -> Prop) :
  rep h None (plug (Node c i v l (Node c' j w rl rr)) p) ->
  uniq (plug (Node c i v l (Node c' j w rl rr)) p) ->
  (forall h', rep h' None (plug (Node c' j w (Node c i v l rl) rr) p) ->
     (forall k, k ∉ ids (plug (Node c i v l (Node c' j w rl rr)) p) -> h' !! k = h !! k) ->
     R j h') ->
  wp (LeftRotate i) h R.
Proof.
  intros Hrep Hu HR.
  pose proof Hu as Hu'. rewrite ids_plug in HR.
  apply uniq_plug in Hu' as (Hut & Hup & Hd). simpl in Hut, Hd, HR.
  apply rep_plug in Hrep as (Ht & Hp). simpl in Ht.
  destruct Ht as (Hi & Hl & Hj & Hrl & Hrr). clear Hu. destr_and.
  unfold LeftRotate.
  destruct rl as [|ck k vk rll rlr]; simpl in *;
  [ | destruct Hrl as (Hk & Hrll & Hrlr)];
  (destruct p as [|f p'];
  [ | destruct f as [pc q pv s|pc q pv s]; simpl in Hp, Hd, Hup, HR |- *;
       destruct Hp as (Hq & Hs & Hp')]).
  all: destr_and.
  all: repeat wstep.
  all: try rewrite ptr_eqb_refl; try (rewrite ptr_eqb_not_in by notin_tac).
  all: repeat wstep.
  all: apply HR; [ apply rep_plug; simpl; rep_tac | intros x Hx; unch_tac ].
Qed.

(** the mirror image *)
Lemma RightRotate_wp h p c i v c' j w ll lr r (R : ptr -> heap -> Prop) :
  rep h None (plug (Node c i v (Node c' j w ll lr) r) p) ->
  uniq (plug (Node c i v (Node c' j w ll lr) r) p) ->
  (forall h', rep h' None (plug (Node c' j w ll (Node c i v lr r)) p) ->
     (forall k, k ∉ ids (plug (Node c i v (Node c' j w ll lr) r) p) -> h' !! k = h !! k) ->
     R j h') ->
  wp (RightRotate i) h R.
Proof.
  intros Hrep Hu HR.
  pose proof Hu as Hu'. rewrite ids_plug in HR.
  apply uniq_plug in Hu' as (Hut & Hup & Hd). simpl in Hut, Hd, HR.
  apply rep_plug in Hrep as (Ht & Hp). simpl in Ht.
  destruct Ht as (Hi & (Hj & Hll & Hlr) & Hr). clear Hu. destr_and.
  unfold RightRotate.
  destruct lr as [|ck k vk lrl lrr]; simpl in *;
  [ | destruct Hlr as (Hk & Hlrl & Hlrr)];
  (destruct p as [|f p'];
  [ | destruct f as [pc q pv s|pc q pv s]; simpl in Hp, Hd, Hup, HR |- *;
       destruct Hp as (Hq & Hs & Hp')]).
  all: destr_and.
  all: repeat wstep.
  all: try rewrite ptr_eqb_refl; try (rewrite ptr_eqb_not_in by notin_tac).
  all: repeat wstep.
  all: apply HR; [ apply rep_plug; simpl; rep_tac | intros x Hx; unch_tac ].
Qed.

(** ** Address lists *)

Lemma ids_idl t x : x ∈ ids t <-> x ∈ idl t.
Proof.
  induction t as [|c i v l IHl r IHr]; simpl.
  - split; [set_solver|intros Hx; inversion Hx].
  - rewrite elem_of_app, elem_of_cons, <- IHl, <- IHr. set_solver.
Qed.

Lemma uniq_NoDup t : uniq t <-> NoDup (idl t).
Proof.
  induction t as [|c i v l IHl r IHr]; simpl.
  - split; [constructor|auto].
  - rewrite NoDup_app, NoDup_cons, <- IHl, <- IHr.
    split.
    + intros (Hil & Hir & Hd & Hl & Hr). repeat split; auto.
      * intros x Hx. rewrite elem_of_cons. rewrite <- ids_idl in Hx.
        intros [->|Hx']; [done|]. rewrite <- ids_idl in Hx'. set_solver.
      * rewrite <- ids_idl. done.
    + intros (Hl & Hx & (Hir & Hr)). rewrite <- ids_idl in Hir.
      repeat split; auto.
      * intros Hil. rewrite ids_idl in Hil. apply (Hx i Hil). left.
      * intros x Hxl Hxr. rewrite ids_idl in Hxl, Hxr. apply (Hx x Hxl). right. exact Hxr.
Qed.

Lemma idl_plug t t' p : idl t = idl t' -> idl (plug t p) = idl (plug t' p).
Proof.
  revert t t'; induction p as [|f p IH]; intros t t' H; simpl; auto.
  apply IH. destruct f; simpl; rewrite H; reflexivity.
Qed.

Lemma inorder_plug t t' p : inorder t = inorder t' -> inorder (plug t p) = inorder (plug t' p).
Proof.
  revert t t'; induction p as [|f p IH]; intros t t' H; simpl; auto.
  apply IH. destruct f; simpl; rewrite H; reflexivity.
Qed.

Lemma ptr_of_plug t t' p : ptr_of t = ptr_of t' -> ptr_of (plug t p) = ptr_of (plug t' p).
Proof.
  revert t t'; induction p as [|f p IH]; intros t t' H; simpl; auto.
  apply IH. destruct f; reflexivity.
Qed.

Lemma ids_eq_idl t t' : idl t = idl t' -> ids t = ids t'.
Proof. intros H. apply set_eq. intros x. rewrite !ids_idl, H. reflexivity. Qed.

Lemma uniq_idl t t' : idl t = idl t' -> uniq t -> uniq t'.
Proof. intros H. rewrite !uniq_NoDup, H. auto. Qed.

Lemma idl_rotl t : idl (rotl t) = idl t.
Proof. destruct t as [|c i v l [|c' j w rl rr]]; simpl; auto. rewrite <- !app_assoc. reflexivity. Qed.
Lemma idl_rotr t : idl (rotr t) = idl t.
Proof. destruct t as [|c i v [|c' j w ll lr] r]; simpl; auto. rewrite <- !app_assoc. reflexivity. Qed.
Lemma inorder_rotl t : inorder (rotl t) = inorder t.
Proof. destruct t as [|c i v l [|c' j w rl rr]]; simpl; auto. rewrite <- !app_assoc. reflexivity. Qed.
Lemma inorder_rotr t : inorder (rotr t) = inorder t.
Proof. destruct t as [|c i v [|c' j w ll lr] r]; simpl; auto. rewrite <- !app_assoc. reflexivity. Qed.
Lemma idl_recolor c t : idl (recolor c t) = idl t.
Proof. destruct t; reflexivity. Qed.
Lemma inorder_recolor c t : inorder (recolor c t) = inorder t.
Proof. destruct t; reflexivity. Qed.
Lemma ptr_of_recolor c t : ptr_of (recolor c t) = ptr_of t.
Proof. destruct t; reflexivity. Qed.

(** ** Red-black shape *)

Lemma is_red_false t : is_red t = false -> color t = BLACK.
Proof. destruct t as [|[] i v l r]; simpl; congruence. Qed.

Lemma is_red_true t : is_red t = true -> color t = RED.
Proof. destruct t as [|[] i v l r]; simpl; congruence. Qed.

Lemma is_rb_red_inv i v l r n :
  is_rb (Node RED i v l r) n -> is_rb l n /\ is_rb r n /\ color l = BLACK /\ color r = BLACK.
Proof. inversion 1; auto. Qed.

Lemma is_rb_black_inv i v l r n :
  is_rb (Node BLACK i v l r) n -> exists m, n = S m /\ is_rb l m /\ is_rb r m.
Proof. inversion 1; eauto. Qed.

Lemma ctx_nil_inv n b : ctx [] n b -> b = true.
Proof. inversion 1; auto. Qed.

Lemma ctx_cons_inv f p n b :
  ctx (f :: p) n b ->
  (frame_color f = BLACK /\ b = false /\ is_rb (frame_sib f) n /\ exists b', ctx p (S n) b') \/
  (frame_color f = RED /\ b = true /\ is_rb (frame_sib f) n /\ color (frame_sib f) = BLACK /\
   ctx p n false).
Proof. inversion 1; subst; simpl; [left|left|right|right]; eauto 10. Qed.

(** plugging a fitting tree into a context gives a red-black tree with a
    black root *)
Lemma rb_compose p n b t :
  ctx p n b -> is_rb t n -> (b = true -> color t = BLACK) ->
  exists m, is_rb (plug t p) m /\ color (plug t p) = BLACK.
Proof.
  intros Hc; revert t; induction Hc; intros t Ht Hb; simpl.
  - eauto.
  - apply IHHc; [constructor; auto | reflexivity].
  - apply IHHc; [constructor; auto | reflexivity].
  - apply IHHc; [constructor; auto | discriminate].
  - apply IHHc; [constructor; auto | discriminate].
Qed.

(** every position of a red-black tree with a black root has a context *)
Lemma rb_decompose p t n :
  is_rb (plug t p) n -> color (plug t p) = BLACK ->
  exists m b, is_rb t m /\ ctx p m b /\ (b = true -> color t = BLACK).
Proof.
  revert t n; induction p as [|f p IH]; intros t n Ht Hc; simpl in *.
  - exists n, true. split; [|split]; auto. constructor.
  - destruct (IH (fill f t) n Ht Hc) as (m & b & Hf & Hp & Hb).
    destruct f as [c i v s|c i v s]; destruct c; simpl in *.
    + apply is_rb_black_inv in Hf as (m' & -> & Hl & Hr).
      exists m', false. split; [|split]; auto; [|discriminate]. econstructor; eauto.
    + apply is_rb_red_inv in Hf as (Hl & Hr & Hlc & Hrc).
      destruct b; [specialize (Hb eq_refl); discriminate|].
      exists m, true. split; [|split]; auto. constructor; auto.
    + apply is_rb_black_inv in Hf as (m' & -> & Hl & Hr).
      exists m', false. split; [|split]; auto; [|discriminate]. econstructor; eauto.
    + apply is_rb_red_inv in Hf as (Hl & Hr & Hlc & Hrc).
      destruct b; [specialize (Hb eq_refl); discriminate|].
      exists m, true. split; [|split]; auto. constructor; auto.
Qed.

(** ** The insertion fixup on abstract trees *)

Ltac app_eq := simpl; rewrite <- ?app_assoc; simpl; rewrite <- ?app_assoc; simpl;
  rewrite <- ?app_assoc; reflexivity.

Lemma ins_fix_nodes k t p t' :
  (length p <= k)%nat -> ins_fix t p = Some t' ->
  idl t' = idl (plug t p) /\ inorder t' = inorder (plug t p).
Proof.
  revert t p t'; induction k as [|k IH]; intros t p t' Hlen Hf.
  - destruct p; [|simpl in Hlen; lia].
    destruct t as [|cc i v l r]; simpl in Hf; [discriminate|].
    destruct (bool_decide (cc = RED)); [|discriminate]. injection Hf as <-. auto.
  - destruct p as [|fp p1];
      destruct t as [|cc i v l r]; simpl in Hf; try discriminate;
      destruct (bool_decide (cc = RED)); try discriminate;
      [injection Hf as <-; auto|].
    destruct (bool_decide (frame_color fp = BLACK)); [injection Hf as <-; auto|].
    destruct p1 as [|[gc gi gv u|gc gi gv u] p2]; [discriminate| |].
    + simpl in Hlen. destruct (is_red u).
      * apply IH in Hf; [|lia]. destruct Hf as [-> ->].
        cbn [plug fill]; split; [apply idl_plug | apply inorder_plug]; simpl;
          rewrite ?idl_recolor, ?inorder_recolor; destruct fp; app_eq.
      * injection Hf as <-.
        cbn [plug fill]; split; [apply idl_plug | apply inorder_plug];
          rewrite ?idl_rotr, ?inorder_rotr; simpl; destruct fp; simpl;
          rewrite ?idl_rotl, ?inorder_rotl; app_eq.
    + simpl in Hlen. destruct (is_red u).
      * apply IH in Hf; [|lia]. destruct Hf as [-> ->].
        cbn [plug fill]; split; [apply idl_plug | apply inorder_plug]; simpl;
          rewrite ?idl_recolor, ?inorder_recolor; destruct fp; app_eq.
      * injection Hf as <-.
        cbn [plug fill]; split; [apply idl_plug | apply inorder_plug];
          rewrite ?idl_rotl, ?inorder_rotl; simpl; destruct fp; simpl;
          rewrite ?idl_rotr, ?inorder_rotr; app_eq.
Qed.

Lemma ins_fix_rb k p t n b :
  (length p <= k)%nat -> is_rb t n -> color t = RED -> ctx p n b ->
  exists t', ins_fix t p = Some t' /\ exists m, is_rb t' m /\ color t' = BLACK.
Proof.
  revert p t n b; induction k as [|k IH]; intros p t n b Hlen Ht Htc Hctx;
    (destruct t as [|cc i v l r]; [discriminate|]); simpl in Htc; subst cc;
    pose proof Ht as Ht'; apply is_rb_red_inv in Ht' as (Hl & Hr & Hlc & Hrc).
  - destruct p; [|simpl in Hlen; lia].
    eexists. split; [reflexivity|]. eexists; split; [constructor; eauto|reflexivity].
  - destruct p as [|fp p1].
    { eexists. split; [reflexivity|]. eexists; split; [constructor; eauto|reflexivity]. }
    destruct (ctx_cons_inv _ _ _ _ Hctx) as [(Hfc & -> & Hs & b' & Hp1)
                                            | (Hfc & -> & Hs & Hsc & Hp1)].
    + (* the parent is black *)
      exists (plug (Node RED i v l r) (fp :: p1)). split.
      { simpl. rewrite Hfc. reflexivity. }
      eapply rb_compose; eauto. discriminate.
    + (* the parent is red: there is a black grandparent *)
      destruct p1 as [|g p2]; [apply ctx_nil_inv in Hp1; discriminate|].
      destruct (ctx_cons_inv _ _ _ _ Hp1) as [(Hgc & _ & Hu & b2 & Hp2)
                                             | (_ & Habs & _)]; [|discriminate].
      simpl in Hlen.
      destruct fp as [pc pi pv s|pc pi pv s], g as [gc gi gv u|gc gi gv u];
        simpl in Hfc, Hgc, Hs, Hsc, Hu; subst pc gc;
        destruct (is_red u) eqn:Hur.
      * (* case 2 *)
        destruct u as [|[] ui uv ul ur]; try discriminate.
        apply is_rb_red_inv in Hu as (Hul & Hur' & Hulc & Hurc).
        destruct (IH p2 (Node RED gi gv (Node BLACK pi pv (Node RED i v l r) s)
                                  (Node BLACK ui uv ul ur)) (S n) b2)
          as (t' & Hf & Hrb); auto; [lia|repeat constructor; auto|].
        exists t'. split; auto.
      * (* case 3 *)
        pose proof (is_red_false _ Hur) as Huc.
        eexists. split; [simpl; rewrite Hur; reflexivity|].
        apply (rb_compose p2 (S n) b2); [exact Hp2| |intros; reflexivity].
        simpl; repeat constructor; auto.
      * destruct u as [|[] ui uv ul ur]; try discriminate.
        apply is_rb_red_inv in Hu as (Hul & Hur' & Hulc & Hurc).
        destruct (IH p2 (Node RED gi gv (Node BLACK ui uv ul ur)
                                  (Node BLACK pi pv (Node RED i v l r) s)) (S n) b2)
          as (t' & Hf & Hrb); auto; [lia|repeat constructor; auto|].
        exists t'. split; auto.
      * pose proof (is_red_false _ Hur) as Huc.
        eexists. split; [simpl; rewrite Hur; reflexivity|].
        apply (rb_compose p2 (S n) b2); [exact Hp2| |intros; reflexivity].
        simpl; repeat constructor; auto.
      * destruct u as [|[] ui uv ul ur]; try discriminate.
        apply is_rb_red_inv in Hu as (Hul & Hur' & Hulc & Hurc).
        destruct (IH p2 (Node RED gi gv (Node BLACK pi pv s (Node RED i v l r))
                                  (Node BLACK ui uv ul ur)) (S n) b2)
          as (t' & Hf & Hrb); auto; [lia|repeat constructor; auto|].
        exists t'. split; auto.
      * pose proof (is_red_false _ Hur) as Huc.
        eexists. split; [simpl; rewrite Hur; reflexivity|].
        apply (rb_compose p2 (S n) b2); [exact Hp2| |intros; reflexivity].
        simpl; repeat constructor; auto.
      * destruct u as [|[] ui uv ul ur]; try discriminate.
        apply is_rb_red_inv in Hu as (Hul & Hur' & Hulc & Hurc).
        destruct (IH p2 (Node RED gi gv (Node BLACK ui uv ul ur)
                                  (Node BLACK pi pv s (Node RED i v l r))) (S n) b2)
          as (t' & Hf & Hrb); auto; [lia|repeat constructor; auto|].
        exists t'. split; auto.
      * pose proof (is_red_false _ Hur) as Huc.
        eexists. split; [simpl; rewrite Hur; reflexivity|].
        apply (rb_compose p2 (S n) b2); [exact Hp2| |intros; reflexivity].
        simpl; repeat constructor; auto.
Qed.

(** ** The insertion fixup on the heap *)

Lemma root_test_L t f1 c gi gv u p2 :
  uniq (plug t (f1 :: FL c gi gv u :: p2)) ->
  ptr_eqb (Some gi) (ptr_of (plug t (f1 :: FL c gi gv u :: p2))) = bool_decide (p2 = []).
Proof. intros Hu. apply (root_test c gi gv (fill f1 t) u p2). exact Hu. Qed.

Lemma root_test_R t f1 c gi gv u p2 :
  uniq (plug t (f1 :: FR c gi gv u :: p2)) ->
  ptr_eqb (Some gi) (ptr_of (plug t (f1 :: FR c gi gv u :: p2))) = bool_decide (p2 = []).
Proof. intros Hu. apply (root_test c gi gv u (fill f1 t) p2). exact Hu. Qed.

Lemma ptr_of_plug_top c i v l r c' v' l' r' p :
  ptr_of (plug (Node c i v l r) p) = ptr_of (plug (Node c' i v' l' r') p).
Proof. apply ptr_of_plug. reflexivity. Qed.

Lemma root_sel Y X p a r :
  ptr_of X = Some a -> r = ptr_of (plug Y p) ->
  (if bool_decide (p = []) then Some a else r) = ptr_of (plug X p).
Proof.
  intros HX ->. destruct p as [|f p]; simpl; [auto|].
  apply ptr_of_plug_fill.
Qed.

Ltac idl_eq := cbn [plug fill]; apply idl_plug; simpl;
  rewrite <- ?app_assoc; simpl; rewrite <- ?app_assoc; reflexivity.

Ltac simpl_ids :=
  repeat match goal with
  | H : context [ids (Node _ _ _ _ _)] |- _ => progress simpl in H
  | H : uniq (Node _ _ _ _ _) |- _ => simpl in H; destr_and
  end.

Ltac frame_in H := rewrite ids_plug in H; simpl in H.

Lemma Insert_Adjust_sim fuel : forall cc i v l r p h t' root,
  ins_fix (Node cc i v l r) p = Some t' ->
  rep h None (plug (Node cc i v l r) p) -> uniq (plug (Node cc i v l r) p) ->
  root = ptr_of (plug (Node cc i v l r) p) ->
  (length p < fuel)%nat ->
  wp (Insert_Adjust fuel i root) h
    (fun root' h' => root' = ptr_of t' /\ rep h' None t' /\
       forall k, k ∉ ids (plug (Node cc i v l r) p) -> h' !! k = h !! k).
Proof.
  induction fuel as [|fuel IH]; intros cc i v l r p h t' root Hf Hrep Hu Hroot Hlen; [lia|].
  cbn [Insert_Adjust].
  destruct p as [|fp p1].
  - (* cur is the root *)
    destruct cc; simpl in Hf; [discriminate|]. injection Hf as <-. subst root.
    simpl in Hrep, Hu. destruct Hrep as (Hi & Hl & Hr). destr_and.
    repeat wstep. split; [reflexivity|]. split.
    + simpl; rep_tac.
    + intros k Hk. simpl in Hk. unch_tac.
  - destruct cc; [simpl in Hf; discriminate|].
    pose proof Hrep as Hrep0. pose proof Hu as Hu0.
    apply rep_plug in Hrep as (Ht & Hp). apply uniq_plug in Hu as (Hut & Hup & Hd).
    destruct fp as [pc pi pv s|pc pi pv s]; simpl in Ht, Hp, Hut, Hup, Hd;
      destruct Ht as (Hi & Hl & Hr); destruct Hp as (Hpi & Hs & Hp1);
      (destruct pc; [simpl in Hf; injection Hf as <-; repeat wstep; split; [auto|split; [exact Hrep0|auto]]|]);
      (destruct p1 as [|g p2]; [simpl in Hf; discriminate|]);
      destruct g as [gc gi gv u|gc gi gv u]; simpl in Hp1, Hup, Hd, Hlen;
      destruct Hp1 as (Hgi & Hu' & Hp2); destr_and.
    + (* parent is a left child, grand's left *)
      repeat wstep.
      destruct (is_red u) eqn:Hur.
      * (* case 2 *)
        destruct u as [|[] ui uv ul ur]; try discriminate.
        simpl_ids. simpl in Hu', Hf |- *.
        destruct Hu' as (Hui & Hul & Hur'). destr_and.
        repeat wstep.
        eapply wp_mono.
        { apply (IH RED gi gv (Node BLACK pi pv (Node RED i v l r) s) (Node BLACK ui uv ul ur) p2 _ t' root Hf).
          - apply rep_plug; simpl; rep_tac.
          - eapply uniq_idl; [|exact Hu0]. idl_eq.
          - subst root. cbn [plug fill]. apply ptr_of_plug_top.
          - lia. }
        intros root' h' (Hr1 & Hr2 & Hr3). split; [exact Hr1|]. split; [exact Hr2|].
        intros k Hk. rewrite Hr3.
        { frame_in Hk. unch_tac. }
        { erewrite ids_eq_idl; [exact Hk|]. symmetry. idl_eq. }
      * (* case 3 *)
        pose proof (is_red_false _ Hur) as Huc.
        simpl in Hf. rewrite Hur in Hf. injection Hf as <-.
        repeat wstep.
        rewrite ptr_eqb_not_in' by notin_tac. repeat wstep.
        apply wp_bind.
        apply (RightRotate_wp _ p2 RED gi gv BLACK pi pv (Node RED i v l r) s u).
        { apply rep_plug; simpl; rep_tac. }
        { eapply uniq_idl; [|exact Hu0]. idl_eq. }
        intros h' Hrep' Hfr'. repeat wstep.
        split; [|split].
        { subst root. rewrite root_test_L by exact Hu0.
          eapply root_sel; [reflexivity|cbn [plug fill]; reflexivity]. }
        { exact Hrep'. }
        intros k Hk. rewrite Hfr'.
        { frame_in Hk. unch_tac. }
        { erewrite ids_eq_idl; [exact Hk|]. idl_eq. }
      + (* cur is a left child, parent is a right child *)
      repeat wstep.
      rewrite ptr_eqb_not_in' by notin_tac.
      repeat wstep.
      destruct (is_red u) eqn:Hur.
      * (* case 2 *)
        destruct u as [|[] ui uv ul ur]; try discriminate.
        simpl_ids. simpl in Hu', Hf |- *.
        destruct Hu' as (Hui & Hul & Hur'). destr_and.
        repeat wstep.
        eapply wp_mono.
        { apply (IH RED gi gv (Node BLACK ui uv ul ur) (Node BLACK pi pv (Node RED i v l r) s) p2 _ t' root Hf).
          - apply rep_plug; simpl; rep_tac.
          - eapply uniq_idl; [|exact Hu0]. idl_eq.
          - subst root. cbn [plug fill]. apply ptr_of_plug_top.
          - lia. }
        intros root' h' (Hr1 & Hr2 & Hr3). split; [exact Hr1|]. split; [exact Hr2|].
        intros k Hk. rewrite Hr3.
        { frame_in Hk. unch_tac. }
        { erewrite ids_eq_idl; [exact Hk|]. symmetry. idl_eq. }
      * (* case 3 *)
        pose proof (is_red_false _ Hur) as Huc.
        simpl in Hf. rewrite Hur in Hf. injection Hf as <-.
        repeat wstep.
        apply wp_bind.
        apply (RightRotate_wp _ (FR gc gi gv u :: p2) RED pi pv RED i v l r s); [exact Hrep0|exact Hu0|].
        intros h1 Hrep1 Hfr1.
        pose proof Hrep1 as Hrep1'. apply rep_plug in Hrep1' as (Ht1 & Hp1'). simpl in Ht1, Hp1'. destr_and.
        repeat wstep.
        apply wp_bind.
        apply (LeftRotate_wp _ p2 RED gi gv u BLACK i v l (Node RED pi pv r s)).
        { apply rep_plug; simpl; rep_tac. }
        { eapply uniq_idl; [|exact Hu0]. idl_eq. }
        intros h2 Hrep2 Hfr2. repeat wstep.
        split; [|split].
        { subst root. rewrite root_test_R by exact Hu0.
          eapply root_sel; [reflexivity|cbn [plug fill]; reflexivity]. }
        { exact Hrep2. }
        intros k Hk. rewrite Hfr2.
        2:{ erewrite ids_eq_idl; [exact Hk|]. idl_eq. }
        rewrite lookup_insert_ne by (frame_in Hk; neq_tac).
        rewrite lookup_insert_ne by (frame_in Hk; neq_tac).
        apply Hfr1. exact Hk.
    + (* cur is a right child, parent is a left child *)
      repeat wstep.
      destruct (is_red u) eqn:Hur.
      * (* case 2 *)
        destruct u as [|[] ui uv ul ur]; try discriminate.
        simpl_ids. simpl in Hu', Hf |- *.
        destruct Hu' as (Hui & Hul & Hur'). destr_and.
        repeat wstep.
        eapply wp_mono.
        { apply (IH RED gi gv (Node BLACK pi pv s (Node RED i v l r)) (Node BLACK ui uv ul ur) p2 _ t' root Hf).
          - apply rep_plug; simpl; rep_tac.
          - eapply uniq_idl; [|exact Hu0]. idl_eq.
          - subst root. cbn [plug fill]. apply ptr_of_plug_top.
          - lia. }
        intros root' h' (Hr1 & Hr2 & Hr3). split; [exact Hr1|]. split; [exact Hr2|].
        intros k Hk. rewrite Hr3.
        { frame_in Hk. unch_tac. }
        { erewrite ids_eq_idl; [exact Hk|]. symmetry. idl_eq. }
      * (* case 3 *)
        pose proof (is_red_false _ Hur) as Huc.
        simpl in Hf. rewrite Hur in Hf. injection Hf as <-.
        repeat wstep.
        apply wp_bind.
        apply (LeftRotate_wp _ (FL gc gi gv u :: p2) RED pi pv s RED i v l r); [exact Hrep0|exact Hu0|].
        intros h1 Hrep1 Hfr1.
        pose proof Hrep1 as Hrep1'. apply rep_plug in Hrep1' as (Ht1 & Hp1'). simpl in Ht1, Hp1'. destr_and.
        repeat wstep.
        apply wp_bind.
        apply (RightRotate_wp _ p2 RED gi gv BLACK i v (Node RED pi pv s l) r u).
        { apply rep_plug; simpl; rep_tac. }
        { eapply uniq_idl; [|exact Hu0]. idl_eq. }
        intros h2 Hrep2 Hfr2. repeat wstep.
        split; [|split].
        { subst root. rewrite root_test_L by exact Hu0.
          eapply root_sel; [reflexivity|cbn [plug fill]; reflexivity]. }
        { exact Hrep2. }
        intros k Hk. rewrite Hfr2.
        2:{ erewrite ids_eq_idl; [exact Hk|]. idl_eq. }
        rewrite lookup_insert_ne by (frame_in Hk; neq_tac).
        rewrite lookup_insert_ne by (frame_in Hk; neq_tac).
        apply Hfr1. exact Hk.
    + (* cur is a right child, parent is a right child *)
      repeat wstep.
      rewrite ptr_eqb_not_in' by notin_tac.
      repeat wstep.
      destruct (is_red u) eqn:Hur.
      * (* case 2 *)
        destruct u as [|[] ui uv ul ur]; try discriminate.
        simpl_ids. simpl in Hu', Hf |- *.
        destruct Hu' as (Hui & Hul & Hur'). destr_and.
        repeat wstep.
        eapply wp_mono.
        { apply (IH RED gi gv (Node BLACK ui uv ul ur) (Node BLACK pi pv s (Node RED i v l r)) p2 _ t' root Hf).
          - apply rep_plug; simpl; rep_tac.
          - eapply uniq_idl; [|exact Hu0]. idl_eq.
          - subst root. cbn [plug fill]. apply ptr_of_plug_top.
          - lia. }
        intros root' h' (Hr1 & Hr2 & Hr3). split; [exact Hr1|]. split; [exact Hr2|].
        intros k Hk. rewrite Hr3.
        { frame_in Hk. unch_tac. }
        { erewrite ids_eq_idl; [exact Hk|]. symmetry. idl_eq. }
      * (* case 3 *)
        pose proof (is_red_false _ Hur) as Huc.
        simpl in Hf. rewrite Hur in Hf. injection Hf as <-.
        repeat wstep.
        rewrite ptr_eqb_not_in' by notin_tac. repeat wstep.
        apply wp_bind.
        apply (LeftRotate_wp _ p2 RED gi gv u BLACK pi pv s (Node RED i v l r)).
        { apply rep_plug; simpl; rep_tac. }
        { eapply uniq_idl; [|exact Hu0]. idl_eq. }
        intros h2 Hrep2 Hfr2. repeat wstep.
        split; [|split].
        { subst root. rewrite root_test_R by exact Hu0.
          eapply root_sel; [reflexivity|cbn [plug fill]; reflexivity]. }
        { exact Hrep2. }
        intros k Hk. rewrite Hfr2.
        { frame_in Hk. unch_tac. }
        { erewrite ids_eq_idl; [exact Hk|]. idl_eq. }
Qed.

(** ** The descents of Search, Insert and Remove *)

Lemma Search_loop_sim fuel value t p h par :
  rep h par t -> (height t < fuel)%nat ->
  Search_loop fuel (ptr_of t) value h = Some (ptr_of (fst (search_z value t p)), h).
Proof.
  revert fuel p par; induction t as [|c i v l IHl r IHr]; intros fuel p par Hr Hf;
    (destruct fuel as [|fuel]; [simpl in Hf; lia|]); simpl; [reflexivity|].
  destruct Hr as (Hi & Hl & Hr'). simpl in Hf.
  unfold get_value, get_left, get_right, load, bind, ret. rewrite Hi. simpl.
  destruct (Z.eqb value v); [reflexivity|].
  destruct (Z.ltb value v); rewrite Hi; simpl; [eapply IHl | eapply IHr]; eauto; lia.
Qed.

Lemma Insert_loop_sim AD fuel value t p h par :
  rep h par t -> (height t < fuel)%nat ->
  Insert_loop AD fuel value (parent_of p) (ptr_of t) h =
    Some (match ins_z AD value t p with Dup => None | At p' => Some (parent_of p') end, h).
Proof.
  revert fuel p par; induction t as [|c i v l IHl r IHr]; intros fuel p par Hr Hf;
    (destruct fuel as [|fuel]; [simpl in Hf; lia|]); simpl; [reflexivity|].
  destruct Hr as (Hi & Hl & Hr'). simpl in Hf.
  unfold get_value, get_left, get_right, load, bind, ret. rewrite Hi. simpl.
  destruct (negb AD && Z.eqb value v); [reflexivity|].
  destruct (Z.leb value v); rewrite Hi; simpl.
  - apply (IHl fuel (FL c i v r :: p) (Some i)); auto; lia.
  - apply (IHr fuel (FR c i v l :: p) (Some i)); auto; lia.
Qed.

Lemma min_loop_sim fuel c i v l r p h par :
  rep h par (Node c i v l r) -> (height (Node c i v l r) < fuel)%nat ->
  exists m, ptr_of (fst (leftmost (Node c i v l r) p)) = Some m /\ min_loop fuel i h = Some (m, h).
Proof.
  revert c i v r fuel p par; induction l as [|cl il vl ll IHl lr _]; intros c i v r fuel p par Hr Hf;
    (destruct fuel as [|fuel]; [simpl in Hf; lia|]);
    destruct Hr as (Hi & Hl & Hr'); simpl; unfold get_left, load, bind, ret; rewrite Hi; simpl.
  - eauto.
  - apply (IHl cl il vl lr fuel (FL c i v r :: p) (Some i)); [exact Hl|simpl in *; lia].
Qed.

Lemma search_z_plug value t p x q :
  search_z value t p = (x, q) ->
  plug x q = plug t p /\ exists q0, q = q0 ++ p /\ (length q0 <= height t)%nat.
Proof.
  revert p; induction t as [|c i v l IHl r IHr]; intros p; simpl.
  - intros [= <- <-]. split; [reflexivity|]. exists []. simpl. split; [reflexivity|lia].
  - destruct (Z.eqb value v).
    { intros [= <- <-]. split; [reflexivity|]. exists []. simpl. split; [reflexivity|lia]. }
    destruct (Z.ltb value v); intros Hs.
    + apply IHl in Hs as (Hp & q0 & -> & Hq). split; [exact Hp|].
      exists (q0 ++ [FL c i v r]). rewrite <- app_assoc. split; [reflexivity|].
      rewrite length_app. simpl. lia.
    + apply IHr in Hs as (Hp & q0 & -> & Hq). split; [exact Hp|].
      exists (q0 ++ [FR c i v l]). rewrite <- app_assoc. split; [reflexivity|].
      rewrite length_app. simpl. lia.
Qed.

Lemma ins_z_plug AD value t p q :
  ins_z AD value t p = At q ->
  plug Leaf q = plug t p /\
  exists q0, q = q0 ++ p /\ (length q0 <= height t)%nat /\ (t <> Leaf -> q0 <> []).
Proof.
  revert p; induction t as [|c i v l IHl r IHr]; intros p; simpl.
  - intros [= <-]. split; [reflexivity|]. exists []. simpl. repeat split; [lia|congruence].
  - destruct (negb AD && Z.eqb value v); [discriminate|].
    destruct (Z.leb value v); intros Hs.
    + apply IHl in Hs as (Hp & q0 & -> & Hq & _). split; [exact Hp|].
      exists (q0 ++ [FL c i v r]). rewrite <- app_assoc. split; [reflexivity|].
      rewrite length_app. simpl. split; [lia|]. intros _. destruct q0; discriminate.
    + apply IHr in Hs as (Hp & q0 & -> & Hq & _). split; [exact Hp|].
      exists (q0 ++ [FR c i v l]). rewrite <- app_assoc. split; [reflexivity|].
      rewrite length_app. simpl. split; [lia|]. intros _. destruct q0; discriminate.
Qed.

(** the new node becomes the left child exactly when its value is at most
    the parent's *)
Lemma ins_z_last AD value t p f q :
  ins_z AD value t p = At (f :: q) -> (length p < length (f :: q))%nat ->
  match f with
  | FL _ _ v _ => (value <=? v) = true
  | FR _ _ v _ => (value <=? v) = false
  end.
Proof.
  revert p; induction t as [|c i v l IHl r IHr]; intros p; simpl.
  - intros [= Hp] Hlen. subst. simpl in *. lia.
  - destruct (negb AD && Z.eqb value v); [discriminate|].
    destruct (Z.leb value v) eqn:E; intros Hs Hlen.
    + destruct l as [|c1 i1 v1 l1 r1]; [simpl in Hs; injection Hs as <- <-; exact E|].
      pose proof Hs as Hs'. apply ins_z_plug in Hs' as (_ & q0 & Hq & _ & Hne).
      apply (IHl _ Hs). rewrite Hq, length_app. simpl. specialize (Hne ltac:(discriminate)).
      destruct q0; [congruence|simpl; lia].
    + destruct r as [|c1 i1 v1 l1 r1]; [simpl in Hs; injection Hs as <- <-; exact E|].
      pose proof Hs as Hs'. apply ins_z_plug in Hs' as (_ & q0 & Hq & _ & Hne).
      apply (IHr _ Hs). rewrite Hq, length_app. simpl. specialize (Hne ltac:(discriminate)).
      destruct q0; [congruence|simpl; lia].
Qed.

Lemma leftmost_plug t p x q :
  leftmost t p = (x, q) ->
  plug x q = plug t p /\ exists q0, q = q0 ++ p /\ (length q0 <= height t)%nat.
Proof.
  revert p; induction t as [|c i v l IHl r IHr]; intros p; simpl.
  - intros [= <- <-]. split; [reflexivity|]. exists []. simpl. split; [reflexivity|lia].
  - destruct l as [|cl il vl ll lr].
    + intros [= <- <-]. split; [reflexivity|]. exists []. simpl. split; [reflexivity|lia].
    + intros Hs. apply IHl in Hs as (Hp & q0 & -> & Hq). split; [exact Hp|].
      exists (q0 ++ [FL c i v r]). rewrite <- app_assoc. split; [reflexivity|].
      rewrite length_app. simpl in *. lia.
Qed.

Lemma leftmost_node c i v l r p :
  exists mc mi mv mr, fst (leftmost (Node c i v l r) p) = Node mc mi mv Leaf mr.
Proof.
  revert c i v r p; induction l as [|cl il vl ll IHl lr _]; intros c i v r p; simpl; eauto.
Qed.

(** ** Sizes *)

Lemma size_ids t : uniq t -> size (ids t) = count t.
Proof.
  induction t as [|c i v l IHl r IHr]; simpl; [intros _; exact (size_empty (C:=gset ptr))|].
  intros (Hil & Hir & Hd & Hl & Hr).
  rewrite !size_union, size_singleton, IHl, IHr by set_solver. lia.
Qed.

Lemma ids_dom h par t : rep h par t -> ids t ⊆ dom h.
Proof.
  intros Hr j Hj. apply elem_of_dom. eapply rep_dom; eauto.
Qed.

Lemma count_le_size h par t : rep h par t -> uniq t -> (count t <= size h)%nat.
Proof.
  intros Hr Hu. rewrite <- size_ids by exact Hu. rewrite <- size_dom.
  apply subseteq_size. eapply ids_dom; eauto.
Qed.

Lemma height_le_count t : (height t <= count t)%nat.
Proof. induction t; simpl; lia. Qed.

(** ** Order *)

Lemma ord_trans AD x y z : ord AD x y -> ord AD y z -> ord AD x z.
Proof. unfold ord; destruct AD; lia. Qed.

Lemma ord_le AD x y : ord AD x y -> x <= y.
Proof. unfold ord; destruct AD; lia. Qed.

Lemma sorted_node AD c i v l r :
  StronglySorted (ord AD) (inorder (Node c i v l r)) <->
  StronglySorted (ord AD) (inorder l) /\ StronglySorted (ord AD) (inorder r) /\
  (forall y, y ∈ inorder l -> ord AD y v) /\ (forall y, y ∈ inorder r -> ord AD v y).
Proof.
  simpl. rewrite StronglySorted_app, StronglySorted_cons, Forall_forall.
  split.
  - intros (Hlr & Hl & Hv & Hr). split; [exact Hl|]. split; [exact Hr|]. split; [|exact Hv].
    intros y Hy. apply Hlr; [exact Hy|left].
  - intros (Hl & Hr & Hyl & Hyr). split; [|split; [exact Hl|split; [exact Hyr|exact Hr]]].
    intros x1 x2 H1 H2. apply elem_of_cons in H2 as [->|H2]; [auto|].
    eapply ord_trans; eauto.
Qed.

Lemma sorted_bst AD t : StronglySorted (ord AD) (inorder t) -> bst_order AD t.
Proof.
  induction t as [|c i v l IHl r IHr]; simpl; [auto|].
  intros Hs. apply (sorted_node AD c i v l r) in Hs as (Hl & Hr & Hyl & Hyr).
  split; [|split; [|split; auto]]; apply Forall_forall.
  - intros y Hy. specialize (Hyl y Hy). unfold ord in Hyl. destruct AD; exact Hyl.
  - intros y Hy. apply (ord_le AD). auto.
Qed.

Lemma ins_z_Dup AD value t p :
  ins_z AD value t p = Dup -> AD = false /\ value ∈ inorder t.
Proof.
  revert p; induction t as [|c i v l IHl r IHr]; intros p; simpl; [discriminate|].
  destruct (negb AD && Z.eqb value v) eqn:E.
  - intros _. apply andb_true_iff in E as (HA & Hv). apply negb_true_iff in HA.
    apply Z.eqb_eq in Hv. subst. split; [reflexivity|]. apply elem_of_app. right. left.
  - destruct (Z.leb value v); intros Hd.
    + apply IHl in Hd as (HA & Hin). split; [exact HA|]. apply elem_of_app. left. exact Hin.
    + apply IHr in Hd as (HA & Hin). split; [exact HA|]. apply elem_of_app. right. right. exact Hin.
Qed.

(** the place where Insert attaches the new node splits the in-order
    sequence into the values before and after the new value *)
Lemma ins_z_sorted AD value t p q :
  StronglySorted (ord AD) (inorder t) -> ins_z AD value t p = At q ->
  exists L R q0, q = q0 ++ p /\ inorder t = L ++ R /\
    (forall x, inorder (plug x q0) = L ++ inorder x ++ R) /\
    (forall y, y ∈ L -> ord AD y value) /\ (forall y, y ∈ R -> ord AD value y).
Proof.
  revert p; induction t as [|c i v l IHl r IHr]; intros p Hs; simpl.
  - intros [= <-]. exists [], [], []. simpl. split; [reflexivity|]. split; [reflexivity|].
    split; [intros x; rewrite app_nil_r; reflexivity|]. split; intros y Hy; inversion Hy.
  - apply (sorted_node AD c i v l r) in Hs as (Hl & Hr & Hyl & Hyr).
    destruct (negb AD && Z.eqb value v) eqn:E; [discriminate|].
    destruct (Z.leb value v) eqn:E2; intros Hz.
    + assert (Hv : ord AD value v).
      { unfold ord. apply Z.leb_le in E2. destruct AD; simpl in E; [lia|].
        apply Z.eqb_neq in E. lia. }
      apply IHl in Hz as (L & R & q0 & -> & Hi & Hx & HL & HR); [|exact Hl].
      exists L, (R ++ v :: inorder r), (q0 ++ [FL c i v r]).
      rewrite <- app_assoc. split; [reflexivity|]. split; [rewrite Hi, <- app_assoc; reflexivity|].
      split; [|split; [exact HL|]].
      * intros x. rewrite plug_app. simpl. rewrite Hx, <- !app_assoc. reflexivity.
      * intros y Hy. apply elem_of_app in Hy as [Hy|Hy]; [auto|].
        apply elem_of_cons in Hy as [->|Hy]; [exact Hv|]. eapply ord_trans; eauto.
    + assert (Hv : ord AD v value).
      { unfold ord. apply Z.leb_gt in E2. destruct AD; lia. }
      apply IHr in Hz as (L & R & q0 & -> & Hi & Hx & HL & HR); [|exact Hr].
      exists (inorder l ++ v :: L), R, (q0 ++ [FR c i v l]).
      rewrite <- app_assoc. split; [reflexivity|]. split; [rewrite Hi, <- app_assoc; reflexivity|].
      split; [|split; [|exact HR]].
      * intros x. rewrite plug_app. simpl. rewrite Hx, <- !app_assoc. reflexivity.
      * intros y Hy. apply elem_of_app in Hy as [Hy|Hy]; [eapply ord_trans; eauto|].
        apply elem_of_cons in Hy as [->|Hy]; [exact Hv|]. auto.
Qed.

(** ** Insert *)

Lemma wp_eq {A} (m : M A) h a h' (Q : A -> heap -> Prop) :
  m h = Some (a, h') -> Q a h' -> wp m h Q.
Proof. intros Hm HQ. exists a, h'. auto. Qed.

Lemma fresh_notin h par t : rep h par t -> fresh (dom h) ∉ ids t.
Proof.
  intros Hr Hin. apply (is_fresh (dom h)). apply elem_of_dom. eapply rep_dom; eauto.
Qed.

Lemma fresh_notin_path h x p : rep_path h x p -> fresh (dom h) ∉ ids_path p.
Proof.
  intros Hr Hin. apply (is_fresh (dom h)). apply elem_of_dom. eapply rep_path_dom; eauto.
Qed.

Lemma fresh_lookup (h : heap) : h !! fresh (dom h) = None.
Proof. apply not_elem_of_dom. apply is_fresh. Qed.

Lemma Insert_fuel_sim AD fuel h root t value :
  tree_at h root t -> (exists n, is_rb t n) -> color t = BLACK -> (height t < fuel)%nat ->
  wp (Insert_fuel AD fuel root value) h (fun res h' =>
    exists t', ains AD (fresh (dom h)) value t = Some (res.1, t') /\ tree_at h' res.2 t' /\
      (res.1 = false -> h' = h) /\
      (forall k, k ∉ ids t -> k <> fresh (dom h) -> h' !! k = h !! k)).
Proof.
  intros (Hroot & Hrep & Hu) (n & Hrb) Hc Hfuel. subst root.
  destruct t as [|c i v l r]; cbn [Insert_fuel ptr_of].
  - repeat wstep. eexists. split; [reflexivity|]. split; [|split; [discriminate|]].
    + split; [reflexivity|]. split; [|simpl; set_solver]. simpl.
      split; [apply lookup_insert_eq|auto].
    + intros k _ Hk. rewrite lookup_insert_ne by congruence. reflexivity.
  - pose proof Hrep as Hrep'. destruct Hrep' as (Hi & Hl & Hr).
    repeat wstep. apply wp_bind.
    eapply wp_eq; [apply (Insert_loop_sim AD fuel value (Node c i v l r) [] h None Hrep Hfuel)|].
    destruct (ins_z AD value (Node c i v l r) []) as [|q] eqn:Hz.
    + repeat wstep. eexists. split; [unfold ains; rewrite Hz; reflexivity|]. split; [|split; auto].
      split; [reflexivity|]. split; assumption.
    + pose proof Hz as Hz'. apply ins_z_plug in Hz' as (Hpl & q0 & Hq & Hlen & Hne).
      rewrite app_nil_r in Hq. subst q0.
      change (plug (Node c i v l r) []) with (Node c i v l r) in Hpl.
      destruct q as [|f q']; [specialize (Hne ltac:(discriminate)); congruence|].
      pose proof (ins_z_last AD value _ _ _ _ Hz ltac:(simpl; lia)) as Hlast.
      set (nid := fresh (dom h)).
      assert (Hnid : nid ∉ ids_path (f :: q')).
      { pose proof (fresh_notin h None _ Hrep) as Hf. rewrite <- Hpl, ids_plug in Hf.
        set_solver. }
      assert (Hnone : h !! nid = None) by apply fresh_lookup.
      (* the new node's place *)
      pose proof Hrep as Hrep2. rewrite <- Hpl in Hrep2. apply rep_plug in Hrep2 as (_ & Hp).
      pose proof Hu as Hu2. rewrite <- Hpl in Hu2. apply uniq_plug in Hu2 as (_ & Hup & _).
      assert (Hrb' : exists m b, is_rb Leaf m /\ ctx (f :: q') m b /\ (b = true -> color Leaf = BLACK)).
      { apply (rb_decompose (f :: q') Leaf n); rewrite Hpl; assumption. }
      destruct Hrb' as (m & b & Hm & Hctx & _). inversion Hm; subst m.
      destruct (ins_fix_rb (length (f :: q')) (f :: q') (Node RED nid value Leaf Leaf) 0 b)
        as (t' & Hfix & _); [lia|repeat constructor|reflexivity|exact Hctx|].
      destruct f as [fc fi fv fs|fc fi fv fs]; simpl in Hp, Hnid, Hlast, Hup;
        destruct Hp as (Hfi & Hfs & Hq'); destr_and;
        cbn [parent_of frame_id]; repeat wstep; rewrite Hlast; repeat wstep.
      all: apply wp_bind.
      all: eapply wp_mono; [apply (Insert_Adjust_sim fuel RED nid value Leaf Leaf _ _ t' _ Hfix)|].
      all: try (apply rep_plug; simpl; rep_tac).
      all: try (apply uniq_plug; simpl; split; [set_solver|split; [repeat split; assumption|set_solver]]).
      all: try (change (Some i) with (ptr_of (Node c i v l r)); rewrite <- Hpl; apply ptr_of_plug_cons).
      all: try (eapply Nat.le_lt_trans; [exact Hlen|exact Hfuel]).
      all: intros root' h' (Hr1 & Hr2 & Hr3); repeat wstep; exists t'.
      all: unfold ains; rewrite Hz, Hfix.
      all: split; [reflexivity|]; split; [|split; [discriminate|]].
      all: try (split; [exact Hr1|]; split; [exact Hr2|];
        eapply uniq_idl; [symmetry; apply (ins_fix_nodes _ _ _ _ (le_n _) Hfix)|];
        apply uniq_plug; simpl; split; [set_solver|split; [repeat split; assumption|set_solver]]).
      all: intros k Hk Hk'; rewrite Hr3; [|rewrite ids_plug, <- Hpl, ids_plug in *; set_solver].
      all: rewrite <- Hpl, ids_plug in Hk; simpl in Hk; unch_tac.
Qed.

Lemma sorted_insert AD L R value :
  StronglySorted (ord AD) (L ++ R) ->
  (forall y, y ∈ L -> ord AD y value) -> (forall y, y ∈ R -> ord AD value y) ->
  StronglySorted (ord AD) (L ++ value :: R).
Proof.
  intros Hs HL HR. apply StronglySorted_app in Hs as (Hx & HsL & HsR).
  apply StronglySorted_app_2; [|exact HsL|].
  - intros x1 x2 H1 H2. apply elem_of_cons in H2 as [->|H2]; auto.
  - apply StronglySorted_cons. split; [apply Forall_forall; auto|exact HsR].
Qed.

Lemma ains_ok AD nid value t n :
  is_rb t n -> color t = BLACK -> uniq t -> nid ∉ ids t ->
  StronglySorted (ord AD) (inorder t) ->
  exists b t', ains AD nid value t = Some (b, t') /\
    (exists m, is_rb t' m) /\ color t' = BLACK /\ uniq t' /\
    StronglySorted (ord AD) (inorder t') /\
    (b = false -> t' = t /\ AD = false /\ value ∈ inorder t) /\
    (b = true -> ids t' = {[nid]} ∪ ids t /\
       exists L R, inorder t = L ++ R /\ inorder t' = L ++ value :: R /\
       (AD = false -> value ∉ inorder t)).
Proof.
  intros Hrb Hc Hu Hnid Hs. destruct t as [|c i v l r].
  - exists true, (Node BLACK nid value Leaf Leaf). simpl.
    split; [reflexivity|]. split; [exists 1%nat; repeat constructor|].
    split; [reflexivity|]. split; [repeat split; set_solver|].
    split; [repeat constructor|]. split; [discriminate|].
    intros _. split; [set_solver|]. exists [], []. simpl. split; [reflexivity|].
    split; [reflexivity|]. intros _ Hin. inversion Hin.
  - unfold ains. destruct (ins_z AD value (Node c i v l r) []) as [|q] eqn:Hz.
    + exists false, (Node c i v l r). split; [reflexivity|].
      split; [eauto|]. split; [exact Hc|]. split; [exact Hu|]. split; [exact Hs|].
      split; [|discriminate]. intros _. apply ins_z_Dup in Hz as (HA & Hin). auto.
    + pose proof Hz as Hz'. apply ins_z_plug in Hz' as (Hpl & q0 & Hq & Hlen & Hne).
      change (plug (Node c i v l r) []) with (Node c i v l r) in Hpl.
      destruct (rb_decompose q Leaf n) as (m & b & Hm & Hctx & _); [rewrite Hpl; exact Hrb|rewrite Hpl; exact Hc|].
      inversion Hm; subst m.
      destruct (ins_fix_rb (length q) q (Node RED nid value Leaf Leaf) 0 b)
        as (t' & Hfix & m' & Hrb' & Hc'); [lia|repeat constructor|reflexivity|exact Hctx|].
      destruct (ins_fix_nodes _ _ _ _ (le_n _) Hfix) as (Hidl & Hin).
      destruct (ins_z_sorted AD value _ _ _ Hs Hz) as (L & R & q1 & Hq1 & HLR & Hx & HL & HR).
      rewrite app_nil_r in Hq1. subst q1.
      assert (Hu' : uniq (plug (Node RED nid value Leaf Leaf) q)).
      { rewrite <- Hpl in Hu, Hnid. rewrite ids_plug in Hnid. apply uniq_plug in Hu as (_ & Hup & _).
        apply uniq_plug. simpl. split; [set_solver|]. split; [exact Hup|set_solver]. }
      rewrite Hfix. exists true, t'. split; [reflexivity|].
      split; [eauto|]. split; [exact Hc'|]. split; [eapply uniq_idl; [symmetry; exact Hidl|exact Hu']|].
      rewrite Hin, Hx.
      split; [cbn [inorder app]; apply sorted_insert; [rewrite <- HLR; exact Hs|exact HL|exact HR]|].
      split; [discriminate|]. intros _. split.
      { rewrite (ids_eq_idl _ _ Hidl), ids_plug, <- Hpl, ids_plug. simpl. set_solver. }
      exists L, R. split; [exact HLR|]. split; [reflexivity|].
      intros -> Hv. rewrite HLR in Hv. apply elem_of_app in Hv as [Hv|Hv].
      * specialize (HL _ Hv). unfold ord in HL. lia.
      * specialize (HR _ Hv). unfold ord in HR. lia.
Qed.

(** ** The deletion fixup on abstract trees *)

Ltac nodes_eq :=
  cbn [plug fill]; split; [apply idl_plug | apply inorder_plug];
  cbn [idl inorder recolor rotr rotl]; rewrite <- ?app_assoc; cbn [app];
  rewrite <- ?app_assoc; cbn [app]; reflexivity.

Lemma rem_fix_L_nodes k t pc pi pv s p1 p' :
  (forall tp p1', k tp = Some p1' ->
     idl (plug tp p1') = idl (plug tp p1) /\ inorder (plug tp p1') = inorder (plug tp p1)) ->
  rem_fix_L k t pc pi pv s p1 = Some p' ->
  idl (plug t p') = idl (plug t (FL pc pi pv s :: p1)) /\
  inorder (plug t p') = inorder (plug t (FL pc pi pv s :: p1)).
Proof.
  intros Hk. unfold rem_fix_L.
  destruct s as [|sc si sv sl sr]; [discriminate|].
  destruct sr as [|[] ri rv srl srr]; destruct sl as [|[] li lv sll slr]; cbn [is_red negb andb];
    cbn [recolor rotr].
  all: try (intros [= <-]; nodes_eq).
  all: destruct (bool_decide (pc = RED)); [intros [= <-]; nodes_eq|].
  all: lazymatch goal with |- context [match ?x with Some _ => _ | None => _ end] =>
         destruct x as [p1'|] eqn:E end; [|discriminate].
  all: intros [= <-]; destruct (Hk _ _ E) as [H1 H2]; cbn [plug fill]; rewrite H1, H2; nodes_eq.
Qed.

Lemma rem_fix_R_nodes k t pc pi pv s p1 p' :
  (forall tp p1', k tp = Some p1' ->
     idl (plug tp p1') = idl (plug tp p1) /\ inorder (plug tp p1') = inorder (plug tp p1)) ->
  rem_fix_R k t pc pi pv s p1 = Some p' ->
  idl (plug t p') = idl (plug t (FR pc pi pv s :: p1)) /\
  inorder (plug t p') = inorder (plug t (FR pc pi pv s :: p1)).
Proof.
  intros Hk. unfold rem_fix_R.
  destruct s as [|sc si sv sl sr]; [discriminate|].
  destruct sr as [|[] ri rv srl srr]; destruct sl as [|[] li lv sll slr]; cbn [is_red negb andb];
    cbn [recolor rotr rotl].
  all: try (intros [= <-]; nodes_eq).
  all: destruct (bool_decide (pc = RED)); [intros [= <-]; nodes_eq|].
  all: lazymatch goal with |- context [match ?x with Some _ => _ | None => _ end] =>
         destruct x as [p1'|] eqn:E end; [|discriminate].
  all: intros [= <-]; destruct (Hk _ _ E) as [H1 H2]; cbn [plug fill]; rewrite H1, H2; nodes_eq.
Qed.

Lemma rem_fix_nodes k t p p' :
  (length p <= k)%nat -> rem_fix t p = Some p' ->
  idl (plug t p') = idl (plug t p) /\ inorder (plug t p') = inorder (plug t p).
Proof.
  revert t p p'; induction k as [|k IH]; intros t p p' Hlen Hf.
  - destruct p; [|simpl in Hlen; lia].
    destruct t as [|[] i v l r]; simpl in Hf; rewrite ?bd_BB, ?bd_RB in Hf; try discriminate.
    injection Hf as <-. auto.
  - destruct t as [|[] i v l r];
      [destruct p; discriminate| |destruct p as [|[] p]; simpl in Hf; rewrite ?bd_RB in Hf; discriminate].
    destruct p as [|[pc pi pv s|pc pi pv s] p1]; simpl in Hf; rewrite ?bd_BB in Hf.
    + injection Hf as <-. auto.
    + destruct (is_red s) eqn:Hs.
      * destruct s as [|sc si sv sl sr]; [discriminate|].
        apply rem_fix_L_nodes in Hf; [|discriminate].
        destruct Hf as [H1 H2]. rewrite H1, H2. nodes_eq.
      * apply rem_fix_L_nodes in Hf; [exact Hf|].
        intros tp p1' E. apply (IH tp p1 p1'); [simpl in Hlen; lia|exact E].
    + destruct (is_red s) eqn:Hs.
      * destruct s as [|sc si sv sl sr]; [discriminate|].
        apply rem_fix_R_nodes in Hf; [|discriminate].
        destruct Hf as [H1 H2]. rewrite H1, H2. nodes_eq.
      * apply rem_fix_R_nodes in Hf; [exact Hf|].
        intros tp p1' E. apply (IH tp p1 p1'); [simpl in Hlen; lia|exact E].
Qed.

Lemma is_rb_recolor_black i v l r m :
  is_rb (Node RED i v l r) m -> is_rb (Node BLACK i v l r) (S m).
Proof. intros H. apply is_rb_red_inv in H as (Hl & Hr & _ & _). constructor; auto. Qed.

Lemma rem_fix_L_ok k t pc pi pv s p1 m :
  is_rb s (S m) ->
  (pc = RED -> color s = BLACK /\ ctx p1 (S m) false) ->
  (pc = BLACK -> color s = BLACK /\ (exists b, ctx p1 (S (S m)) b) /\
     forall i v l r, exists p1', k (Node BLACK i v l r) = Some p1' /\ rem_spec p1' (S m)) ->
  exists p', rem_fix_L k t pc pi pv s p1 = Some p' /\ rem_spec p' m.
Proof.
  unfold rem_spec. intros Hs HR HB.
  assert (Hsc : color s = BLACK) by (destruct pc; [apply HB|apply HR]; reflexivity).
  destruct s as [|sc si sv sl sr]; [inversion Hs|]. simpl in Hsc. subst sc.
  apply is_rb_black_inv in Hs as (m' & [= <-] & Hsl & Hsr).
  unfold rem_fix_L.
  assert (Hup : forall i v s1, is_rb s1 (S m) -> color s1 = BLACK ->
    ctx (FL pc i v s1 :: p1) (S m) (bool_decide (pc = RED))).
  { intros i v s1 H1 Hc1. destruct pc.
    - destruct HB as (_ & (b & Hb) & _); [reflexivity|]. econstructor; eauto.
    - destruct HR as (_ & Hc); [reflexivity|]. constructor; auto. }
  destruct sr as [|[] ri rv srl srr]; destruct sl as [|[] li lv sll slr]; cbn [is_red negb andb];
    cbn [recolor rotr]; cbn [is_red negb andb].
  all: repeat match goal with H : is_rb (Node RED _ _ _ _) _ |- _ =>
         apply is_rb_red_inv in H as (? & ? & ? & ?) end.
  all: try (eexists; split; [reflexivity|]; exists false; split; [|discriminate];
    econstructor; [first [eassumption|constructor; assumption]|apply Hup; [constructor; assumption|reflexivity]]).
  all: destruct pc; cbn [bool_decide decide_rel RBColor_eq_dec]; rewrite ?bd_RR, ?bd_BR.
  all: try (eexists; split; [reflexivity|]; exists false; split; [|discriminate];
    destruct HR as (_ & Hc); [reflexivity|]; econstructor; [constructor; auto|exact Hc]).
  all: destruct HB as (_ & _ & Hk); [reflexivity|].
  all: lazymatch goal with |- context [match _ (Node BLACK ?i ?v ?l ?r) with Some _ => _ | None => _ end] =>
         destruct (Hk i v l r) as (p1' & E & b' & Hc' & _); rewrite E end.
  all: unfold rem_spec.
  all: eexists; split; [reflexivity|]; exists false; split; [|discriminate].
  all: econstructor; [constructor; auto|exact Hc'].
Qed.

Lemma rem_fix_R_ok k t pc pi pv s p1 m :
  is_rb s (S m) ->
  (pc = RED -> color s = BLACK /\ ctx p1 (S m) false) ->
  (pc = BLACK -> color s = BLACK /\ (exists b, ctx p1 (S (S m)) b) /\
     forall i v l r, exists p1', k (Node BLACK i v l r) = Some p1' /\ rem_spec p1' (S m)) ->
  exists p', rem_fix_R k t pc pi pv s p1 = Some p' /\ rem_spec p' m.
Proof.
  unfold rem_spec. intros Hs HR HB.
  assert (Hsc : color s = BLACK) by (destruct pc; [apply HB|apply HR]; reflexivity).
  destruct s as [|sc si sv sl sr]; [inversion Hs|]. simpl in Hsc. subst sc.
  apply is_rb_black_inv in Hs as (m' & [= <-] & Hsl & Hsr).
  unfold rem_fix_R.
  assert (Hup : forall i v s1, is_rb s1 (S m) -> color s1 = BLACK ->
    ctx (FR pc i v s1 :: p1) (S m) (bool_decide (pc = RED))).
  { intros i v s1 H1 Hc1. destruct pc.
    - destruct HB as (_ & (b & Hb) & _); [reflexivity|]. econstructor; eauto.
    - destruct HR as (_ & Hc); [reflexivity|]. constructor; auto. }
  destruct sr as [|[] ri rv srl srr]; destruct sl as [|[] li lv sll slr]; cbn [is_red negb andb];
    cbn [recolor rotl]; cbn [is_red negb andb].
  all: repeat match goal with H : is_rb (Node RED _ _ _ _) _ |- _ =>
         apply is_rb_red_inv in H as (? & ? & ? & ?) end.
  all: try (eexists; split; [reflexivity|]; exists false; split; [|discriminate];
    econstructor; [first [eassumption|constructor; assumption]|apply Hup; [constructor; assumption|reflexivity]]).
  all: destruct pc; cbn [bool_decide decide_rel RBColor_eq_dec]; rewrite ?bd_RR, ?bd_BR.
  all: try (eexists; split; [reflexivity|]; exists false; split; [|discriminate];
    destruct HR as (_ & Hc); [reflexivity|]; econstructor; [constructor; auto|exact Hc]).
  all: destruct HB as (_ & _ & Hk); [reflexivity|].
  all: lazymatch goal with |- context [match _ (Node BLACK ?i ?v ?l ?r) with Some _ => _ | None => _ end] =>
         destruct (Hk i v l r) as (p1' & E & b' & Hc' & _); rewrite E end.
  all: unfold rem_spec.
  all: eexists; split; [reflexivity|]; exists false; split; [|discriminate].
  all: econstructor; [constructor; auto|exact Hc'].
Qed.

Lemma rem_fix_ok k t p m b :
  (length p <= k)%nat -> color t = BLACK -> t <> Leaf -> ctx p (S m) b ->
  exists p', rem_fix t p = Some p' /\ rem_spec p' m.
Proof.
  revert t p m b; induction k as [|k IH]; intros t p m b Hlen Hc Hn Hctx.
  - destruct p; [|simpl in Hlen; lia].
    destruct t as [|[] i v l r]; [congruence| |discriminate].
    exists []. split; [simpl; rewrite ?bd_BB; reflexivity|]. exists true. split; [constructor|auto].
  - destruct t as [|[] i v l r]; [congruence| |discriminate].
    destruct p as [|f p1].
    { exists []. split; [simpl; rewrite ?bd_BB; reflexivity|]. exists true. split; [constructor|auto]. }
    apply ctx_cons_inv in Hctx.
    destruct f as [pc pi pv s|pc pi pv s]; simpl in Hctx, Hlen |- *; rewrite ?bd_BB.
    + destruct (is_red s) eqn:Hs.
      * destruct s as [|sc si sv sl sr]; [discriminate|].
        destruct Hctx as [(-> & _ & Hsrb & b' & Hp1)|(_ & _ & _ & Hsc & _)];
          [|apply is_red_true in Hs; congruence].
        apply is_red_true in Hs. simpl in Hs. subst sc.
        apply is_rb_red_inv in Hsrb as (Hsl & Hsr & Hslc & Hsrc).
        apply rem_fix_L_ok; [exact Hsl| |discriminate].
        intros _. split; [exact Hslc|]. econstructor; eauto.
      * apply rem_fix_L_ok.
        { destruct Hctx as [(_ & _ & H & _)|(_ & _ & H & _)]; exact H. }
        { intros ->. destruct Hctx as [(? & _)|(_ & _ & _ & Hsc & Hp1)]; [discriminate|auto]. }
        { intros ->. destruct Hctx as [(_ & _ & _ & b' & Hp1)|(? & _)]; [|discriminate].
          split; [apply is_red_false; exact Hs|]. split; [eauto|].
          intros i' v' l' r'. apply (IH _ p1 (S m) b'); [lia|reflexivity|discriminate|exact Hp1]. }
    + destruct (is_red s) eqn:Hs.
      * destruct s as [|sc si sv sl sr]; [discriminate|].
        destruct Hctx as [(-> & _ & Hsrb & b' & Hp1)|(_ & _ & _ & Hsc & _)];
          [|apply is_red_true in Hs; congruence].
        apply is_red_true in Hs. simpl in Hs. subst sc.
        apply is_rb_red_inv in Hsrb as (Hsl & Hsr & Hslc & Hsrc).
        apply rem_fix_R_ok; [exact Hsr| |discriminate].
        intros _. split; [exact Hsrc|]. econstructor; eauto.
      * apply rem_fix_R_ok.
        { destruct Hctx as [(_ & _ & H & _)|(_ & _ & H & _)]; exact H. }
        { intros ->. destruct Hctx as [(? & _)|(_ & _ & _ & Hsc & Hp1)]; [discriminate|auto]. }
        { intros ->. destruct Hctx as [(_ & _ & _ & b' & Hp1)|(? & _)]; [|discriminate].
          split; [apply is_red_false; exact Hs|]. split; [eauto|].
          intros i' v' l' r'. apply (IH _ p1 (S m) b'); [lia|reflexivity|discriminate|exact Hp1]. }
Qed.

(** ** The deletion fixup on the heap *)

Lemma root_test_FL t c i v s p :
  uniq (plug t (FL c i v s :: p)) ->
  ptr_eqb (Some i) (ptr_of (plug t (FL c i v s :: p))) = bool_decide (p = []).
Proof. intros Hu. apply (root_test c i v t s p). exact Hu. Qed.

Lemma root_test_FR t c i v s p :
  uniq (plug t (FR c i v s :: p)) ->
  ptr_eqb (Some i) (ptr_of (plug t (FR c i v s :: p))) = bool_decide (p = []).
Proof. intros Hu. apply (root_test c i v s t p). exact Hu. Qed.

Ltac ids_idl_tac Hx := erewrite ids_eq_idl; [exact Hx|]; first [idl_eq | symmetry; idl_eq].

Lemma Remove_tail_L_sim rec k t pc pi pv s p1 h root p' :
  rem_fix_L k t pc pi pv s p1 = Some p' ->
  rep h None (plug t (FL pc pi pv s :: p1)) ->
  uniq (plug t (FL pc pi pv s :: p1)) ->
  root = ptr_of (plug t (FL pc pi pv s :: p1)) ->
  (pc = BLACK -> forall i v l r p1', k (Node BLACK i v l r) = Some p1' ->
     forall h0 root0, rep h0 None (plug (Node BLACK i v l r) p1) ->
     uniq (plug (Node BLACK i v l r) p1) ->
     root0 = ptr_of (plug (Node BLACK i v l r) p1) ->
     wp (rec i root0) h0 (adj_post (Node BLACK i v l r) p1 p1' h0)) ->
  wp (Remove_Adjust_tail_L rec (pi, ptr_of s, root)) h (adj_post t (FL pc pi pv s :: p1) p' h).
Proof.
  intros Hf Hrep Hu Hroot Hk.
  pose proof Hrep as Hrep0. pose proof Hu as Hu0.
  apply rep_plug in Hrep as (Ht & Hp). apply uniq_plug in Hu as (Hut & Hup & Hd).
  simpl in Ht, Hp, Hup, Hd. destruct Hp as (Hpi & Hs & Hp1).
  destruct s as [|sc si sv sl sr]; [discriminate|].
  simpl in Hs. destruct Hs as (Hsi & Hsl & Hsr).
  unfold Remove_Adjust_tail_L, adj_post.
  destruct sr as [|[] ri rv srl srr]; destruct sl as [|[] li lv sll slr];
    simpl in Hsr, Hsl; destr_and; simpl_ids;
    unfold rem_fix_L in Hf; cbn [is_red negb andb recolor rotr] in Hf.
  (* case 4: both cousins black *)
  1,2,4,5: destruct pc; rewrite ?bd_BR, ?bd_RR in Hf;
    [ destruct (k (Node BLACK pi pv t (Node RED si sv _ _))) as [p1'|] eqn:Ek; [|discriminate];
      injection Hf as <-; repeat wstep;
      eapply wp_mono;
      [ apply (Hk eq_refl pi pv t _ p1' Ek);
        [ apply rep_plug; simpl; rep_tac
        | eapply uniq_idl; [|exact Hu0]; idl_eq
        | subst root; cbn [plug fill]; apply ptr_of_plug_top ]
      | intros root' h'' (Hr1 & Hr2 & Hr3); split; [exact Hr1|]; split; [exact Hr2|];
        intros x Hx; pose proof Hx as Hx'; frame_in Hx'; rewrite Hr3 by ids_idl_tac Hx; unch_tac ]
    | injection Hf as <-; repeat wstep; split; [|split];
      [ subst root; cbn [plug fill]; apply ptr_of_plug_top
      | apply rep_plug; simpl; rep_tac
      | intros x Hx; frame_in Hx; unch_tac ] ].
  (* case 3, then case 2 *)
  1,2: injection Hf as <-; repeat wstep;
    match goal with |- context [Node _ _ _ (Node RED _ _ _ _) ?sr] => set (sr0 := sr) end;
    apply (RightRotate_wp _ (FR pc pi pv t :: p1) RED si sv BLACK li lv sll slr sr0);
    [ apply rep_plug; simpl; rep_tac | eapply uniq_idl; [|exact Hu0]; idl_eq | ];
    intros h2 Hrep2 Hfr2; pose proof Hrep2 as Hrep2';
    apply rep_plug in Hrep2' as (Ht2 & Hp2); simpl in Ht2, Hp2; destr_and;
    repeat wstep;
    apply wp_bind;
    apply (LeftRotate_wp _ p1 BLACK pi pv t pc li lv sll (Node BLACK si sv slr sr0));
    [ apply rep_plug; simpl; rep_tac | eapply uniq_idl; [|exact Hu0]; idl_eq | ];
    intros h3 Hrep3 Hfr3; repeat wstep; split; [|split];
    [ subst root; rewrite root_test_FL by exact Hu0;
      cbn [plug fill]; eapply root_sel; reflexivity
    | exact Hrep3
    | intros x Hx; pose proof Hx as Hx'; frame_in Hx';
      rewrite Hfr3 by ids_idl_tac Hx;
      repeat (rewrite lookup_insert_ne by neq_tac);
      rewrite Hfr2 by ids_idl_tac Hx; unch_tac ].
  (* case 2 *)
  all: injection Hf as <-; repeat wstep;
    match goal with |- context [Node _ _ _ ?sl (Node RED _ _ _ _)] => set (sl0 := sl) end;
    apply wp_bind;
    apply (LeftRotate_wp _ p1 BLACK pi pv t pc si sv sl0 (Node BLACK ri rv srl srr));
    [ apply rep_plug; simpl; rep_tac | eapply uniq_idl; [|exact Hu0]; idl_eq | ];
    intros h3 Hrep3 Hfr3; repeat wstep; split; [|split];
    [ subst root; rewrite root_test_FL by exact Hu0;
      cbn [plug fill]; eapply root_sel; reflexivity
    | exact Hrep3
    | intros x Hx; pose proof Hx as Hx'; frame_in Hx';
      rewrite Hfr3 by ids_idl_tac Hx; unch_tac ].
Qed.

Lemma Remove_tail_R_sim rec k t pc pi pv s p1 h root p' :
  rem_fix_R k t pc pi pv s p1 = Some p' ->
  rep h None (plug t (FR pc pi pv s :: p1)) ->
  uniq (plug t (FR pc pi pv s :: p1)) ->
  root = ptr_of (plug t (FR pc pi pv s :: p1)) ->
  (pc = BLACK -> forall i v l r p1', k (Node BLACK i v l r) = Some p1' ->
     forall h0 root0, rep h0 None (plug (Node BLACK i v l r) p1) ->
     uniq (plug (Node BLACK i v l r) p1) ->
     root0 = ptr_of (plug (Node BLACK i v l r) p1) ->
     wp (rec i root0) h0 (adj_post (Node BLACK i v l r) p1 p1' h0)) ->
  wp (Remove_Adjust_tail_R rec (pi, ptr_of s, root)) h (adj_post t (FR pc pi pv s :: p1) p' h).
Proof.
  intros Hf Hrep Hu Hroot Hk.
  pose proof Hrep as Hrep0. pose proof Hu as Hu0.
  apply rep_plug in Hrep as (Ht & Hp). apply uniq_plug in Hu as (Hut & Hup & Hd).
  simpl in Ht, Hp, Hup, Hd. destruct Hp as (Hpi & Hs & Hp1).
  destruct s as [|sc si sv sl sr]; [discriminate|].
  simpl in Hs. destruct Hs as (Hsi & Hsl & Hsr).
  unfold Remove_Adjust_tail_R, adj_post.
  destruct sl as [|[] li lv sll slr]; destruct sr as [|[] ri rv srl srr];
    simpl in Hsr, Hsl; destr_and; simpl_ids;
    unfold rem_fix_R in Hf; cbn [is_red negb andb recolor rotl] in Hf.
  (* case 4: both cousins black *)
  1,2,4,5: destruct pc; rewrite ?bd_BR, ?bd_RR in Hf;
    [ destruct (k (Node BLACK pi pv (Node RED si sv _ _) t)) as [p1'|] eqn:Ek; [|discriminate];
      injection Hf as <-; repeat wstep;
      eapply wp_mono;
      [ apply (Hk eq_refl pi pv _ t p1' Ek);
        [ apply rep_plug; simpl; rep_tac
        | eapply uniq_idl; [|exact Hu0]; idl_eq
        | subst root; cbn [plug fill]; apply ptr_of_plug_top ]
      | intros root' h'' (Hr1 & Hr2 & Hr3); split; [exact Hr1|]; split; [exact Hr2|];
        intros x Hx; pose proof Hx as Hx'; frame_in Hx'; rewrite Hr3 by ids_idl_tac Hx; unch_tac ]
    | injection Hf as <-; repeat wstep; split; [|split];
      [ subst root; cbn [plug fill]; apply ptr_of_plug_top
      | apply rep_plug; simpl; rep_tac
      | intros x Hx; frame_in Hx; unch_tac ] ].
  (* case 3, then case 2 *)
  1,2: injection Hf as <-; repeat wstep;
    match goal with |- context [Node _ _ _ ?sl (Node RED _ _ _ _)] => set (sl0 := sl) end;
    apply (LeftRotate_wp _ (FL pc pi pv t :: p1) RED si sv sl0 BLACK ri rv srl srr);
    [ apply rep_plug; simpl; rep_tac | eapply uniq_idl; [|exact Hu0]; idl_eq | ];
    intros h2 Hrep2 Hfr2; pose proof Hrep2 as Hrep2';
    apply rep_plug in Hrep2' as (Ht2 & Hp2); simpl in Ht2, Hp2; destr_and;
    repeat wstep;
    apply wp_bind;
    apply (RightRotate_wp _ p1 BLACK pi pv pc ri rv (Node BLACK si sv sl0 srl) srr t);
    [ apply rep_plug; simpl; rep_tac | eapply uniq_idl; [|exact Hu0]; idl_eq | ];
    intros h3 Hrep3 Hfr3; repeat wstep; split; [|split];
    [ subst root; rewrite root_test_FR by exact Hu0;
      cbn [plug fill]; eapply root_sel; reflexivity
    | exact Hrep3
    | intros x Hx; pose proof Hx as Hx'; frame_in Hx';
      rewrite Hfr3 by ids_idl_tac Hx;
      repeat (rewrite lookup_insert_ne by neq_tac);
      rewrite Hfr2 by ids_idl_tac Hx; unch_tac ].
  (* case 2 *)
  all: injection Hf as <-; repeat wstep;
    match goal with |- context [Node _ _ _ (Node RED _ _ _ _) ?sr] => set (sr0 := sr) end;
    apply wp_bind;
    apply (RightRotate_wp _ p1 BLACK pi pv pc si sv (Node BLACK li lv sll slr) sr0 t);
    [ apply rep_plug; simpl; rep_tac | eapply uniq_idl; [|exact Hu0]; idl_eq | ];
    intros h3 Hrep3 Hfr3; repeat wstep; split; [|split];
    [ subst root; rewrite root_test_FR by exact Hu0;
      cbn [plug fill]; eapply root_sel; reflexivity
    | exact Hrep3
    | intros x Hx; pose proof Hx as Hx'; frame_in Hx';
      rewrite Hfr3 by ids_idl_tac Hx; unch_tac ].
Qed.

Lemma ptr_eqb_ne i j : i <> j -> ptr_eqb (Some i) (Some j) = false.
Proof. intros Hij. unfold ptr_eqb. apply bool_decide_false. congruence. Qed.

Ltac wstep_st :=
  lazymatch goal with
  | |- wp (bind (ret (_, _, _)) _) _ _ => fail
  | |- wp (ret (_, _, _)) _ _ => fail
  | _ => wstep
  end.

Lemma Remove_Adjust_sim fuel : forall c i v l r p h p' root,
  rem_fix (Node c i v l r) p = Some p' ->
  rep h None (plug (Node c i v l r) p) -> uniq (plug (Node c i v l r) p) ->
  root = ptr_of (plug (Node c i v l r) p) ->
  (length p < fuel)%nat ->
  wp (Remove_Adjust fuel i root) h (adj_post (Node c i v l r) p p' h).
Proof.
  induction fuel as [|fuel IH]; intros c i v l r p h p' root Hf Hrep Hu Hroot Hlen; [lia|].
  cbn [Remove_Adjust].
  destruct p as [|f p1].
  - destruct c; cbn [rem_fix] in Hf; rewrite ?bd_BB, ?bd_RB in Hf; [|discriminate].
    injection Hf as <-. subst root. simpl in Hrep |- *. destruct Hrep as (Hi & Hl & Hr).
    repeat wstep. unfold adj_post. split; [reflexivity|split; [exact (conj Hi (conj Hl Hr))|auto]].
  - destruct c; cbn [rem_fix] in Hf; rewrite ?bd_BB, ?bd_RB in Hf; [|discriminate].
    pose proof Hrep as Hrep0. pose proof Hu as Hu0.
    apply rep_plug in Hrep as (Ht & Hp). apply uniq_plug in Hu as (Hut & Hup & Hd).
    destruct f as [pc pi pv s|pc pi pv s]; simpl in Ht, Hp, Hup, Hd, Hlen;
      destruct Ht as (Hi & Hl & Hr); destruct Hp as (Hpi & Hs & Hp1);
      (destruct s as [|[] si sv sl sr]; [simpl in Hf; discriminate| |]);
      simpl in Hs; destruct Hs as (Hsi & Hsl & Hsr); destr_and; simpl_ids;
      cbn [is_red] in Hf.
    + (* left child, black sibling *)
      repeat wstep_st. apply wp_bind, wp_ret. cbv beta.
      refine (Remove_tail_L_sim (Remove_Adjust fuel) (fun tp => rem_fix tp p1)
                (Node BLACK i v l r) pc pi pv (Node BLACK si sv sl sr) p1 h root p'
                Hf Hrep0 Hu0 Hroot _).
      intros _ i' v' l' r' p1' Ek h0 root0 Hr0 Hu1 Hroot0.
      apply (IH BLACK i' v' l' r' p1 h0 p1' root0 Ek Hr0 Hu1 Hroot0). lia.
    + (* left child, red sibling: case 1 first *)
      repeat wstep_st.
      apply wp_bind.
      apply (LeftRotate_wp _ p1 RED pi pv (Node BLACK i v l r) BLACK si sv sl sr);
        [ apply rep_plug; simpl; rep_tac | eapply uniq_idl; [|exact Hu0]; idl_eq | ].
      intros h2 Hrep2 Hfr2. pose proof Hrep2 as Hrep2'.
      apply rep_plug in Hrep2' as (Ht2 & Hp2). simpl in Ht2, Hp2. destr_and.
      repeat wstep_st. apply wp_ret. cbv beta.
      eapply wp_mono.
      { refine (Remove_tail_L_sim (Remove_Adjust fuel) (fun _ => None)
                (Node BLACK i v l r) RED pi pv sl (FL BLACK si sv sr :: p1) _ _ p'
                Hf Hrep2 _ _ _).
        - eapply uniq_idl; [|exact Hu0]. idl_eq.
        - subst root. rewrite root_test_FL by exact Hu0.
          cbn [plug fill]. eapply root_sel; reflexivity.
        - intros Hc; discriminate Hc. }
      intros root' h' (Hr1 & Hr2 & Hr3). split; [exact Hr1|split; [exact Hr2|]].
      intros x Hx. pose proof Hx as Hx'. frame_in Hx'.
      rewrite Hr3 by ids_idl_tac Hx. rewrite Hfr2 by ids_idl_tac Hx. unch_tac.
    + (* right child, black sibling *)
      repeat wstep_st.
      rewrite ptr_eqb_ne by neq_tac. repeat wstep_st.
      apply wp_bind, wp_ret. cbv beta.
      refine (Remove_tail_R_sim (Remove_Adjust fuel) (fun tp => rem_fix tp p1)
                (Node BLACK i v l r) pc pi pv (Node BLACK si sv sl sr) p1 h root p'
                Hf Hrep0 Hu0 Hroot _).
      intros _ i' v' l' r' p1' Ek h0 root0 Hr0 Hu1 Hroot0.
      apply (IH BLACK i' v' l' r' p1 h0 p1' root0 Ek Hr0 Hu1 Hroot0). lia.
    + (* right child, red sibling *)
      repeat wstep_st.
      rewrite ptr_eqb_ne by neq_tac. repeat wstep_st.
      apply wp_bind.
      apply (RightRotate_wp _ p1 RED pi pv BLACK si sv sl sr (Node BLACK i v l r));
        [ apply rep_plug; simpl; rep_tac | eapply uniq_idl; [|exact Hu0]; idl_eq | ].
      intros h2 Hrep2 Hfr2. pose proof Hrep2 as Hrep2'.
      apply rep_plug in Hrep2' as (Ht2 & Hp2). simpl in Ht2, Hp2. destr_and.
      repeat wstep_st. apply wp_ret. cbv beta.
      eapply wp_mono.
      { refine (Remove_tail_R_sim (Remove_Adjust fuel) (fun _ => None)
                (Node BLACK i v l r) RED pi pv sr (FR BLACK si sv sl :: p1) _ _ p'
                Hf Hrep2 _ _ _).
        - eapply uniq_idl; [|exact Hu0]. idl_eq.
        - subst root. rewrite root_test_FR by exact Hu0.
          cbn [plug fill]. eapply root_sel; reflexivity.
        - intros Hc; discriminate Hc. }
      intros root' h' (Hr1 & Hr2 & Hr3). split; [exact Hr1|split; [exact Hr2|]].
      intros x Hx. pose proof Hx as Hx'. frame_in Hx'.
      rewrite Hr3 by ids_idl_tac Hx. rewrite Hfr2 by ids_idl_tac Hx. unch_tac.
Qed.

(** ** Remove on the heap *)
Ltac bdp :=
  first [ rewrite bool_decide_true by (split; reflexivity)
        | rewrite bool_decide_false by (intros [Ha Hb]; first [discriminate Ha | discriminate Hb]) ].

Lemma Remove_unlink_sim h xc xi v xl xr px' root res t' :
  (xl = Leaf \/ xr = Leaf) ->
  rep h None (plug (Node xc xi v xl xr) px') -> uniq (plug (Node xc xi v xl xr) px') ->
  root = ptr_of (plug (Node xc xi v xl xr) px') ->
  adetach (Node xc xi v xl xr) px' = Some (res, t') ->
  wp (Remove_unlink root xi) h (fun r h' =>
    r = (res, ptr_of t') /\ res = Some xi /\ rep h' None t' /\
    (exists c, h' !! xi = Some (mkNode c v None None None)) /\
    forall k, k ∉ ids (plug (Node xc xi v xl xr) px') -> h' !! k = h !! k).
Proof.
  intros Hlr Hrep Hu Hroot Had.
  pose proof Hrep as Hrep0. pose proof Hu as Hu0.
  apply rep_plug in Hrep as (Ht & Hp). apply uniq_plug in Hu as (Hut & Hup & Hd).
  simpl in Ht, Hut. destruct Ht as (Hi & Hl & Hr). destr_and.
  unfold Remove_unlink.
  destruct px' as [|f q].
  - simpl in Had, Hroot, Hi, Hd. subst root.
    destruct xl as [|lc li lv ll lr]; destruct xr as [|rc ri rv rl rr];
      [ | | | destruct Hlr; discriminate ].
    + injection Had as <- <-. repeat (first [wstep | bdp]).
      split; [reflexivity|]. split; [reflexivity|]. split; [exact I|].
      split; [eexists; apply lookup_insert_eq|].
      intros k Hk. simpl in Hk. unch_tac.
    + simpl in Had. destruct rl, rr; try discriminate. injection Had as <- <-.
      simpl in Hr. destr_and. simpl_ids.
      repeat (first [wstep | bdp]).
      split; [reflexivity|]. split; [reflexivity|]. split; [simpl; rep_tac|].
      split; [eexists; apply lookup_insert_eq|].
      intros k Hk. simpl in Hk. unch_tac.
    + simpl in Had. destruct ll, lr; try discriminate. injection Had as <- <-.
      simpl in Hl. destr_and. simpl_ids.
      repeat (first [wstep | bdp]).
      split; [reflexivity|]. split; [reflexivity|]. split; [simpl; rep_tac|].
      split; [eexists; apply lookup_insert_eq|].
      intros k Hk. simpl in Hk. unch_tac.
  - injection Had as <- <-.
    destruct f as [pc pi pv s|pc pi pv s]; simpl in Hp, Hup, Hd, Hi; destruct Hp as (Hpi & Hs & Hq);
    (destruct xl as [|lc li lv ll lr]; destruct xr as [|rc ri rv rl rr];
      [ | | | destruct Hlr; discriminate ]); simpl in Hl, Hr; destr_and; simpl_ids;
    repeat (first [wstep | bdp]);
    try (rewrite ptr_eqb_not_in by notin_tac; repeat (first [wstep | bdp])).
    all: split; [subst root; f_equal; apply ptr_of_plug_cons|].
    all: split; [reflexivity|].
    all: split; [apply rep_plug; simpl; rep_tac|].
    all: split; [eexists; apply lookup_insert_eq|].
    all: intros k Hk; frame_in Hk; unch_tac.
Qed.

Lemma Remove_detach_sim fuel h xc xi v xl xr px root res t' :
  (xl = Leaf \/ xr = Leaf) ->
  rep h None (plug (Node xc xi v xl xr) px) -> uniq (plug (Node xc xi v xl xr) px) ->
  root = ptr_of (plug (Node xc xi v xl xr) px) -> (length px < fuel)%nat ->
  match (if bool_decide (xc = BLACK) then rem_fix (Node xc xi v xl xr) px else Some px) with
  | None => None
  | Some px' => adetach (Node xc xi v xl xr) px'
  end = Some (res, t') ->
  wp (Remove_detach fuel root xi) h (fun r h' =>
    r = (res, ptr_of t') /\ res = Some xi /\ rep h' None t' /\
    (exists c, h' !! xi = Some (mkNode c v None None None)) /\
    forall k, k ∉ ids (plug (Node xc xi v xl xr) px) -> h' !! k = h !! k).
Proof.
  intros Hlr Hrep Hu Hroot Hlen Hf.
  pose proof (rep_at _ _ _ _ _ _ _ Hrep) as Hi.
  unfold Remove_detach.
  destruct xc; rewrite ?bd_BB, ?bd_RB in Hf.
  - destruct (rem_fix (Node BLACK xi v xl xr) px) as [px'|] eqn:E; [|discriminate].
    repeat wstep. apply wp_bind.
    eapply wp_mono; [apply (Remove_Adjust_sim fuel BLACK xi v xl xr px h px' root E Hrep Hu Hroot Hlen)|].
    intros root' h2 (Hr1 & Hr2 & Hr3).
    destruct (rem_fix_nodes _ _ _ _ (le_n _) E) as [Hidl _].
    eapply wp_mono.
    { apply (Remove_unlink_sim h2 BLACK xi v xl xr px' root' res t' Hlr Hr2); [|exact Hr1|exact Hf].
      eapply uniq_idl; [symmetry; exact Hidl|exact Hu]. }
    intros r h3 (A & B & C & D & F). repeat split; auto.
    intros k Hk. rewrite F, Hr3; [reflexivity|exact Hk|].
    rewrite (ids_eq_idl _ _ Hidl). exact Hk.
  - repeat wstep.
    eapply wp_mono; [apply (Remove_unlink_sim h RED xi v xl xr px root res t' Hlr Hrep Hu Hroot Hf)|].
    intros r h3 (A & B & C & D & F). repeat split; auto.
Qed.

Lemma ptr_of_set_val j w t : ptr_of (set_val j w t) = ptr_of t.
Proof. destruct t; reflexivity. Qed.

Lemma idl_set_val j w t : idl (set_val j w t) = idl t.
Proof. induction t as [|c i v l IHl r IHr]; simpl; [reflexivity|]. rewrite IHl, IHr. reflexivity. Qed.

Lemma rep_set_val h par t j c w v0 pj lj rj :
  rep h par t -> h !! j = Some (mkNode c v0 pj lj rj) ->
  rep (<[j := mkNode c w pj lj rj]> h) par (set_val j w t).
Proof.
  intros Hr Hj. revert par Hr; induction t as [|ci i v l IHl r IHr]; intros par Hr; simpl; [exact I|].
  destruct Hr as (Hi & Hl & Hr). rewrite !ptr_of_set_val.
  split; [|split; auto].
  destruct (decide (i = j)) as [->|Hne].
  - rewrite bool_decide_true by reflexivity. rewrite lookup_insert_eq.
    rewrite Hi in Hj. injection Hj as -> _ -> -> ->. reflexivity.
  - rewrite bool_decide_false by exact Hne. rewrite lookup_insert_ne by congruence. exact Hi.
Qed.

Lemma set_val_plug j w t p :
  set_val j w (plug t p) = plug (set_val j w t) (map (set_val_frame j w) p).
Proof.
  revert t; induction p as [|f p IH]; intros t; simpl; [reflexivity|].
  rewrite IH. destruct f; reflexivity.
Qed.

Lemma set_val_notin j w t : j ∉ ids t -> set_val j w t = t.
Proof.
  induction t as [|c i v l IHl r IHr]; simpl; intros Hj; [reflexivity|].
  rewrite bool_decide_false by set_solver. rewrite IHl, IHr by set_solver. reflexivity.
Qed.

Lemma set_val_path_notin j w p : j ∉ ids_path p -> map (set_val_frame j w) p = p.
Proof.
  induction p as [|f p IH]; simpl; intros Hj; [reflexivity|].
  rewrite IH by set_solver.
  destruct f; simpl in *; rewrite bool_decide_false, set_val_notin by set_solver; reflexivity.
Qed.

(** the two stores of the value swap of Remove *)
Lemma swap_eq c i v l r p mc mi mv mr pm :
  uniq (plug (Node c i v l r) p) -> plug (Node mc mi mv Leaf mr) pm = r ->
  set_val mi v (set_val i mv (plug (Node c i v l r) p)) =
  plug (Node mc mi v Leaf mr) (pm ++ FR c i mv l :: p).
Proof.
  intros Hu Hr. apply uniq_plug in Hu as (Hut & Hup & Hd). simpl in Hut, Hd.
  destruct Hut as (Hil & Hir & Hlr & Hul & Hur).
  assert (Hmi : mi ∈ ids r) by (rewrite <- Hr, ids_plug; simpl; set_solver).
  assert (Hu' : uniq (plug (Node mc mi mv Leaf mr) pm)) by (rewrite Hr; exact Hur).
  apply uniq_plug in Hu' as (Hum & Hupm & Hdm). simpl in Hum, Hdm.
  rewrite (set_val_plug i mv), (set_val_path_notin i mv p) by set_solver. cbn [set_val].
  rewrite (bool_decide_true (i = i)) by reflexivity.
  rewrite (set_val_notin i mv l), (set_val_notin i mv r) by set_solver.
  rewrite (set_val_plug mi v), (set_val_path_notin mi v p) by set_solver. cbn [set_val].
  rewrite (bool_decide_false (i = mi)) by set_solver. rewrite (set_val_notin mi v l) by set_solver.
  rewrite <- Hr, (set_val_plug mi v), (set_val_path_notin mi v pm) by set_solver. cbn [set_val].
  rewrite (bool_decide_true (mi = mi)) by reflexivity. rewrite (set_val_notin mi v mr) by set_solver.
  rewrite plug_app. reflexivity.
Qed.

Lemma height_plug t p : (length p + height t <= height (plug t p))%nat.
Proof.
  revert t; induction p as [|f p IH]; intros t; simpl; [lia|].
  specialize (IH (fill f t)). destruct f; simpl in *; lia.
Qed.

Lemma search_z_found value t p c i v l r q :
  search_z value t p = (Node c i v l r, q) -> v = value.
Proof.
  revert p; induction t as [|c' i' v' l' IHl r' IHr]; intros p; simpl; [discriminate|].
  destruct (Z.eqb value v') eqn:E.
  - intros [= -> -> -> -> -> _]. apply Z.eqb_eq in E. auto.
  - destruct (Z.ltb value v'); eauto.
Qed.

Ltac wstep_nr :=
  lazymatch goal with
  | |- wp (ret _) _ _ => fail
  | _ => wstep
  end.

Lemma Remove_fuel_sim fuel h root t value res t' :
  tree_at h root t -> (height t < fuel)%nat -> arem value t = Some (res, t') ->
  wp (Remove_fuel fuel root value) h (fun r h' =>
    r = (res, ptr_of t') /\ rep h' None t' /\
    (res = None -> h' = h) /\
    (forall xi, res = Some xi -> exists c, h' !! xi = Some (mkNode c value None None None)) /\
    (forall k, k ∉ ids t -> h' !! k = h !! k)).
Proof.
  intros (Hroot & Hrep & Hu) Hfuel Ha. subst root.
  destruct t as [|c0 i0 v0 l0 r0].
  - simpl in Ha. injection Ha as <- <-. cbn [Remove_fuel ptr_of]. repeat wstep.
    repeat split; auto; discriminate.
  - cbn [Remove_fuel ptr_of]. pose proof Hrep as Hrep'. destruct Hrep' as (Hi0 & _ & _).
    repeat wstep. apply wp_bind.
    eapply wp_eq; [apply (Search_loop_sim fuel value (Node c0 i0 v0 l0 r0) [] h None Hrep Hfuel)|].
    unfold arem in Ha. cbn beta iota in Ha.
    destruct (search_z value (Node c0 i0 v0 l0 r0) []) as [[|c i v l r] p] eqn:Hs.
    + cbn beta iota in Ha. revert Ha; intros [= <- <-]. cbn [fst ptr_of]. repeat wstep.
      split; [reflexivity|]. split; [exact Hrep|]. split; [auto|]. split; [intros ? [=]|auto].
    + cbn [fst ptr_of].
      pose proof (search_z_found _ _ _ _ _ _ _ _ _ Hs) as ->.
      apply search_z_plug in Hs as (Hpl & q0 & Hq & Hlenq). rewrite app_nil_r in Hq. subst q0.
      change (plug (Node c0 i0 v0 l0 r0) []) with (Node c0 i0 v0 l0 r0) in Hpl.
      rewrite <- Hpl in Hrep, Hu, Hfuel |- *.
      pose proof (height_plug (Node c i value l r) p) as Hhp.
      pose proof Hrep as Hrep'. apply rep_plug in Hrep' as (Ht & Hp).
      simpl in Ht. destruct Ht as (Hi & Hl & Hr).
      assert (Hroot : Some i0 = ptr_of (plug (Node c i value l r) p)) by (rewrite Hpl; reflexivity).
      destruct l as [|lc li lv ll lr]; destruct r as [|rc ri rv rl rr];
        repeat wstep; apply wp_bind.
      1-3: rewrite bool_decide_false by (intros [Ha1 Ha2]; first [exact (Ha1 eq_refl) | exact (Ha2 eq_refl)]);
        apply wp_ret; cbv beta;
        cbn beta iota zeta in Ha;
        (eapply wp_mono; [refine (Remove_detach_sim fuel h c i value _ _ p (Some i0) res t' _ Hrep Hu Hroot _ Ha); [auto|simpl in Hhp; lia]|]);
        intros r h' (A & B & C & D & F); subst res;
        (split; [exact A|]); (split; [exact C|]); (split; [discriminate|]);
        (split; [intros xi [= <-]; exact D|exact F]).
      rewrite bool_decide_true by (split; discriminate).
      cbn beta iota zeta in Ha.
      destruct (min_loop_sim fuel rc ri rv rl rr [] h (Some i) Hr) as (m & Hm & Hml);
        [simpl in Hhp |- *; lia|].
      destruct (leftmost (Node rc ri rv rl rr) []) as [x0 pm] eqn:Hlm.
      destruct (leftmost_node rc ri rv rl rr []) as (mc & mi & mv & mr & Hx0).
      rewrite Hlm in Hx0. simpl in Hx0. subst x0. simpl in Hm. injection Hm as <-.
      cbn beta iota in Ha.
      apply leftmost_plug in Hlm as (Hpm & q0 & Hq0 & Hlq0). rewrite app_nil_r in Hq0. subst q0.
      change (plug (Node rc ri rv rl rr) []) with (Node rc ri rv rl rr) in Hpm.
      assert (HT : plug (Node c i value (Node lc li lv ll lr) (Node rc ri rv rl rr)) p =
                   plug (Node mc mi mv Leaf mr) (pm ++ FR c i value (Node lc li lv ll lr) :: p))
        by (rewrite plug_app, Hpm; reflexivity).
      pose proof (height_plug (Node mc mi mv Leaf mr) (pm ++ FR c i value (Node lc li lv ll lr) :: p)) as Hhm.
      rewrite <- HT, length_app in Hhm. simpl in Hhm.
      pose proof Hrep as Hrepm. rewrite HT in Hrepm. apply rep_at in Hrepm as Hmi.
      assert (Hmi_in : mi ∈ ids (Node rc ri rv rl rr)) by (rewrite <- Hpm, ids_plug; simpl; set_solver).
      assert (Hne : i <> mi).
      { intros <-. apply uniq_plug in Hu as (Hut & _ & _). simpl in Hut. set_solver. }
      cbn iota beta. apply wp_bind. eapply wp_eq; [exact Hml|].
      repeat wstep_nr. apply wp_ret. cbv beta.
      assert (Hidl : idl (plug (Node c i value (Node lc li lv ll lr) (Node rc ri rv rl rr)) p) =
                     idl (plug (Node mc mi value Leaf mr) (pm ++ FR c i mv (Node lc li lv ll lr) :: p))).
      { rewrite <- (swap_eq c i value _ _ p mc mi mv mr pm Hu Hpm), !idl_set_val. reflexivity. }
      eapply wp_mono.
      { refine (Remove_detach_sim fuel _ mc mi value Leaf mr (pm ++ FR c i mv (Node lc li lv ll lr) :: p)
                  (Some i0) res t' (or_introl eq_refl) _ _ _ _ Ha).
        - rewrite <- (swap_eq c i value _ _ p mc mi mv mr pm Hu Hpm).
          eapply rep_set_val; [eapply rep_set_val; [exact Hrep|exact Hi]|].
          rewrite lookup_insert_ne by congruence. exact Hmi.
        - eapply uniq_idl; [exact Hidl|exact Hu].
        - rewrite Hroot, plug_app. cbn [plug fill]. apply ptr_of_plug_top.
        - rewrite length_app. simpl. lia. }
      intros rr0 h' (A & B & C & D & F). subst res.
      split; [exact A|]. split; [exact C|]. split; [discriminate|].
      split; [intros xi [= <-]; exact D|].
      intros k Hk. rewrite F by (rewrite <- (ids_eq_idl _ _ Hidl); exact Hk).
      assert (k <> mi) by (intros ->; apply Hk; rewrite ids_plug; set_solver).
      assert (k <> i) by (intros ->; apply Hk; rewrite ids_plug; set_solver).
      unch_tac.
Qed.

(** ** Remove on abstract trees *)
Lemma nodes_fst t : map fst (nodes t) = idl t.
Proof.
  induction t as [|c i v l IHl r IHr]; simpl; auto.
  rewrite map_app; simpl; congruence.
Qed.

Lemma nodes_snd t : map snd (nodes t) = inorder t.
Proof.
  induction t as [|c i v l IHl r IHr]; simpl; auto.
  rewrite map_app; simpl; congruence.
Qed.

Lemma pairs_eq (L L' : list (ptr * Z)) :
  map fst L = map fst L' -> map snd L = map snd L' -> L = L'.
Proof.
  revert L'; induction L as [|[a b] L IH]; intros [|[a' b'] L']; simpl;
    try discriminate; auto.
  intros [= -> H1] [= -> H2]. f_equal. auto.
Qed.

Lemma nodes_ext t t' : idl t = idl t' -> inorder t = inorder t' -> nodes t = nodes t'.
Proof. intros H1 H2. apply pairs_eq; rewrite ?nodes_fst, ?nodes_snd; auto. Qed.

Lemma nodes_plug p : exists A B, forall y, nodes (plug y p) = A ++ nodes y ++ B.
Proof.
  induction p as [|f p (A & B & IH)].
  - exists [], []. intros y. simpl. rewrite app_nil_r. reflexivity.
  - destruct f as [c i v s|c i v s].
    + exists A, (((i, v) :: nodes s) ++ B). intros y. simpl. rewrite IH. simpl.
      rewrite <- !app_assoc. reflexivity.
    + exists (A ++ nodes s ++ [(i, v)]), B. intros y. simpl. rewrite IH. simpl.
      rewrite <- !app_assoc. reflexivity.
Qed.

Lemma leftmost_nodes t p x q :
  leftmost t p = (x, q) -> exists q0 B, q = q0 ++ p /\ forall y, nodes (plug y q0) = nodes y ++ B.
Proof.
  revert p x q; induction t as [|c i v l IHl r IHr]; intros p x q; simpl.
  - intros [= <- <-]. exists [], []. split; [reflexivity|]. intros y. simpl. rewrite app_nil_r. reflexivity.
  - destruct l as [|cl il vl ll lr].
    + intros [= <- <-]. exists [], []. split; [reflexivity|]. intros y. simpl. rewrite app_nil_r. reflexivity.
    + intros H. destruct (IHl _ _ _ H) as (q0 & B & -> & HB).
      exists (q0 ++ [FL c i v r]), (B ++ (i, v) :: nodes r). split.
      * rewrite <- app_assoc. reflexivity.
      * intros y. rewrite plug_app. simpl. rewrite HB, <- app_assoc. reflexivity.
Qed.

Lemma split_unique (A B A' B' : list (ptr * Z)) k a a' :
  NoDup (map fst (A ++ (k, a) :: B)) -> A ++ (k, a) :: B = A' ++ (k, a') :: B' ->
  A = A' /\ a = a' /\ B = B'.
Proof.
  revert A'; induction A as [|q A IH]; intros [|q' A'] Hnd Heq; simpl in *.
  - injection Heq as -> ->. auto.
  - injection Heq as <- ->. exfalso. rewrite map_app in Hnd. simpl in Hnd.
    apply NoDup_cons in Hnd as [Hn _]. apply Hn, elem_of_app. right. apply list_elem_of_here.
  - injection Heq as -> <-. exfalso. rewrite map_app in Hnd. simpl in Hnd.
    apply NoDup_cons in Hnd as [Hn _]. apply Hn, elem_of_app. right. apply list_elem_of_here.
  - injection Heq as <- Heq. apply NoDup_cons in Hnd as [_ Hnd].
    destruct (IH A' Hnd Heq) as (-> & -> & ->). auto.
Qed.

Lemma ss_remove {R : relation Z} (P Q : list Z) a :
  StronglySorted R (P ++ a :: Q) -> StronglySorted R (P ++ Q).
Proof.
  intros H. apply StronglySorted_app in H as (Hx & HP & HaQ).
  apply StronglySorted_app_2; auto.
  - intros x1 x2 H1 H2. apply Hx; [exact H1|]. by apply list_elem_of_further.
  - inversion HaQ; auto.
Qed.

Lemma remove_one_ids t t' (P Q : list ptr) k :
  idl t = P ++ k :: Q -> idl t' = P ++ Q -> uniq t ->
  uniq t' /\ k ∈ ids t /\ ids t' = ids t ∖ {[k]}.
Proof.
  intros H1 H2 Hu. apply uniq_NoDup in Hu. rewrite H1 in Hu.
  apply NoDup_app in Hu as (HP & Hdis & HkQ). apply NoDup_cons in HkQ as (HkQ & HQ).
  split; [|split].
  - apply uniq_NoDup. rewrite H2. apply NoDup_app. split; [exact HP|split; [|exact HQ]].
    intros x Hx Hx'. apply (Hdis x Hx). by apply list_elem_of_further.
  - apply ids_idl. rewrite H1. apply elem_of_app. right. apply list_elem_of_here.
  - apply set_eq. intros x.
    rewrite elem_of_difference, elem_of_singleton, !ids_idl, H1, H2, !elem_of_app, elem_of_cons.
    split.
    + intros [Hx|Hx]; split; auto.
      * intros ->. apply (Hdis k Hx). apply list_elem_of_here.
      * intros ->. contradiction.
    + intros [[Hx|[Hx|Hx]] Hne]; [left|contradiction|right]; auto.
Qed.

Lemma is_rb0_black y : is_rb y 0 -> color y = BLACK -> y = Leaf.
Proof. intros H Hc. inversion H; subst; simpl in Hc; [reflexivity|discriminate]. Qed.

Lemma is_rb0 y : is_rb y 0 -> y = Leaf \/ exists yi yv, y = Node RED yi yv Leaf Leaf.
Proof.
  intros H. inversion H as [|yi yv yl yr n Hl Hr Hlc Hrc|]; subst; [left; reflexivity|right].
  rewrite (is_rb0_black yl), (is_rb0_black yr) by assumption. eauto.
Qed.

Lemma is_rb_leaf_inv n : is_rb Leaf n -> n = 0%nat.
Proof. inversion 1; auto. Qed.

Lemma ctx_revalue_FR q c i v w l p m b :
  ctx (q ++ FR c i v l :: p) m b -> ctx (q ++ FR c i w l :: p) m b.
Proof.
  revert m b; induction q as [|g q IH]; intros m b H; simpl in *.
  - inversion H; subst; econstructor; eauto.
  - inversion H; subst; econstructor; eauto.
Qed.

Lemma is_rb_revalue c i v w l r m : is_rb (Node c i v l r) m -> is_rb (Node c i w l r) m.
Proof. inversion 1; subst; constructor; auto. Qed.

Lemma child_of_nodes c i v l r :
  (l = Leaf \/ r = Leaf) -> nodes (child_of (Node c i v l r)) = nodes l ++ nodes r.
Proof.
  intros [-> | ->]; [reflexivity|]. destruct l; simpl; [reflexivity|]. rewrite app_nil_r. reflexivity.
Qed.

Lemma child_of_split c i v l r p :
  (l = Leaf \/ r = Leaf) ->
  exists P0 Q0, nodes (plug (Node c i v l r) p) = P0 ++ (i, v) :: Q0 /\
    nodes (plug (child_of (Node c i v l r)) p) = P0 ++ Q0.
Proof.
  intros Hch. destruct (nodes_plug p) as (A & B & HAB).
  exists (A ++ nodes l), (nodes r ++ B). rewrite !HAB, child_of_nodes by exact Hch. simpl.
  rewrite <- !app_assoc. split; reflexivity.
Qed.

Lemma search_z_notin AD value t p q :
  StronglySorted (ord AD) (inorder t) -> search_z value t p = (Leaf, q) -> value ∉ inorder t.
Proof.
  revert p; induction t as [|c i v l IHl r IHr]; intros p Hs Hsz; simpl in *.
  - apply not_elem_of_nil.
  - apply StronglySorted_app in Hs as (Hx & Hsl & Hsr).
    inversion Hsr as [|? ? Hsr' Hfr]; subst.
    rewrite elem_of_app, elem_of_cons.
    destruct (Z.eqb_spec value v); [discriminate|].
    destruct (Z.ltb_spec value v).
    + specialize (IHl _ Hsl Hsz). intros [Hv|[Hv|Hv]]; [auto|lia|].
      rewrite Forall_forall in Hfr. specialize (Hfr _ Hv). unfold ord in Hfr. destruct AD; lia.
    + specialize (IHr _ Hsr' Hsz). intros [Hv|[Hv|Hv]]; [|lia|auto].
      specialize (Hx value v Hv (list_elem_of_here _ _)). unfold ord in Hx. destruct AD; lia.
Qed.

(** detaching the found node: the result is red-black, its node list
    loses exactly the pair of the detached node *)
Lemma adetach_ok xc xi xv xl xr px m b :
  (xl = Leaf \/ xr = Leaf) -> is_rb (Node xc xi xv xl xr) m -> ctx px m b ->
  (b = true -> xc = BLACK) ->
  exists res t',
    match (if bool_decide (xc = BLACK) then rem_fix (Node xc xi xv xl xr) px else Some px) with
    | None => None
    | Some px' => adetach (Node xc xi xv xl xr) px'
    end = Some (res, t') /\ res = Some xi /\
    (exists m', is_rb t' m') /\ color t' = BLACK /\
    exists P0 Q0, nodes (plug (Node xc xi xv xl xr) px) = P0 ++ (xi, xv) :: Q0 /\
      nodes t' = P0 ++ Q0.
Proof.
  intros Hch Hrb Hc Hb. destruct xc; swap 1 2.
  - (* red: both children absent, nothing to fix *)
    rewrite bd_RB.
    apply is_rb_red_inv in Hrb as (Hl & Hr & Hlc & Hrc).
    assert (m = 0%nat) as ->.
    { destruct Hch as [->| ->]; [apply is_rb_leaf_inv in Hl|apply is_rb_leaf_inv in Hr]; auto. }
    rewrite (is_rb0_black xl), (is_rb0_black xr) in * by assumption.
    destruct b; [specialize (Hb eq_refl); discriminate|].
    destruct px as [|f q]; [apply ctx_nil_inv in Hc; discriminate|].
    destruct (child_of_split RED xi xv Leaf Leaf (f :: q) (or_introl eq_refl)) as (P0 & Q0 & HP & HQ).
    destruct (rb_compose _ _ _ Leaf Hc (rb_leaf) (fun H => eq_refl)) as (m' & Hm & Hcol).
    do 2 eexists. split; [reflexivity|]. split; [reflexivity|].
    split; [exists m'; exact Hm|]. split; [exact Hcol|]. exists P0, Q0. split; [exact HP|exact HQ].
  - rewrite bd_BB.
    apply is_rb_black_inv in Hrb as (m' & -> & Hl & Hr).
    assert (m' = 0%nat) as ->.
    { destruct Hch as [->| ->]; [apply is_rb_leaf_inv in Hl|apply is_rb_leaf_inv in Hr]; auto. }
    destruct (rem_fix_ok (length px) (Node BLACK xi xv xl xr) px 0 b (le_n _) eq_refl
                ltac:(discriminate) Hc) as (px' & Hf & b' & Hc' & Hb').
    rewrite Hf.
    pose proof (rem_fix_nodes (length px) _ _ _ (le_n _) Hf) as [Hi Ho].
    assert (Hn : nodes (plug (Node BLACK xi xv xl xr) px') = nodes (plug (Node BLACK xi xv xl xr) px))
      by (apply nodes_ext; assumption).
    rewrite <- Hn.
    destruct (child_of_split BLACK xi xv xl xr px' Hch) as (P0 & Q0 & HP & HQ).
    assert (Hy : is_rb (child_of (Node BLACK xi xv xl xr)) 0).
    { destruct xl; simpl; assumption. }
    destruct px' as [|f q].
    + destruct (is_rb0 _ Hy) as [Hy0 | (yi & yv & Hy0)].
      * assert (xl = Leaf /\ xr = Leaf) as [-> ->]
          by (destruct xl; simpl in Hy0; [auto|discriminate]).
        do 2 eexists. split; [reflexivity|]. split; [reflexivity|].
        split; [exists 0%nat; constructor|]. split; [reflexivity|].
        exists P0, Q0. split; [exact HP|exact HQ].
      * destruct xl as [|cl il vl ll lr].
        -- simpl in Hy0. subst xr. simpl in HQ.
           do 2 eexists. split; [reflexivity|]. split; [reflexivity|].
           split; [exists 1%nat; repeat constructor|]. split; [reflexivity|].
           exists P0, Q0. split; [exact HP|exact HQ].
        -- destruct Hch as [Hch| ->]; [discriminate|].
           simpl in Hy0. rewrite Hy0 in *. simpl in HQ.
           do 2 eexists. split; [reflexivity|]. split; [reflexivity|].
           split; [exists 1%nat; repeat constructor|]. split; [reflexivity|].
           exists P0, Q0. split; [exact HP|exact HQ].
    + assert (b' = false) as -> by (destruct b'; [specialize (Hb' eq_refl); discriminate|reflexivity]).
      destruct (rb_compose _ _ _ _ Hc' Hy (fun H => ltac:(discriminate))) as (m'' & Hm & Hcol).
      do 2 eexists. split; [reflexivity|]. split; [reflexivity|].
      split; [exists m''; exact Hm|]. split; [exact Hcol|]. exists P0, Q0. split; [exact HP|exact HQ].
Qed.

Lemma arem_finish AD t t' (PI QI : list ptr) (P Q : list Z) k value :
  uniq t -> StronglySorted (ord AD) (inorder t) ->
  idl t = PI ++ k :: QI -> idl t' = PI ++ QI ->
  inorder t = P ++ value :: Q -> inorder t' = P ++ Q ->
  uniq t' /\ StronglySorted (ord AD) (inorder t') /\ k ∈ ids t /\ ids t' = ids t ∖ {[k]} /\
  exists P Q, inorder t = P ++ value :: Q /\ inorder t' = P ++ Q.
Proof.
  intros Hu Hs H1 H2 H3 H4.
  destruct (remove_one_ids t t' PI QI k H1 H2 Hu) as (Hu' & Hk & Hids).
  split; [exact Hu'|]. split; [rewrite H4; rewrite H3 in Hs; exact (ss_remove _ _ _ Hs)|].
  split; [exact Hk|]. split; [exact Hids|]. eauto.
Qed.

Ltac lists_eq :=
  rewrite ?map_app, <- ?app_assoc; simpl; rewrite ?map_app, <- ?app_assoc; simpl; reflexivity.

(** Remove on abstract trees keeps the red-black shape, the order and the
    uniqueness of addresses, and takes out exactly one node carrying the
    value *)
Lemma arem_ok AD value t n :
  is_rb t n -> color t = BLACK -> uniq t -> StronglySorted (ord AD) (inorder t) ->
  exists res t', arem value t = Some (res, t') /\
    (exists m, is_rb t' m) /\ color t' = BLACK /\ uniq t' /\
    StronglySorted (ord AD) (inorder t') /\
    (res = None -> t' = t /\ value ∉ inorder t) /\
    (forall xi, res = Some xi -> xi ∈ ids t /\ ids t' = ids t ∖ {[xi]} /\
       exists P Q, inorder t = P ++ value :: Q /\ inorder t' = P ++ Q).
Proof.
  intros Hrb Hcol Hu Hs.
  destruct t as [|c0 i0 v0 l0 r0].
  { exists None, Leaf. split; [reflexivity|]. split; [eauto|]. split; [reflexivity|].
    split; [exact I|]. split; [exact Hs|]. split; [|intros ? [=]].
    intros _. split; [reflexivity|apply not_elem_of_nil]. }
  cbv delta [arem] beta iota.
  remember (Node c0 i0 v0 l0 r0) as t eqn:Et. clear Et.
  destruct (search_z value t []) as [x p] eqn:Hsz.
  destruct x as [|c i v l r].
  { exists None, t. split; [reflexivity|]. split; [eauto|]. split; [exact Hcol|].
    split; [exact Hu|]. split; [exact Hs|]. split; [|intros ? [=]].
    intros _. split; [reflexivity|exact (search_z_notin AD value t [] p Hs Hsz)]. }
  pose proof (search_z_found _ _ _ _ _ _ _ _ _ Hsz) as ->.
  destruct (search_z_plug _ _ _ _ _ Hsz) as [Ht _]. simpl in Ht. subst t.
  assert (Hnd : NoDup (idl (plug (Node c i value l r) p))) by (apply uniq_NoDup; exact Hu).
  destruct (rb_decompose _ _ _ Hrb Hcol) as (m & b & Hx & Hc & Hb).
  assert (Hnonswap : (l = Leaf \/ r = Leaf) ->
    exists res t',
    match (if bool_decide (c = BLACK) then rem_fix (Node c i value l r) p else Some p) with
    | None => None
    | Some px' => adetach (Node c i value l r) px'
    end = Some (res, t') /\
    (exists m, is_rb t' m) /\ color t' = BLACK /\ uniq t' /\
    StronglySorted (ord AD) (inorder t') /\
    (res = None -> t' = plug (Node c i value l r) p /\ value ∉ inorder (plug (Node c i value l r) p)) /\
    (forall xi, res = Some xi -> xi ∈ ids (plug (Node c i value l r) p) /\
       ids t' = ids (plug (Node c i value l r) p) ∖ {[xi]} /\
       exists P Q, inorder (plug (Node c i value l r) p) = P ++ value :: Q /\ inorder t' = P ++ Q)).
  { intros Hch.
    destruct (adetach_ok c i value l r p m b Hch Hx Hc Hb)
      as (res & t' & Hr & -> & Hm & Hcol' & P0 & Q0 & HP & HQ).
    destruct (arem_finish AD (plug (Node c i value l r) p) t'
                (map fst P0) (map fst Q0) (map snd P0) (map snd Q0) i value Hu Hs)
      as (Hu' & Hs' & Hk & Hids & HPQ).
    1-4: rewrite <- ?nodes_fst, <- ?nodes_snd, ?HP, ?HQ; lists_eq.
    exists (Some i), t'. split; [exact Hr|]. split; [exact Hm|]. split; [exact Hcol'|].
    split; [exact Hu'|]. split; [exact Hs'|]. split; [intros [=]|].
    intros xi [= <-]. auto. }
  destruct l as [|cl il vl ll lr]; [apply Hnonswap; auto|].
  destruct r as [|cr ir vr rl rr]; [apply Hnonswap; auto|].
  clear Hnonswap.
  destruct (leftmost_node cr ir vr rl rr []) as (mc & mi & mv & mr & HM).
  destruct (leftmost (Node cr ir vr rl rr) []) as [M pm] eqn:Hlm. simpl in HM. subst M.
  destruct (leftmost_plug _ _ _ _ Hlm) as [Hpl _]. simpl in Hpl.
  destruct (leftmost_nodes _ _ _ _ Hlm) as (q0 & B & Hq0 & HB).
  rewrite app_nil_r in Hq0. subst pm.
  set (l := Node cl il vl ll lr) in *. set (r := Node cr ir vr rl rr) in *.
  assert (Hteq : plug (Node c i value l r) p = plug (Node mc mi mv Leaf mr) (q0 ++ FR c i value l :: p))
    by (rewrite plug_app, Hpl; reflexivity).
  rewrite Hteq in Hrb, Hcol.
  destruct (rb_decompose _ _ _ Hrb Hcol) as (m' & b' & Hx' & Hc' & Hb').
  apply ctx_revalue_FR with (w := mv) in Hc'.
  apply (is_rb_revalue _ _ _ value) in Hx'.
  destruct (adetach_ok mc mi value Leaf mr (q0 ++ FR c i mv l :: p) m' b' (or_introl eq_refl)
              Hx' Hc' Hb') as (res & t' & Hr & -> & Hm & Hcol' & P0 & Q0 & HP & HQ).
  destruct (nodes_plug p) as (NL & NR & HNL).
  assert (HT1 : nodes (plug (Node mc mi value Leaf mr) (q0 ++ FR c i mv l :: p)) =
                (NL ++ nodes l ++ [(i, mv)]) ++ (mi, value) :: (nodes mr ++ B ++ NR)).
  { rewrite plug_app. simpl. rewrite HNL. simpl. rewrite HB. simpl. lists_eq. }
  assert (HT : nodes (plug (Node c i value l r) p) =
               NL ++ nodes l ++ (i, value) :: (mi, mv) :: nodes mr ++ B ++ NR).
  { rewrite HNL, <- Hpl. simpl. rewrite HB. simpl. lists_eq. }
  assert (Hnd1 : NoDup (map fst ((NL ++ nodes l ++ [(i, mv)]) ++ (mi, value) :: (nodes mr ++ B ++ NR)))).
  { assert (E : map fst ((NL ++ nodes l ++ [(i, mv)]) ++ (mi, value) :: (nodes mr ++ B ++ NR)) =
               map fst (NL ++ nodes l ++ (i, value) :: (mi, mv) :: nodes mr ++ B ++ NR)) by lists_eq.
    rewrite E, <- HT, nodes_fst. exact Hnd. }
  rewrite HT1 in HP.
  destruct (split_unique _ _ _ _ _ _ _ Hnd1 HP) as (<- & _ & <-).
  destruct (arem_finish AD (plug (Node c i value l r) p) t'
              (map fst (NL ++ nodes l ++ [(i, value)])) (map fst (nodes mr ++ B ++ NR))
              (map snd (NL ++ nodes l)) (mv :: map snd (nodes mr ++ B ++ NR)) mi value Hu Hs)
    as (Hu' & Hs' & Hk & Hids & HPQ).
  1-4: rewrite <- ?nodes_fst, <- ?nodes_snd, ?HT, ?HQ; lists_eq.
  exists (Some mi), t'. split; [exact Hr|]. split; [exact Hm|]. split; [exact Hcol'|].
  split; [exact Hu'|]. split; [exact Hs'|]. split; [intros [=]|].
  intros xi [= <-]. auto.
Qed.

(** ** The invariant along the public operations *)

Lemma rep_det h par par' t t' :
  rep h par t -> rep h par' t' -> ptr_of t = ptr_of t' -> t = t'.
Proof.
  revert par par' t'; induction t as [|c i v l IHl r IHr]; intros par par' [|c' i' v' l' r'];
    simpl; try discriminate; auto.
  intros (Hi & Hl & Hr) (Hi' & Hl' & Hr') [= <-].
  rewrite Hi in Hi'. injection Hi' as -> -> _ Hpl Hpr.
  f_equal; eauto.
Qed.

Lemma tree_at_det h root t t' : tree_at h root t -> tree_at h root t' -> t = t'.
Proof.
  intros (H1 & H2 & _) (H1' & H2' & _). eapply rep_det; eauto. congruence.
Qed.

Lemma rep_same h h' par t : rep h par t -> rep h' par t -> forall k, k ∈ ids t -> h' !! k = h !! k.
Proof.
  revert par; induction t as [|c i v l IHl r IHr]; intros par; simpl.
  - intros _ _ k Hk. set_solver.
  - intros (Hi & Hl & Hr) (Hi' & Hl' & Hr') k Hk.
    apply elem_of_union in Hk as [Hk|Hk]; [apply elem_of_union in Hk as [Hk|Hk]|].
    + apply elem_of_singleton in Hk. subst. congruence.
    + eauto.
    + eauto.
Qed.

Lemma rep_links h par t k nd :
  rep h par t -> k ∈ ids t -> h !! k = Some nd ->
  (_parent nd = par \/ exists j, _parent nd = Some j /\ j ∈ ids t) /\
  (_left nd = None \/ exists j, _left nd = Some j /\ j ∈ ids t) /\
  (_right nd = None \/ exists j, _right nd = Some j /\ j ∈ ids t).
Proof.
  assert (Hp : forall s j, ptr_of s = Some j -> j ∈ ids s).
  { intros [|? ? ? ? ?] j; simpl; [discriminate|intros [= <-]; set_solver]. }
  assert (Hp' : forall s, ptr_of s = None \/ exists j, ptr_of s = Some j /\ j ∈ ids s).
  { intros [|? j ? ? ?]; simpl; [left; reflexivity|right; exists j; split; [reflexivity|set_solver]]. }
  revert par; induction t as [|c i v l IHl r IHr]; intros par; simpl.
  - intros _ Hk. set_solver.
  - intros (Hi & Hl & Hr) Hk Hnd.
    apply elem_of_union in Hk as [Hk|Hk]; [apply elem_of_union in Hk as [Hk|Hk]|].
    + apply elem_of_singleton in Hk. subst. rewrite Hi in Hnd. injection Hnd as <-. simpl.
      split; [left; reflexivity|].
      split; [destruct (Hp' l) as [->|(j & -> & Hj)]; [left|right; exists j]; auto; set_solver|].
      destruct (Hp' r) as [->|(j & -> & Hj)]; [left|right; exists j]; auto; set_solver.
    + destruct (IHl _ Hl Hk Hnd) as (A & B & C).
      split; [|split].
      * destruct A as [->|(j & -> & Hj)]; right; [exists i|exists j]; split; auto; set_solver.
      * destruct B as [->|(j & -> & Hj)]; [left|right; exists j]; auto; set_solver.
      * destruct C as [->|(j & -> & Hj)]; [left|right; exists j]; auto; set_solver.
    + destruct (IHr _ Hr Hk Hnd) as (A & B & C).
      split; [|split].
      * destruct A as [->|(j & -> & Hj)]; right; [exists i|exists j]; split; auto; set_solver.
      * destruct B as [->|(j & -> & Hj)]; [left|right; exists j]; auto; set_solver.
      * destruct C as [->|(j & -> & Hj)]; [left|right; exists j]; auto; set_solver.
Qed.

Lemma ptr_of_in t j : ptr_of t = Some j -> j ∈ ids t.
Proof. destruct t; simpl; [discriminate|intros [= <-]; set_solver]. Qed.

Lemma tree_at_le_size h root t : tree_at h root t -> (height t < S (size h))%nat.
Proof.
  intros (_ & Hr & Hu). pose proof (height_le_count t). pose proof (count_le_size h None t Hr Hu). lia.
Qed.

Lemma Insert_sim AD h root t value :
  tree_at h root t -> (exists n, is_rb t n) -> color t = BLACK ->
  wp (Insert AD root value) h (fun res h' =>
    exists t', ains AD (fresh (dom h)) value t = Some (res.1, t') /\ tree_at h' res.2 t' /\
      (res.1 = false -> h' = h) /\
      (forall k, k ∉ ids t -> k <> fresh (dom h) -> h' !! k = h !! k)).
Proof.
  intros Ht Hrb Hc.
  destruct (Insert_fuel_sim AD (S (size h)) h root t value Ht Hrb Hc (tree_at_le_size _ _ _ Ht))
    as (a & h' & Hr & HQ).
  exists a, h'. split; [unfold Insert; exact Hr|exact HQ].
Qed.

Lemma Remove_sim h root t value res t' :
  tree_at h root t -> arem value t = Some (res, t') ->
  wp (Remove root value) h (fun r h' =>
    r = (res, ptr_of t') /\ rep h' None t' /\
    (res = None -> h' = h) /\
    (forall xi, res = Some xi -> exists c, h' !! xi = Some (mkNode c value None None None)) /\
    (forall k, k ∉ ids t -> h' !! k = h !! k)).
Proof.
  intros Ht Ha.
  destruct (Remove_fuel_sim (S (size h)) h root t value res t' Ht (tree_at_le_size _ _ _ Ht) Ha)
    as (a & h' & Hr & HQ).
  exists a, h'. split; [unfold Remove; exact Hr|exact HQ].
Qed.

Lemma Insert_inv AD h root t value :
  rb_inv AD h root t ->
  exists b root' h' t', Insert AD root value h = Some ((b, root'), h') /\ rb_inv AD h' root' t' /\
    (b = false -> t' = t /\ h' = h /\ root' = root /\ AD = false /\ value ∈ inorder t) /\
    (b = true -> ids t' = {[fresh (dom h)]} ∪ ids t /\
       (forall k, k ∉ ids t -> k <> fresh (dom h) -> h' !! k = h !! k) /\
       exists L R, inorder t = L ++ R /\ inorder t' = L ++ value :: R /\
       (AD = false -> value ∉ inorder t)).
Proof.
  intros (Ht & (n & Hrb) & Hc & Hs).
  pose proof Ht as (Hroot & Hrep & Hu).
  destruct (ains_ok AD (fresh (dom h)) value t n Hrb Hc Hu (fresh_notin h None t Hrep) Hs)
    as (b & t' & Ha & Hrb' & Hc' & Hu' & Hs' & Hf & Htr).
  destruct (Insert_sim AD h root t value Ht (ex_intro _ n Hrb) Hc)
    as ([b0 root'] & h' & Hrun & t'' & Ha' & Ht' & Hh & Hfr).
  simpl in *. rewrite Ha in Ha'. injection Ha' as <- <-.
  exists b, root', h', t'. split; [exact Hrun|]. split; [split; [exact Ht'|auto]|]. split.
  - intros Hb. destruct (Hf Hb) as (-> & HA & Hin). specialize (Hh Hb). subst h'.
    split; [reflexivity|]. split; [reflexivity|]. split; [|auto].
    destruct Ht' as (-> & _). symmetry. exact Hroot.
  - intros Hb. destruct (Htr Hb) as (Hids & HLR). split; [exact Hids|]. split; [exact Hfr|exact HLR].
Qed.

Lemma Remove_inv AD h root t value :
  rb_inv AD h root t ->
  exists res root' h' t', Remove root value h = Some ((res, root'), h') /\ rb_inv AD h' root' t' /\
    (res = None -> t' = t /\ h' = h /\ root' = root /\ value ∉ inorder t) /\
    (forall xi, res = Some xi -> xi ∈ ids t /\ ids t' = ids t ∖ {[xi]} /\
       (exists c, h' !! xi = Some (mkNode c value None None None)) /\
       (forall k, k ∉ ids t -> h' !! k = h !! k) /\
       exists P Q, inorder t = P ++ value :: Q /\ inorder t' = P ++ Q).
Proof.
  intros (Ht & (n & Hrb) & Hc & Hs).
  pose proof Ht as (Hroot & Hrep & Hu).
  destruct (arem_ok AD value t n Hrb Hc Hu Hs)
    as (res & t' & Ha & Hrb' & Hc' & Hu' & Hs' & Hnone & Hsome).
  destruct (Remove_sim h root t value res t' Ht Ha)
    as ([res0 root'] & h' & Hrun & [= -> ->] & Hrep' & Hh & Hxi & Hfr).
  exists res, (ptr_of t'), h', t'. split; [exact Hrun|].
  split; [split; [split; [reflexivity|split; assumption]|auto]|]. split.
  - intros Hr. destruct (Hnone Hr) as (-> & Hin). specialize (Hh Hr). subst h'.
    split; [reflexivity|]. split; [reflexivity|]. split; [symmetry; exact Hroot|exact Hin].
  - intros xi Hr. destruct (Hsome xi Hr) as (Hi & Hids & HPQ).
    split; [exact Hi|]. split; [exact Hids|]. split; [exact (Hxi xi Hr)|]. split; [exact Hfr|exact HPQ].
Qed.

Lemma rb_inv_empty AD : rb_inv AD ∅ None Leaf.
Proof.
  split; [split; [reflexivity|split; exact I]|]. split; [exists 0%nat; constructor|].
  split; [reflexivity|constructor].
Qed.

Lemma run_inv AD ops h root t :
  rb_inv AD h root t ->
  exists h' root' t', run AD ops h root = Some (h', root') /\ rb_inv AD h' root' t'.
Proof.
  revert h root t; induction ops as [|[v|v] ops IH]; intros h root t Hi; simpl.
  - eauto.
  - destruct (Insert_inv AD h root t v Hi) as (b & root' & h' & t' & -> & Hi' & _).
    exact (IH _ _ _ Hi').
  - destruct (Remove_inv AD h root t v Hi) as (res & root' & h' & t' & -> & Hi' & _).
    exact (IH _ _ _ Hi').
Qed.

Lemma reachable_inv AD h root t : reachable AD h root -> tree_at h root t -> rb_inv AD h root t.
Proof.
  intros (ops & Hrun) Ht.
  destruct (run_inv AD ops ∅ None Leaf (rb_inv_empty AD)) as (h' & root' & t' & Hrun' & Hi).
  rewrite Hrun in Hrun'. injection Hrun' as <- <-.
  pose proof Hi as (Ht' & _). rewrite (tree_at_det _ _ _ _ Ht Ht'). exact Hi.
Qed.

Lemma is_rb_props t n : is_rb t n -> no_red_red t /\ black_height t n.
Proof.
  induction 1 as [|i v l r n Hl IHl Hr IHr Hlc Hrc|i v l r n Hl IHl Hr IHr]; simpl.
  - auto.
  - destruct IHl, IHr. split; [split; auto|]. exists n. auto.
  - destruct IHl, IHr. split; [split; [discriminate|auto]|]. exists n. auto.
Qed.

Lemma rb_inv_valid AD h root t : rb_inv AD h root t -> valid AD h root.
Proof.
  intros (Ht & (n & Hrb) & Hc & Hs). exists t. split; [exact Ht|].
  destruct (is_rb_props t n Hrb). split; [apply sorted_bst; exact Hs|]. split; [auto|].
  split; [eauto|exact Hc].
Qed.

Lemma is_rb_height t n :
  is_rb t n -> (height t <= 2 * n + match color t with RED => 1 | BLACK => 0 end)%nat.
Proof.
  induction 1 as [|i v l r n Hl IHl Hr IHr Hlc Hrc|i v l r n Hl IHl Hr IHr]; simpl in *.
  - lia.
  - rewrite Hlc in IHl. rewrite Hrc in IHr. lia.
  - destruct (color l), (color r); lia.
Qed.

Lemma is_rb_count t n : is_rb t n -> (2 ^ n <= count t + 1)%nat.
Proof.
  induction 1; simpl; lia.
Qed.

Lemma rb_height_count t n : is_rb t n -> color t = BLACK -> (2 ^ height t <= (count t + 1) ^ 2)%nat.
Proof.
  intros Hrb Hc. pose proof (is_rb_height t n Hrb) as Hh. rewrite Hc in Hh.
  pose proof (is_rb_count t n Hrb) as Hn.
  transitivity (2 ^ (2 * n))%nat; [apply Nat.pow_le_mono_r; lia|].
  rewrite Nat.mul_comm, Nat.pow_mul_r. apply Nat.pow_le_mono_l. exact Hn.
Qed.

Lemma all_eq_move (P : list Z) v Q : (forall p, p ∈ P -> p = v) -> P ++ v :: Q = v :: P ++ Q.
Proof.
  induction P as [|x P IH]; intros HP; simpl; [reflexivity|].
  rewrite IH by (intros p Hp; apply HP; by apply list_elem_of_further).
  rewrite (HP x (list_elem_of_here _ _)). reflexivity.
Qed.

Lemma ord_antisym AD x y : ord AD x y -> ord AD y x -> x = y.
Proof. unfold ord; destruct AD; lia. Qed.

Lemma sorted_remove_same AD (L R P Q : list Z) v :
  StronglySorted (ord AD) (L ++ v :: R) -> L ++ v :: R = P ++ v :: Q -> L ++ R = P ++ Q.
Proof.
  revert P; induction L as [|x L IH]; intros [|y P] Hs Heq; simpl in *.
  - injection Heq as ->. reflexivity.
  - injection Heq as <- ->. inversion Hs as [|? ? Hs' Hf]; subst.
    rewrite Forall_forall in Hf.
    apply StronglySorted_app in Hs' as (Hx & _ & _).
    first [apply all_eq_move|symmetry; apply all_eq_move]. intros p Hp.
    apply ord_antisym with AD;
      first [apply Hx; [exact Hp|apply list_elem_of_here] | apply Hf, elem_of_app; left; exact Hp].
  - injection Heq as -> <-. inversion Hs as [|? ? Hs' Hf]; subst.
    rewrite Forall_forall in Hf.
    apply StronglySorted_app in Hs' as (Hx & _ & _).
    first [apply all_eq_move|symmetry; apply all_eq_move]. intros p Hp.
    apply ord_antisym with AD;
      first [apply Hx; [exact Hp|apply list_elem_of_here] | apply Hf, elem_of_app; left; exact Hp].
  - injection Heq as -> Heq. inversion Hs; subst. f_equal. eauto.
Qed.

(** colors and values *)

Lemma keeps_cv_refl h : keeps_cv h h.
Proof. intros k n Hk. eauto. Qed.

Lemma keeps_cv_trans h1 h2 h3 : keeps_cv h1 h2 -> keeps_cv h2 h3 -> keeps_cv h1 h3.
Proof.
  intros H12 H23 k n Hk. destruct (H12 k n Hk) as (n2 & H2 & Hc2 & Hv2).
  destruct (H23 k n2 H2) as (n3 & H3 & Hc3 & Hv3). exists n3. split; [exact H3|]. split; congruence.
Qed.

Lemma cvp_ret {A} (a : A) : cvp (ret a).
Proof. intros h a' h' [= _ <-]. apply keeps_cv_refl. Qed.

Lemma cvp_fail {A} : cvp (@fail A).
Proof. intros h a h' [=]. Qed.

Lemma cvp_bind {A B} (m : M A) (k : A -> M B) : cvp m -> (forall a, cvp (k a)) -> cvp (bind m k).
Proof.
  intros Hm Hk h b h'. unfold bind. destruct (m h) as [[a h1]|] eqn:E; [|discriminate].
  intros Hr. eapply keeps_cv_trans; [exact (Hm _ _ _ E)|exact (Hk a _ _ _ Hr)].
Qed.

Lemma cvp_assert b : cvp (assert b).
Proof. destruct b; [apply cvp_ret|apply cvp_fail]. Qed.

Lemma cvp_load p : cvp (load p).
Proof.
  intros h a h'. unfold load. destruct (h !! p); [intros [= _ <-]; apply keeps_cv_refl|discriminate].
Qed.

Lemma cvp_store_same p (f : RBTreeNode -> RBTreeNode) :
  (forall n, _color (f n) = _color n /\ _value (f n) = _value n) ->
  cvp (n <- load p;; store p (f n)).
Proof.
  intros Hf h a h'. unfold bind, load, store. destruct (h !! p) as [n|] eqn:E; [|discriminate].
  intros [= _ <-] k n' Hk. destruct (decide (k = p)) as [->|Hne].
  - rewrite lookup_insert_eq. exists (f n). rewrite E in Hk. injection Hk as <-. split; [reflexivity|apply Hf].
  - rewrite lookup_insert_ne by congruence. eauto.
Qed.

Lemma cvp_get_left p : cvp (get_left p).
Proof. apply cvp_bind; [apply cvp_load|intros; apply cvp_ret]. Qed.
Lemma cvp_get_right p : cvp (get_right p).
Proof. apply cvp_bind; [apply cvp_load|intros; apply cvp_ret]. Qed.
Lemma cvp_get_parent p : cvp (get_parent p).
Proof. apply cvp_bind; [apply cvp_load|intros; apply cvp_ret]. Qed.
Lemma cvp_get_color p : cvp (get_color p).
Proof. apply cvp_bind; [apply cvp_load|intros; apply cvp_ret]. Qed.
Lemma cvp_get_value p : cvp (get_value p).
Proof. apply cvp_bind; [apply cvp_load|intros; apply cvp_ret]. Qed.
Lemma cvp_set_left p q : cvp (set_left p q).
Proof. apply cvp_store_same. auto. Qed.
Lemma cvp_set_right p q : cvp (set_right p q).
Proof. apply cvp_store_same. auto. Qed.
Lemma cvp_set_parent p q : cvp (set_parent p q).
Proof. apply cvp_store_same. auto. Qed.

Ltac cvp_tac :=
  repeat first
    [ apply cvp_ret | apply cvp_fail | apply cvp_assert | apply cvp_get_left
    | apply cvp_get_right | apply cvp_get_parent | apply cvp_get_color | apply cvp_get_value
    | apply cvp_set_left | apply cvp_set_right | apply cvp_set_parent
    | apply cvp_bind; [|intros ?]
    | match goal with |- cvp (match ?x with _ => _ end) => destruct x end
    | progress cbv zeta ].

Lemma cvp_LeftRotate i : cvp (LeftRotate i).
Proof. unfold LeftRotate. cvp_tac. Qed.

Lemma cvp_RightRotate i : cvp (RightRotate i).
Proof. unfold RightRotate. cvp_tac. Qed.

Lemma is_rb_S_node s m :
  is_rb s (S m) ->
  exists c' j w sl sr, s = Node c' j w sl sr /\ (c' = RED -> sl <> Leaf /\ sr <> Leaf).
Proof.
  intros H. inversion H as [|j w sl sr n Hl Hr Hlc Hrc|j w sl sr n Hl Hr]; subst.
  - exists RED, j, w, sl, sr. split; [reflexivity|]. intros _.
    split; intros ->; apply is_rb_leaf_inv in Hl || apply is_rb_leaf_inv in Hr; discriminate.
  - exists BLACK, j, w, sl, sr. split; [reflexivity|discriminate].
Qed.

(** ** Search, the minimum loop and sequences of operations *)

Lemma rep_parent_none h par t k :
  rep h par t -> k ∈ ids t ->
  exists nd, h !! k = Some nd /\ (_parent nd = None <-> par = None /\ ptr_of t = Some k).
Proof.
  revert par; induction t as [|c i v l IHl r IHr]; intros par Hr Hk; [set_solver|].
  destruct Hr as (Hi & Hl & Hr). simpl in Hk.
  destruct (decide (k = i)) as [->|Hne].
  - eexists. split; [exact Hi|]. simpl. split; [tauto|intros [-> _]; reflexivity].
  - assert (Hlr : k ∈ ids l \/ k ∈ ids r) by set_solver.
    destruct Hlr as [Hk'|Hk'];
      [destruct (IHl (Some i) Hl Hk') as (nd & Hnd & Hiff)|destruct (IHr (Some i) Hr Hk') as (nd & Hnd & Hiff)];
      exists nd; (split; [exact Hnd|]); simpl; split;
      [intros E; apply Hiff in E as [E _]; discriminate| intros [_ E]; congruence
      |intros E; apply Hiff in E as [E _]; discriminate| intros [_ E]; congruence].
Qed.

Lemma count_inorder t : count t = length (inorder t).
Proof. induction t as [|c i v l IHl r IHr]; simpl; [reflexivity|]. rewrite length_app; simpl; lia. Qed.

Lemma inorder_plug_in x p w : w ∈ inorder x -> w ∈ inorder (plug x p).
Proof.
  revert x; induction p as [|f p IH]; intros x Hw; simpl; [exact Hw|].
  apply IH. destruct f; simpl; set_solver.
Qed.

Lemma search_z_spec AD h root t value :
  tree_at h root t -> StronglySorted (ord AD) (inorder t) ->
  (exists k c par l r, Search root value h = Some (Some k, h) /\ k ∈ ids t /\
     h !! k = Some (mkNode c value par l r) /\ value ∈ inorder t) \/
  (Search root value h = Some (None, h) /\ value ∉ inorder t).
Proof.
  intros Ht Hs. pose proof (tree_at_le_size h root t Ht) as Hle.
  destruct Ht as (-> & Hrep & _).
  pose proof (Search_loop_sim (S (size h)) value t [] h None Hrep Hle) as Hsl.
  unfold Search. rewrite Hsl.
  destruct (search_z value t []) as [x q] eqn:Hz. simpl.
  destruct x as [|c i v l r].
  - right. split; [reflexivity|]. exact (search_z_notin AD value t [] q Hs Hz).
  - left. pose proof (search_z_found value t [] c i v l r q Hz) as ->.
    destruct (search_z_plug value t [] _ _ Hz) as (Hpl & _). simpl in Hpl.
    rewrite <- Hpl in Hrep.
    exists i, c, (parent_of q), (ptr_of l), (ptr_of r).
    split; [reflexivity|]. split; [rewrite <- Hpl, ids_plug; simpl; set_solver|].
    split; [exact (rep_at h c i value l r q Hrep)|].
    rewrite <- Hpl. apply inorder_plug_in. simpl. set_solver.
Qed.

Lemma leftmost_props h t p x q par :
  leftmost t p = (x, q) -> rep h par t ->
  (exists par', rep h par' x) /\ ids x ⊆ ids t /\ exists s, inorder t = inorder x ++ s.
Proof.
  revert p par; induction t as [|c i v l IHl r IHr]; intros p par Hlm Hr.
  - simpl in Hlm. injection Hlm as <- _. split; [eauto|]. split; [set_solver|]. exists []. reflexivity.
  - destruct l as [|cl il vl ll lr] eqn:El.
    + simpl in Hlm. injection Hlm as <- _. split; [eauto|]. split; [set_solver|].
      exists []. rewrite app_nil_r. reflexivity.
    + change (leftmost (Node cl il vl ll lr) (FL c i v r :: p) = (x, q)) in Hlm.
      destruct Hr as (_ & Hl & _).
      destruct (IHl _ _ Hlm Hl) as (Hx & Hsub & s & Hs).
      split; [exact Hx|]. split; [simpl in *; set_solver|].
      exists (s ++ v :: inorder r). cbn [inorder]. cbn [inorder] in Hs. rewrite Hs.
      rewrite <- !app_assoc. reflexivity.
Qed.

Lemma sorted_mid {T} (R : T -> T -> Prop) P v Q :
  StronglySorted R (P ++ v :: Q) -> Forall (fun x => R x v) P /\ Forall (R v) Q.
Proof.
  induction P as [|a P IH]; simpl; intros Hs.
  - apply StronglySorted_inv in Hs as [_ HF]. split; [constructor|exact HF].
  - apply StronglySorted_inv in Hs as [Hs HF]. destruct (IH Hs) as [H1 H2].
    split; [|exact H2]. constructor; [|exact H1].
    rewrite Forall_app in HF. destruct HF as [_ HF]. inversion HF; assumption.
Qed.

Lemma sorted_lt_NoDup (l : list Z) : StronglySorted (ord false) l -> NoDup l.
Proof.
  induction 1 as [|a l Hs IH HF]; constructor; [|exact IH].
  intros Hin. rewrite Forall_forall in HF. specialize (HF a Hin). unfold ord in HF. lia.
Qed.

Lemma sorted_ord_lt (l : list Z) : StronglySorted (ord false) l -> StronglySorted Z.lt l.
Proof.
  induction 1 as [|a l Hs IH HF]; constructor; [exact IH|].
  rewrite Forall_forall in *. intros x Hx. exact (HF x Hx).
Qed.

Lemma remove_one_in v l : v ∈ l -> l ≡ₚ v :: remove_one v l.
Proof.
  induction l as [|x l IH]; simpl; intros Hin; [apply not_elem_of_nil in Hin; contradiction|].
  destruct (Z.eqb_spec x v) as [->|Hne]; [reflexivity|].
  apply elem_of_cons in Hin as [->|Hin]; [contradiction|].
  rewrite (IH Hin) at 1. constructor.
Qed.

Lemma remove_one_notin v l : v ∉ l -> remove_one v l = l.
Proof.
  induction l as [|x l IH]; simpl; intros Hin; [reflexivity|].
  destruct (Z.eqb_spec x v) as [->|Hne]; [set_solver|]. rewrite IH by set_solver. reflexivity.
Qed.

Lemma run_bag AD ops : forall h root t l,
  rb_inv AD h root t -> inorder t ≡ₚ l ->
  exists h' root' t', run AD ops h root = Some (h', root') /\ rb_inv AD h' root' t' /\
    inorder t' ≡ₚ bag_run AD ops l.
Proof.
  induction ops as [|o ops IH]; intros h root t l Hi Hp.
  - exists h, root, t. auto.
  - destruct o as [v|v]; cbn [run].
    + destruct (Insert_inv AD h root t v Hi) as (b & root' & h' & t' & Hrun & Hi' & Hf & Htr).
      rewrite Hrun. apply (IH h' root' t' _ Hi'). cbn [bag_op].
      destruct b.
      * destruct (Htr eq_refl) as (_ & _ & L & R & HLR & HLvR & Hn).
        assert (E : inorder t' ≡ₚ v :: l) by (rewrite HLvR, <- Hp, HLR; symmetry; apply Permutation_middle).
        destruct AD; [exact E|]. rewrite bool_decide_false; [exact E|].
        rewrite <- Hp. exact (Hn eq_refl).
      * destruct (Hf eq_refl) as (-> & _ & _ & -> & Hin).
        rewrite bool_decide_true; [exact Hp|]. rewrite <- Hp. exact Hin.
    + destruct (Remove_inv AD h root t v Hi) as (res & root' & h' & t' & Hrun & Hi' & Hn & Hs).
      rewrite Hrun. apply (IH h' root' t' _ Hi'). cbn [bag_op].
      destruct res as [xi|].
      * destruct (Hs xi eq_refl) as (_ & _ & _ & _ & P & Q & HPQ & HPQ').
        assert (Hin : v ∈ l) by (rewrite <- Hp, HPQ; set_solver).
        pose proof (remove_one_in v l Hin) as Hr1.
        rewrite HPQ'. apply (Permutation_cons_inv (a := v)). rewrite <- Hr1, <- Hp, HPQ.
        apply Permutation_middle.
      * destruct (Hn eq_refl) as (-> & _ & _ & Hin).
        rewrite remove_one_notin; [exact Hp|]. rewrite <- Hp. exact Hin.
Qed.

(** ** Binary tree traversals and swizzles *)
Close Scope Z_scope.

Section BinTreeProofs.
Context {T : Type}.
Implicit Types (t l r c : BinTree T) (o : list T) (out : option (list T)) (q : list (@qnode T)).

Lemma PreOrder_app t : forall o, PreOrder t (Some o) = Some (o ++ bvals t).
Proof.
  induction t as [|v l IHl r IHr]; intros o; simpl; [rewrite app_nil_r; reflexivity|].
  rewrite IHl, IHr, <- !app_assoc. reflexivity.
Qed.

Lemma InOrder_app t : exists a, (forall o, InOrder t (Some o) = Some (o ++ a)) /\ a ≡ₚ bvals t.
Proof.
  induction t as [|v l IHl r IHr]; simpl; [exists []; split; [intros o; rewrite app_nil_r|]; reflexivity|].
  destruct IHl as (al & Hl & Pl). destruct IHr as (ar & Hr & Pr).
  exists (al ++ [v] ++ ar). split.
  - intros o. rewrite Hl. simpl. rewrite Hr, <- !app_assoc. reflexivity.
  - rewrite Pl, Pr. simpl. symmetry. apply Permutation_middle.
Qed.

Lemma PostOrder_app t : exists a, (forall o, PostOrder t (Some o) = Some (o ++ a)) /\ a ≡ₚ bvals t.
Proof.
  induction t as [|v l IHl r IHr]; simpl; [exists []; split; [intros o; rewrite app_nil_r|]; reflexivity|].
  destruct IHl as (al & Hl & Pl). destruct IHr as (ar & Hr & Pr).
  exists (al ++ ar ++ [v]). split.
  - intros o. rewrite Hl, Hr. simpl. rewrite <- !app_assoc. reflexivity.
  - rewrite Pl, Pr, app_assoc. rewrite <- Permutation_cons_append. reflexivity.
Qed.

Lemma PreOrder_None t : PreOrder t None = None.
Proof. induction t as [|v l IHl r IHr]; simpl; [reflexivity|]. rewrite IHl. exact IHr. Qed.

Lemma InOrder_None t : InOrder t None = None.
Proof. induction t as [|v l IHl r IHr]; simpl; [reflexivity|]. rewrite IHl. exact IHr. Qed.

Lemma PostOrder_None t : PostOrder t None = None.
Proof. induction t as [|v l IHl r IHr]; simpl; [reflexivity|]. rewrite IHl, IHr. reflexivity. Qed.

Lemma qsize_app q1 q2 : qsize (q1 ++ q2) = (qsize q1 + qsize q2)%nat.
Proof. unfold qsize. apply sum_list_with_app. Qed.

Lemma qsize_push_child c : qsize (push_child c) = bsize c.
Proof. destruct c; simpl; unfold qsize; simpl; lia. Qed.

Lemma out_app_nil out : out_app out [] = out.
Proof. destruct out; simpl; [rewrite app_nil_r|]; reflexivity. Qed.

Lemma out_app_app out a b : out_app (out_app out a) b = out_app out (a ++ b).
Proof. destruct out; simpl; [rewrite app_assoc|]; reflexivity. Qed.

Lemma push_back_out_app v out : push_back v out = out_app out [v].
Proof. destruct out; reflexivity. Qed.

Lemma LevelOrder_loop_split q : forall s out fuel,
  (qsize q + qsize s < fuel)%nat ->
  LevelOrder_loop fuel (q ++ s) out =
  LevelOrder_loop (fuel - length q) (s ++ qchildren q) (out_app out (qroots q)).
Proof.
  induction q as [|[[v l] r] q IH]; intros s out fuel Hf.
  - simpl. rewrite app_nil_r, out_app_nil, Nat.sub_0_r. reflexivity.
  - destruct fuel as [|fuel]; [unfold qsize in Hf; simpl in Hf; lia|].
    simpl. rewrite <- app_assoc.
    rewrite (IH (s ++ push_child l ++ push_child r)).
    + unfold qchildren at 2. simpl. fold (qchildren q). rewrite <- !app_assoc.
      rewrite push_back_out_app, out_app_app. reflexivity.
    + rewrite !qsize_app, !qsize_push_child. unfold qsize in *. simpl in *. lia.
Qed.

Lemma qdepth_0 q : qdepth q 0 = qroots q.
Proof. induction q as [|[[v l] r] q IH]; simpl; [reflexivity|]. unfold qdepth in *. simpl. rewrite IH. reflexivity. Qed.

Lemma depth_vals_push_child c d : concat (map (fun n => depth_vals (qtree n) d) (push_child c)) = depth_vals c d.
Proof. destruct c; simpl; [reflexivity|]. rewrite app_nil_r. reflexivity. Qed.

Lemma qdepth_S q d : qdepth q (S d) = qdepth (qchildren q) d.
Proof.
  induction q as [|[[v l] r] q IH]; [reflexivity|].
  unfold qdepth, qchildren in *. simpl. rewrite IH, !map_app, !concat_app.
  rewrite !depth_vals_push_child. reflexivity.
Qed.

Lemma qdepth_levels q H :
  concat (map (qdepth q) (seq 0 (S H))) = qroots q ++ concat (map (qdepth (qchildren q)) (seq 0 H)).
Proof.
  rewrite <- qdepth_0. simpl. f_equal. rewrite <- seq_shift, map_map.
  f_equal. apply map_ext. intros d. apply qdepth_S.
Qed.

Lemma qsize_children q : (qsize (qchildren q) + length q = qsize q)%nat.
Proof.
  induction q as [|[[v l] r] q IH]; [reflexivity|].
  unfold qchildren in *. simpl. rewrite !qsize_app, !qsize_push_child.
  unfold qsize in *. simpl in *. lia.
Qed.

Lemma qchildren_height q H :
  Forall (fun n => bheight (qtree n) <= S H)%nat q -> Forall (fun n => bheight (qtree n) <= H)%nat (qchildren q).
Proof.
  induction q as [|[[v l] r] q IH]; intros Hq; [constructor|].
  apply Forall_cons in Hq as [Hn Hq]. unfold qchildren. simpl. fold (qchildren q).
  simpl in Hn. apply Forall_app; split; [apply Forall_app; split|exact (IH Hq)];
    [destruct l|destruct r]; simpl; constructor; simpl in *; try constructor; lia.
Qed.

Lemma LevelOrder_loop_levels H : forall q out fuel,
  Forall (fun n => bheight (qtree n) <= H)%nat q -> (qsize q < fuel)%nat ->
  LevelOrder_loop fuel q out = Some (out_app out (concat (map (qdepth q) (seq 0 H)))).
Proof.
  induction H as [|H IH]; intros q out fuel Hh Hf.
  - destruct q as [|[[v l] r] q]; [|apply Forall_cons in Hh as [Hn _]; simpl in Hn; lia].
    destruct fuel; [simpl in Hf; lia|]. simpl. rewrite out_app_nil. reflexivity.
  - rewrite <- (app_nil_r q) at 1. rewrite LevelOrder_loop_split by (unfold qsize at 2; simpl; lia).
    rewrite app_nil_l, (IH (qchildren q)).
    + rewrite out_app_app, qdepth_levels. reflexivity.
    + exact (qchildren_height q H Hh).
    + pose proof (qsize_children q). lia.
Qed.

Lemma depth_vals_high t d : (bheight t <= d)%nat -> depth_vals t d = [].
Proof.
  revert d; induction t as [|v l IHl r IHr]; intros d Hd; simpl; [reflexivity|].
  destruct d as [|d]; simpl in Hd; [lia|]. rewrite IHl, IHr by lia. reflexivity.
Qed.

Lemma concat_map_app {A} (f g : nat -> list A) (ds : list nat) :
  concat (map (fun d => f d ++ g d) ds) ≡ₚ concat (map f ds) ++ concat (map g ds).
Proof.
  induction ds as [|d ds IH]; simpl; [reflexivity|]. rewrite IH, <- !app_assoc.
  apply Permutation_app_head. rewrite !app_assoc. apply Permutation_app_tail. apply Permutation_app_comm.
Qed.

Lemma levels_perm t : forall H, (bheight t <= H)%nat ->
  concat (map (depth_vals t) (seq 0 H)) ≡ₚ bvals t.
Proof.
  induction t as [|v l IHl r IHr]; intros H Hh.
  - simpl. clear. induction (seq 0 H); simpl; [reflexivity|]. exact IHl.
  - destruct H as [|H]; simpl in Hh; [lia|]. simpl. constructor.
    rewrite <- seq_shift, map_map. simpl. rewrite concat_map_app.
    apply Permutation_app; [apply IHl|apply IHr]; lia.
Qed.

End BinTreeProofs.

Section SwizzleProofs.
Context {F : Type} (zero : F).

Lemma existsb_eqb_In (x : nat) l : existsb (Nat.eqb x) l = true <-> x ∈ l.
Proof.
  rewrite existsb_exists, list_elem_of_In. split.
  - intros (y & Hy & E). apply Nat.eqb_eq in E. subst. exact Hy.
  - intros Hx. exists x. split; [exact Hx|apply Nat.eqb_refl].
Qed.

Lemma AreDifferentIndices_spec f rest : AreDifferentIndices f rest = true <-> NoDup (f :: rest).
Proof.
  revert f; induction rest as [|s rest IH]; intros f; simpl.
  - split; [intros _; constructor; [set_solver|constructor]|reflexivity].
  - destruct (Nat.eqb_spec f s) as [->|Hne].
    + split; [discriminate|]. intros Hn. inversion Hn. set_solver.
    + destruct (existsb (Nat.eqb f) rest) eqn:E.
      * apply existsb_eqb_In in E. split; [discriminate|]. intros Hn. inversion Hn. set_solver.
      * rewrite IH. split.
        -- intros Hn. constructor; [|exact Hn]. intros Hin. apply elem_of_cons in Hin as [->|Hin]; [lia|].
           apply not_true_iff_false in E. apply E, existsb_eqb_In, Hin.
        -- intros Hn. inversion Hn; assumption.
Qed.

Lemma swizzle_read_eq data idx : forall j res, (j + length idx <= length res)%nat ->
  swizzle_read zero data idx j res = take j res ++ (at_index zero data <$> idx) ++ drop (j + length idx) res.
Proof.
  induction idx as [|i idx IH]; intros j res Hl; simpl.
  - rewrite Nat.add_0_r, take_drop. reflexivity.
  - simpl in Hl. rewrite IH by (rewrite length_insert; lia).
    rewrite (take_S_r _ _ (at_index zero data i)) by (apply list_lookup_insert_eq; lia).
    rewrite take_insert_ge by lia. rewrite drop_insert_lt by lia.
    rewrite <- app_assoc, Nat.add_succ_r. reflexivity.
Qed.

Lemma VectorSwizzle_get_eq f rest data :
  VectorSwizzle_get zero f rest data = at_index zero data <$> (f :: rest).
Proof.
  unfold VectorSwizzle_get. rewrite swizzle_read_eq by (rewrite length_replicate; lia).
  simpl. rewrite drop_replicate, Nat.sub_diag, app_nil_r. reflexivity.
Qed.

Lemma swizzle_write_length data idx j vec : length (swizzle_write zero data idx j vec) = length data.
Proof.
  revert data j; induction idx as [|i idx IH]; intros data j; simpl; [reflexivity|].
  rewrite IH, length_insert. reflexivity.
Qed.

Lemma swizzle_write_notin data idx j vec p :
  p ∉ idx -> swizzle_write zero data idx j vec !! p = data !! p.
Proof.
  revert data j; induction idx as [|i idx IH]; intros data j Hp; simpl; [reflexivity|].
  rewrite IH by set_solver. apply list_lookup_insert_ne. set_solver.
Qed.

Lemma swizzle_write_in data idx : forall j vec k i,
  NoDup idx -> idx !! k = Some i -> (i < length data)%nat ->
  swizzle_write zero data idx j vec !! i = Some (at_index zero vec (j + k)).
Proof.
  revert data; induction idx as [|i0 idx IH]; intros data j vec k i Hn Hk Hi; [discriminate|].
  apply NoDup_cons in Hn as [Hn0 Hn]. simpl.
  destruct k as [|k]; simpl in Hk.
  - injection Hk as <-. rewrite swizzle_write_notin by exact Hn0.
    rewrite Nat.add_0_r. apply list_lookup_insert_eq. exact Hi.
  - rewrite (IH _ (S j) vec k i Hn Hk) by (rewrite length_insert; exact Hi).
    rewrite Nat.add_succ_r. reflexivity.
Qed.

End SwizzleProofs.

Lemma LevelOrder_eq {T} (v : T) l r out :
  LevelOrder v l r out =
  Some (out_app out (concat (map (depth_vals (BNode v l r)) (seq 0 (bheight (BNode v l r)))))).
Proof.
  unfold LevelOrder. rewrite (LevelOrder_loop_levels (bheight (BNode v l r))).
  - rewrite (map_ext (qdepth [(v, l, r)]) (depth_vals (BNode v l r)));
      [reflexivity|intros d; unfold qdepth; cbn [map concat qtree]; apply app_nil_r].
  - constructor; [simpl; lia|constructor].
  - unfold qsize. simpl. lia.
Qed.

Open Scope Z_scope.

(** * Claims *)

(** the demo tree is reachable, and is the tree of the demo heap *)
Ltac demo_reach := exists demo_ops; vm_compute; reflexivity.

Ltac demo_at :=
  split; [vm_compute; reflexivity|];
  split; [ cbn [rep demo_tree demo_left demo_right plug fill]; repeat split; vm_compute; reflexivity
         | apply uniq_NoDup; apply (bool_decide_unpack _); vm_compute; reflexivity ].

(** C1: every sequence of Insert and Remove calls from the empty tree
    runs to completion and leaves a tree satisfying the invariants of
    section 3: BST order, parent/child symmetry with a parentless root
    ([tree_at]), no red node with a red child, equal black heights and a
    black root.  Every prefix of a sequence is itself a sequence, so the
    invariants hold after each call. *)
Theorem run_from_empty_valid AD ops :
  exists h root, run AD ops ∅ None = Some (h, root) /\ valid AD h root.
Proof.
  destruct (run_inv AD ops ∅ None Leaf (rb_inv_empty AD)) as (h & root & t & Hr & Hi).
  exists h, root. split; [exact Hr|]. exact (rb_inv_valid _ _ _ _ Hi).
Qed.

(** C2: on a tree satisfying the invariants ([rb_inv]), Insert returns false
    exactly when duplicates are disallowed and the value is present; then
    the heap and the root are unchanged.  When it returns true, the value
    is added to the in-order sequence. *)
Theorem Insert_result AD h root t value :
  rb_inv AD h root t ->
  exists b root' h', Insert AD root value h = Some ((b, root'), h') /\
    (b = false <-> AD = false /\ value ∈ inorder t) /\
    (b = false -> h' = h /\ root' = root) /\
    (b = true -> exists t', tree_at h' root' t' /\
       exists L R, inorder t = L ++ R /\ inorder t' = L ++ value :: R).
Proof.
  intros Hi.
  destruct (Insert_inv AD h root t value Hi)
    as (b & root' & h' & t' & Hrun & (Ht' & _) & Hf & Htr).
  exists b, root', h'. split; [exact Hrun|]. split; [split|split].
  - intros Hb. destruct (Hf Hb) as (_ & _ & _ & HA & Hin). auto.
  - intros (HA & Hin). destruct b; [|reflexivity].
    destruct (Htr eq_refl) as (_ & _ & L & R & _ & _ & Hn). exfalso. exact (Hn HA Hin).
  - intros Hb. destruct (Hf Hb) as (_ & -> & -> & _). auto.
  - intros Hb. destruct (Htr Hb) as (_ & _ & L & R & H1 & H2 & _).
    exists t'. split; [exact Ht'|]. eauto.
Qed.

Lemma Insert_result_witness :
  rb_inv false demo_heap demo_root demo_tree /\
  exists b root' h', Insert false demo_root 3 demo_heap = Some ((b, root'), h') /\
    (b = false <-> false = false /\ 3 ∈ inorder demo_tree) /\
    (b = false -> h' = demo_heap /\ root' = demo_root) /\
    (b = true -> exists t', tree_at h' root' t' /\
       exists L R, inorder demo_tree = L ++ R /\ inorder t' = L ++ 3 :: R).
Proof.
  assert (Hi : rb_inv false demo_heap demo_root demo_tree)
    by (apply reachable_inv; [demo_reach|demo_at]).
  split; [exact Hi|]. exact (Insert_result false demo_heap demo_root demo_tree 3 Hi).
Defined.

(** C3: on a tree satisfying the invariants ([rb_inv]), Remove returns no node
    exactly when the value is not in the tree (in particular when the tree
    is empty), and then leaves the heap and the root unchanged.  Otherwise
    the returned node was in the tree, holds the value, has its parent and
    both children cleared, and no longer belongs to the remaining tree:
    neither the root nor any link of a remaining node points to it. *)
Theorem Remove_result AD h root t value :
  rb_inv AD h root t ->
  exists res root' h', Remove root value h = Some ((res, root'), h') /\
    (res = None <-> (value ∉ inorder t)) /\
    (res = None -> h' = h /\ root' = root) /\
    (forall xi, res = Some xi ->
       xi ∈ ids t /\ (exists c, h' !! xi = Some (mkNode c value None None None)) /\
       exists t', tree_at h' root' t' /\ (xi ∉ ids t') /\ root' <> Some xi /\
       forall k nd, k ∈ ids t' -> h' !! k = Some nd ->
         _parent nd <> Some xi /\ _left nd <> Some xi /\ _right nd <> Some xi).
Proof.
  intros Hi0.
  destruct (Remove_inv AD h root t value Hi0)
    as (res & root' & h' & t' & Hrun & (Ht' & _) & Hn & Hs).
  exists res, root', h'. split; [exact Hrun|]. split; [split|split].
  - intros Hres. destruct (Hn Hres) as (_ & _ & _ & Hin). exact Hin.
  - intros Hin. destruct res as [xi|]; [|reflexivity].
    destruct (Hs xi eq_refl) as (_ & _ & _ & _ & P & Q & HPQ & _).
    exfalso. apply Hin. rewrite HPQ. apply elem_of_app. right. apply list_elem_of_here.
  - intros Hres. destruct (Hn Hres) as (_ & -> & -> & _). auto.
  - intros xi Hres. destruct (Hs xi Hres) as (Hi & Hids & Hxi & _ & _).
    assert (Hnot : xi ∉ ids t') by (rewrite Hids; set_solver).
    split; [exact Hi|]. split; [exact Hxi|]. exists t'. split; [exact Ht'|].
    split; [exact Hnot|]. destruct Ht' as (Hroot & Hrep & _). split.
    + intros E. apply Hnot. apply ptr_of_in. congruence.
    + intros k nd Hk Hnd. destruct (rep_links h' None t' k nd Hrep Hk Hnd) as (A & B & C).
      split; [|split].
      * destruct A as [->|(j & -> & Hj)]; [discriminate|]. intros [= ->]. contradiction.
      * destruct B as [->|(j & -> & Hj)]; [discriminate|]. intros [= ->]. contradiction.
      * destruct C as [->|(j & -> & Hj)]; [discriminate|]. intros [= ->]. contradiction.
Qed.

Lemma Remove_result_witness :
  rb_inv false demo_heap demo_root demo_tree /\
  exists res root' h', Remove demo_root 3 demo_heap = Some ((res, root'), h') /\
    (res = None <-> (3 ∉ inorder demo_tree)) /\
    (res = None -> h' = demo_heap /\ root' = demo_root) /\
    (forall xi, res = Some xi ->
       xi ∈ ids demo_tree /\ (exists c, h' !! xi = Some (mkNode c 3 None None None)) /\
       exists t', tree_at h' root' t' /\ (xi ∉ ids t') /\ root' <> Some xi /\
       forall k nd, k ∈ ids t' -> h' !! k = Some nd ->
         _parent nd <> Some xi /\ _left nd <> Some xi /\ _right nd <> Some xi).
Proof.
  assert (Hi : rb_inv false demo_heap demo_root demo_tree)
    by (apply reachable_inv; [demo_reach|demo_at]).
  split; [exact Hi|]. exact (Remove_result false demo_heap demo_root demo_tree 3 Hi).
Defined.

(** C4: Search is the descent [search_z] from the root: it stops at the
    first node on the path whose value equals the requested one, goes left
    when the value is smaller and right otherwise, and returns no node
    exactly when the descent reaches an absent child.  The heap is
    returned unchanged. *)
Theorem Search_descent h root t value :
  tree_at h root t ->
  Search root value h = Some (ptr_of (fst (search_z value t [])), h).
Proof.
  intros Ht. pose proof (tree_at_le_size h root t Ht) as Hle.
  destruct Ht as (-> & Hrep & _).
  exact (Search_loop_sim (S (size h)) value t [] h None Hrep Hle).
Qed.

Lemma Search_descent_witness :
  tree_at demo_heap demo_root demo_tree /\
  Search demo_root 1 demo_heap = Some (ptr_of (fst (search_z 1 demo_tree [])), demo_heap).
Proof.
  split; [demo_at|]. apply Search_descent. demo_at.
Defined.

(** C5: LeftRotate at a node with a right child turns the heap into the
    representation of the rotated tree (the moved inner subtree, the two
    rotated nodes and the former parent's child slot all linked both
    ways), writes no address outside the tree, keeps the color and value
    of every node and the in-order sequence, and returns the former right
    child, which the caller stores in its pointer.  RightRotate is the
    mirror image. *)
Theorem rotations_spec :
  (forall h p c i v l c' j w rl rr,
    rep h None (plug (Node c i v l (Node c' j w rl rr)) p) ->
    uniq (plug (Node c i v l (Node c' j w rl rr)) p) ->
    exists h', LeftRotate i h = Some (j, h') /\
      rep h' None (plug (rotl (Node c i v l (Node c' j w rl rr))) p) /\
      (forall k, k ∉ ids (plug (Node c i v l (Node c' j w rl rr)) p) -> h' !! k = h !! k) /\
      keeps_cv h h' /\
      inorder (plug (rotl (Node c i v l (Node c' j w rl rr))) p) =
        inorder (plug (Node c i v l (Node c' j w rl rr)) p)) /\
  (forall h p c i v c' j w ll lr r,
    rep h None (plug (Node c i v (Node c' j w ll lr) r) p) ->
    uniq (plug (Node c i v (Node c' j w ll lr) r) p) ->
    exists h', RightRotate i h = Some (j, h') /\
      rep h' None (plug (rotr (Node c i v (Node c' j w ll lr) r)) p) /\
      (forall k, k ∉ ids (plug (Node c i v (Node c' j w ll lr) r) p) -> h' !! k = h !! k) /\
      keeps_cv h h' /\
      inorder (plug (rotr (Node c i v (Node c' j w ll lr) r)) p) =
        inorder (plug (Node c i v (Node c' j w ll lr) r) p)).
Proof.
  split.
  - intros h p c i v l c' j w rl rr Hrep Hu.
    destruct (LeftRotate_wp h p c i v l c' j w rl rr
                (fun a h' => a = j /\ rep h' None (plug (Node c' j w (Node c i v l rl) rr) p) /\
                   forall k, k ∉ ids (plug (Node c i v l (Node c' j w rl rr)) p) -> h' !! k = h !! k)
                Hrep Hu (fun h' H1 H2 => conj eq_refl (conj H1 H2)))
      as (a & h' & Hr & -> & H1 & H2).
    exists h'. split; [exact Hr|]. split; [exact H1|]. split; [exact H2|].
    split; [exact (cvp_LeftRotate i h j h' Hr)|].
    apply inorder_plug. simpl. rewrite <- !app_assoc. reflexivity.
  - intros h p c i v c' j w ll lr r Hrep Hu.
    destruct (RightRotate_wp h p c i v c' j w ll lr r
                (fun a h' => a = j /\ rep h' None (plug (Node c' j w ll (Node c i v lr r)) p) /\
                   forall k, k ∉ ids (plug (Node c i v (Node c' j w ll lr) r) p) -> h' !! k = h !! k)
                Hrep Hu (fun h' H1 H2 => conj eq_refl (conj H1 H2)))
      as (a & h' & Hr & -> & H1 & H2).
    exists h'. split; [exact Hr|]. split; [exact H1|]. split; [exact H2|].
    split; [exact (cvp_RightRotate i h j h' Hr)|].
    apply inorder_plug. simpl. rewrite <- !app_assoc. reflexivity.
Qed.

Lemma rotations_spec_witness :
  (rep demo_heap None (plug (Node BLACK 1%positive 5 demo_left demo_right) []) /\
   uniq (plug (Node BLACK 1%positive 5 demo_left demo_right) []) /\
   exists h', LeftRotate 1%positive demo_heap = Some (3%positive, h') /\
     rep h' None (plug (rotl (Node BLACK 1%positive 5 demo_left demo_right)) []) /\
     (forall k, k ∉ ids (plug (Node BLACK 1%positive 5 demo_left demo_right) []) -> h' !! k = demo_heap !! k) /\
     keeps_cv demo_heap h' /\
     inorder (plug (rotl (Node BLACK 1%positive 5 demo_left demo_right)) []) =
       inorder (plug (Node BLACK 1%positive 5 demo_left demo_right) [])) /\
  (rep demo_heap None (plug (Node BLACK 1%positive 5 demo_left demo_right) []) /\
   uniq (plug (Node BLACK 1%positive 5 demo_left demo_right) []) /\
   exists h', RightRotate 1%positive demo_heap = Some (2%positive, h') /\
     rep h' None (plug (rotr (Node BLACK 1%positive 5 demo_left demo_right)) []) /\
     (forall k, k ∉ ids (plug (Node BLACK 1%positive 5 demo_left demo_right) []) -> h' !! k = demo_heap !! k) /\
     keeps_cv demo_heap h' /\
     inorder (plug (rotr (Node BLACK 1%positive 5 demo_left demo_right)) []) =
       inorder (plug (Node BLACK 1%positive 5 demo_left demo_right) [])).
Proof.
  assert (Hrep : rep demo_heap None (plug (Node BLACK 1%positive 5 demo_left demo_right) []))
    by (cbn [rep plug fill demo_left demo_right]; repeat split; vm_compute; reflexivity).
  assert (Hu : uniq (plug (Node BLACK 1%positive 5 demo_left demo_right) []))
    by (apply uniq_NoDup; apply (bool_decide_unpack _); vm_compute; reflexivity).
  split; (split; [exact Hrep|]); (split; [exact Hu|]).
  - exact (proj1 rotations_spec demo_heap [] BLACK 1%positive 5 demo_left BLACK 3%positive 8 Leaf Leaf
             Hrep Hu).
  - exact (proj2 rotations_spec demo_heap [] BLACK 1%positive 5 BLACK 2%positive 3
             (Node RED 4%positive 1 Leaf Leaf) Leaf demo_right Hrep Hu).
Defined.

(** C6, as stated, fails when duplicates are disallowed and the value is
    already present: Insert returns false and leaves the tree as it is, and
    the following Remove takes out the value that was there before.  Here
    the tree holding only 1 loses it. *)
Lemma Insert_Remove_counterexample :
  exists h root t r1 h1 res r2 h2 t2,
    reachable false h root /\ tree_at h root t /\
    Insert false root 1 h = Some ((false, r1), h1) /\
    Remove r1 1 h1 = Some ((res, r2), h2) /\ tree_at h2 r2 t2 /\
    inorder t2 <> inorder t.
Proof.
  set (h := <[1%positive := mkNode BLACK 1 None None None]> (∅ : heap)).
  set (h2 := <[1%positive := mkNode BLACK 1 None None None]> (∅ : heap)).
  exists h, (Some 1%positive), (Node BLACK 1%positive 1 Leaf Leaf), (Some 1%positive), h,
    (Some 1%positive), None, h2, Leaf.
  split; [exists [OpInsert 1]; vm_compute; reflexivity|].
  split; [split; [reflexivity|split; [cbn [rep]; repeat split; vm_compute; reflexivity|]]|].
  { cbn [uniq ids]. repeat split; set_solver. }
  split; [vm_compute; reflexivity|].
  split; [vm_compute; reflexivity|].
  split; [split; [reflexivity|split; exact I]|].
  simpl. discriminate.
Qed.

(** C6, amended: on a tree satisfying the invariants ([rb_inv]), when
    Insert did add the value (it returned true), the
    Remove of the same value that follows gives back the in-order
    sequence from before the Insert.  With duplicates allowed the removed
    node may be another copy of the value; the sequence is the same. *)
Theorem Insert_Remove_roundtrip AD h root t value root1 h1 :
  rb_inv AD h root t ->
  Insert AD root value h = Some ((true, root1), h1) ->
  exists res root2 h2 t2, Remove root1 value h1 = Some ((res, root2), h2) /\
    tree_at h2 root2 t2 /\ inorder t2 = inorder t.
Proof.
  intros Hi Hins.
  destruct (Insert_inv AD h root t value Hi)
    as (b & root' & h' & t' & Hrun & Hi' & _ & Htr).
  rewrite Hins in Hrun. injection Hrun as <- <- <-.
  destruct (Htr eq_refl) as (_ & _ & L & R & HLR & HLvR & _).
  pose proof Hi' as (_ & _ & _ & Hs').
  destruct (Remove_inv AD h1 root1 t' value Hi')
    as (res & root2 & h2 & t2 & Hrun2 & (Ht2 & _) & Hn & Hsm).
  exists res, root2, h2, t2. split; [exact Hrun2|]. split; [exact Ht2|].
  destruct res as [xi|].
  - destruct (Hsm xi eq_refl) as (_ & _ & _ & _ & P & Q & HPQ & Ht2').
    rewrite Ht2', HLR. symmetry.
    rewrite HLvR in Hs'. apply (sorted_remove_same AD L R P Q value Hs').
    rewrite <- HLvR. exact HPQ.
  - destruct (Hn eq_refl) as (_ & _ & _ & Hin). exfalso. apply Hin. rewrite HLvR.
    apply elem_of_app. right. apply list_elem_of_here.
Qed.

Lemma Insert_Remove_roundtrip_witness :
  rb_inv false demo_heap demo_root demo_tree /\
  Insert false demo_root 4 demo_heap = Some ((true, Some 1%positive), demo_heap4) /\
  exists res root2 h2 t2, Remove (Some 1%positive) 4 demo_heap4 = Some ((res, root2), h2) /\
    tree_at h2 root2 t2 /\ inorder t2 = inorder demo_tree.
Proof.
  assert (Hi : rb_inv false demo_heap demo_root demo_tree)
    by (apply reachable_inv; [demo_reach|demo_at]).
  split; [exact Hi|]. split; [vm_compute; reflexivity|].
  apply (Insert_Remove_roundtrip false demo_heap demo_root demo_tree 4 _ _ Hi).
  vm_compute. reflexivity.
Defined.

(** C7: a tree built by the public operations with [n] nodes has height
    at most [2 log2 (n + 1)]; in natural numbers, [2 ^ height <= (n + 1) ^ 2]. *)
Theorem height_bound AD h root t :
  reachable AD h root -> tree_at h root t ->
  (2 ^ height t <= (count t + 1) ^ 2)%nat /\
  (INR (height t) <= 2 * (ln (INR (count t + 1)) / ln 2))%R.
Proof.
  intros Hr Ht. destruct (reachable_inv AD h root t Hr Ht) as (_ & (n & Hrb) & Hc & _).
  pose proof (rb_height_count t n Hrb Hc) as Hnat. split; [exact Hnat|].
  apply le_INR in Hnat. rewrite !pow_INR in Hnat.
  assert (H2 : (INR 2 = 2)%R) by (simpl; lra). rewrite H2 in Hnat.
  assert (Hpos : (0 < INR (count t + 1))%R) by (apply lt_0_INR; lia).
  assert (Hln2 : (0 < ln 2)%R) by (rewrite <- ln_1; apply ln_increasing; lra).
  assert (Hmono : forall x y, (0 < x)%R -> (x <= y)%R -> (ln x <= ln y)%R).
  { intros x y Hx Hxy. destruct (Rle_lt_or_eq_dec x y Hxy) as [Hl| ->].
    - left. apply ln_increasing; assumption.
    - right. reflexivity. }
  apply Hmono in Hnat; [|apply pow_lt; lra].
  rewrite !ln_pow in Hnat by lra.
  apply (Rmult_le_reg_r (ln 2)); [exact Hln2|].
  replace (2 * (ln (INR (count t + 1)) / ln 2) * ln 2)%R with (INR 2 * ln (INR (count t + 1)))%R
    by (rewrite H2; field; lra).
  exact Hnat.
Qed.

Lemma height_bound_witness :
  reachable false demo_heap demo_root /\ tree_at demo_heap demo_root demo_tree /\
  (2 ^ height demo_tree <= (count demo_tree + 1) ^ 2)%nat /\
  (INR (height demo_tree) <= 2 * (ln (INR (count demo_tree + 1)) / ln 2))%R.
Proof.
  split; [demo_reach|]. split; [demo_at|].
  apply (height_bound false demo_heap demo_root demo_tree); [demo_reach|demo_at].
Defined.

(** C8: on every tree satisfying the invariants ([rb_inv]: a
    red-black tree with a black root and sorted values), Search, Insert
    and Remove complete within any number of loop steps larger than the
    height of the tree: the descents go down one level per step, and the
    fixups go up one level per recursive call. *)
Theorem operations_terminate AD h root t value fuel :
  rb_inv AD h root t -> (height t < fuel)%nat ->
  Search_loop fuel root value h = Some (ptr_of (fst (search_z value t [])), h) /\
  (exists r h', Insert_fuel AD fuel root value h = Some (r, h')) /\
  (exists r h', Remove_fuel fuel root value h = Some (r, h')).
Proof.
  intros (Ht & (n & Hrb) & Hc & Hs) Hf.
  pose proof Ht as (Hroot & Hrep & Hu).
  split; [rewrite Hroot; exact (Search_loop_sim fuel value t [] h None Hrep Hf)|].
  split.
  - destruct (Insert_fuel_sim AD fuel h root t value Ht (ex_intro _ n Hrb) Hc Hf) as (a & h' & Hrun & _).
    eauto.
  - destruct (arem_ok AD value t n Hrb Hc Hu Hs) as (res & t' & Ha & _).
    destruct (Remove_fuel_sim fuel h root t value res t' Ht Hf Ha) as (a & h' & Hrun & _).
    eauto.
Qed.

Lemma operations_terminate_witness :
  rb_inv false demo_heap demo_root demo_tree /\
  (height demo_tree < 4)%nat /\
  Search_loop 4 demo_root 8 demo_heap = Some (ptr_of (fst (search_z 8 demo_tree [])), demo_heap) /\
  (exists r h', Insert_fuel false 4 demo_root 8 demo_heap = Some (r, h')) /\
  (exists r h', Remove_fuel 4 demo_root 8 demo_heap = Some (r, h')).
Proof.
  assert (Hi : rb_inv false demo_heap demo_root demo_tree)
    by (apply reachable_inv; [demo_reach|demo_at]).
  split; [exact Hi|]. split; [vm_compute; lia|].
  apply (operations_terminate false demo_heap demo_root demo_tree 8 4 Hi); vm_compute; lia.
Defined.

(** C9: when the deletion fixup is called on a black node that has a
    parent, in a red-black tree with a black root, the node's sibling is
    present, and when that sibling is red both its children are present,
    so the sibling recomputed after the red-sibling rotation is present
    too.  On the heap, [__Remove_Adjust] runs to its end without failing
    any of its assertions. *)
Theorem Remove_Adjust_sibling fuel h root i v l r f q n :
  tree_at h root (plug (Node BLACK i v l r) (f :: q)) ->
  is_rb (plug (Node BLACK i v l r) (f :: q)) n ->
  color (plug (Node BLACK i v l r) (f :: q)) = BLACK ->
  (length (f :: q) < fuel)%nat ->
  (exists c' j w sl sr, frame_sib f = Node c' j w sl sr /\ (c' = RED -> sl <> Leaf /\ sr <> Leaf)) /\
  exists root' h', Remove_Adjust fuel i root h = Some (root', h').
Proof.
  intros (Hroot & Hrep & Hu) Hrb Hc Hlen.
  destruct (rb_decompose _ _ _ Hrb Hc) as (m & b & Hx & Hctx & _).
  apply is_rb_black_inv in Hx as (m' & -> & _ & _).
  split.
  - apply ctx_cons_inv in Hctx as [(_ & _ & Hs & _)|(_ & _ & Hs & _)]; exact (is_rb_S_node _ _ Hs).
  - destruct (rem_fix_ok (length (f :: q)) (Node BLACK i v l r) (f :: q) m' b (le_n _) eq_refl
                ltac:(discriminate) Hctx) as (p' & Hf & _).
    destruct (Remove_Adjust_sim fuel BLACK i v l r (f :: q) h p' root Hf Hrep Hu Hroot Hlen)
      as (root' & h' & Hrun & _).
    eauto.
Qed.

Lemma Remove_Adjust_sibling_witness :
  tree_at demo_heap demo_root (plug demo_right [FR BLACK 1%positive 5 demo_left]) /\
  is_rb (plug demo_right [FR BLACK 1%positive 5 demo_left]) 2 /\
  color (plug demo_right [FR BLACK 1%positive 5 demo_left]) = BLACK /\
  (length [FR BLACK 1%positive 5 demo_left] < 3)%nat /\
  (exists c' j w sl sr, frame_sib (FR BLACK 1%positive 5 demo_left) = Node c' j w sl sr /\
     (c' = RED -> sl <> Leaf /\ sr <> Leaf)) /\
  exists root' h', Remove_Adjust 3 3%positive demo_root demo_heap = Some (root', h').
Proof.
  assert (Ht : tree_at demo_heap demo_root (plug demo_right [FR BLACK 1%positive 5 demo_left])) by demo_at.
  assert (Hrb : is_rb (plug demo_right [FR BLACK 1%positive 5 demo_left]) 2) by (repeat constructor).
  split; [exact Ht|]. split; [exact Hrb|]. split; [reflexivity|]. split; [simpl; lia|].
  exact (Remove_Adjust_sibling 3 demo_heap demo_root 3%positive 8 Leaf Leaf
           (FR BLACK 1%positive 5 demo_left) [] 2 Ht Hrb eq_refl ltac:(simpl; lia)).
Defined.

(** C10: LeftRotate at a node with a right child, followed by RightRotate
    at the node that took its place, gives back the heap as it was and
    the original pointer; symmetrically for RightRotate followed by
    LeftRotate. *)
Theorem rotation_round_trip :
  (forall h p c i v l c' j w rl rr,
    rep h None (plug (Node c i v l (Node c' j w rl rr)) p) ->
    uniq (plug (Node c i v l (Node c' j w rl rr)) p) ->
    exists h', LeftRotate i h = Some (j, h') /\ RightRotate j h' = Some (i, h)) /\
  (forall h p c i v c' j w ll lr r,
    rep h None (plug (Node c i v (Node c' j w ll lr) r) p) ->
    uniq (plug (Node c i v (Node c' j w ll lr) r) p) ->
    exists h', RightRotate i h = Some (j, h') /\ LeftRotate j h' = Some (i, h)).
Proof.
  split.
  - intros h p c i v l c' j w rl rr Hrep Hu.
    set (T := plug (Node c i v l (Node c' j w rl rr)) p) in *.
    set (T' := plug (Node c' j w (Node c i v l rl) rr) p).
    assert (Hids : ids T' = ids T) by (unfold T, T'; rewrite !ids_plug; simpl; set_solver).
    assert (Hu' : uniq T').
    { apply (uniq_idl T); [unfold T, T'; apply idl_plug; simpl; rewrite <- !app_assoc; reflexivity|exact Hu]. }
    destruct (LeftRotate_wp h p c i v l c' j w rl rr
                (fun a h' => a = j /\ rep h' None T' /\ forall k, k ∉ ids T -> h' !! k = h !! k)
                Hrep Hu (fun h' H1 H2 => conj eq_refl (conj H1 H2)))
      as (a & h' & Hr & -> & H1 & H2).
    destruct (RightRotate_wp h' p c' j w c i v l rl rr
                (fun a h'' => a = i /\ rep h'' None T /\ forall k, k ∉ ids T' -> h'' !! k = h' !! k)
                H1 Hu' (fun h'' H3 H4 => conj eq_refl (conj H3 H4)))
      as (a & h'' & Hr' & -> & H3 & H4).
    assert (Heq : h'' = h).
    { apply map_eq. intros k. destruct (decide (k ∈ ids T)) as [Hk|Hk].
      - exact (rep_same h h'' None T Hrep H3 k Hk).
      - rewrite H4 by (rewrite Hids; exact Hk). exact (H2 k Hk). }
    subst h''. exists h'. split; [exact Hr|exact Hr'].
  - intros h p c i v c' j w ll lr r Hrep Hu.
    set (T := plug (Node c i v (Node c' j w ll lr) r) p) in *.
    set (T' := plug (Node c' j w ll (Node c i v lr r)) p).
    assert (Hids : ids T' = ids T) by (unfold T, T'; rewrite !ids_plug; simpl; set_solver).
    assert (Hu' : uniq T').
    { apply (uniq_idl T); [unfold T, T'; apply idl_plug; simpl; rewrite <- !app_assoc; reflexivity|exact Hu]. }
    destruct (RightRotate_wp h p c i v c' j w ll lr r
                (fun a h' => a = j /\ rep h' None T' /\ forall k, k ∉ ids T -> h' !! k = h !! k)
                Hrep Hu (fun h' H1 H2 => conj eq_refl (conj H1 H2)))
      as (a & h' & Hr & -> & H1 & H2).
    destruct (LeftRotate_wp h' p c' j w ll c i v lr r
                (fun a h'' => a = i /\ rep h'' None T /\ forall k, k ∉ ids T' -> h'' !! k = h' !! k)
                H1 Hu' (fun h'' H3 H4 => conj eq_refl (conj H3 H4)))
      as (a & h'' & Hr' & -> & H3 & H4).
    assert (Heq : h'' = h).
    { apply map_eq. intros k. destruct (decide (k ∈ ids T)) as [Hk|Hk].
      - exact (rep_same h h'' None T Hrep H3 k Hk).
      - rewrite H4 by (rewrite Hids; exact Hk). exact (H2 k Hk). }
    subst h''. exists h'. split; [exact Hr|exact Hr'].
Qed.

Lemma rotation_round_trip_witness :
  (rep demo_heap None (plug (Node BLACK 1%positive 5 demo_left demo_right) []) /\
   uniq (plug (Node BLACK 1%positive 5 demo_left demo_right) []) /\
   exists h', LeftRotate 1%positive demo_heap = Some (3%positive, h') /\
     RightRotate 3%positive h' = Some (1%positive, demo_heap)) /\
  (rep demo_heap None (plug (Node BLACK 1%positive 5 demo_left demo_right) []) /\
   uniq (plug (Node BLACK 1%positive 5 demo_left demo_right) []) /\
   exists h', RightRotate 1%positive demo_heap = Some (2%positive, h') /\
     LeftRotate 2%positive h' = Some (1%positive, demo_heap)).
Proof.
  assert (Hrep : rep demo_heap None (plug (Node BLACK 1%positive 5 demo_left demo_right) []))
    by (cbn [rep plug fill demo_left demo_right]; repeat split; vm_compute; reflexivity).
  assert (Hu : uniq (plug (Node BLACK 1%positive 5 demo_left demo_right) []))
    by (apply uniq_NoDup; apply (bool_decide_unpack _); vm_compute; reflexivity).
  split; (split; [exact Hrep|]); (split; [exact Hu|]).
  - exact (proj1 rotation_round_trip demo_heap [] BLACK 1%positive 5 demo_left BLACK 3%positive 8
             Leaf Leaf Hrep Hu).
  - exact (proj2 rotation_round_trip demo_heap [] BLACK 1%positive 5 BLACK 2%positive 3
             (Node RED 4%positive 1 Leaf Leaf) Leaf demo_right Hrep Hu).
Defined.

(** * Further properties of the code *)

(** ** Red-black tree *)


Ltac demo_rep := cbn [rep demo_tree demo_left demo_right]; repeat split; vm_compute; reflexivity.


(** [IsRoot] on a node of the tree at [root] holds exactly for the root node (the root has no parent and every other node has one). *)
Theorem IsRoot_tree h root t k :
  tree_at h root t -> k ∈ ids t -> IsRoot k h = Some (bool_decide (root = Some k), h).
Proof.
  intros (-> & Hrep & _) Hk.
  destruct (rep_parent_none h None t k Hrep Hk) as (nd & Hnd & Hiff).
  unfold IsRoot, get_parent, load, bind, ret. rewrite Hnd.
  do 3 f_equal. apply bool_decide_ext. rewrite Hiff. tauto.
Qed.

Lemma IsRoot_tree_witness :
  tree_at demo_heap demo_root demo_tree /\ 2%positive ∈ ids demo_tree /\
  IsRoot 2%positive demo_heap = Some (bool_decide (demo_root = Some 2%positive), demo_heap).
Proof.
  assert (Ht : tree_at demo_heap demo_root demo_tree) by demo_at.
  assert (Hk : 2%positive ∈ ids demo_tree) by (cbn [ids demo_tree demo_left demo_right]; set_solver).
  split; [exact Ht|]. split; [exact Hk|]. exact (IsRoot_tree _ _ _ _ Ht Hk).
Defined.






(** [Search] on a sorted tree either returns a node of the tree holding the value, or returns null when the value is not in the tree; it never changes the heap. *)
Theorem Search_correct AD h root t value :
  tree_at h root t -> StronglySorted (ord AD) (inorder t) ->
  (exists k c par l r, Search root value h = Some (Some k, h) /\ k ∈ ids t /\
     h !! k = Some (mkNode c value par l r)) \/
  (Search root value h = Some (None, h) /\ value ∉ inorder t).
Proof.
  intros Ht Hs. destruct (search_z_spec AD h root t value Ht Hs)
    as [(k & c & par & l & r & H1 & H2 & H3 & _)|H]; [left; eauto 10|right; exact H].
Qed.

Lemma Search_correct_witness :
  tree_at demo_heap demo_root demo_tree /\ StronglySorted (ord false) (inorder demo_tree) /\
  ((exists k c par l r, Search demo_root 8 demo_heap = Some (Some k, demo_heap) /\ k ∈ ids demo_tree /\
     demo_heap !! k = Some (mkNode c 8 par l r)) \/
   (Search demo_root 8 demo_heap = Some (None, demo_heap) /\ 8 ∉ inorder demo_tree)).
Proof.
  assert (Ht : tree_at demo_heap demo_root demo_tree) by demo_at.
  assert (Hs : StronglySorted (ord false) (inorder demo_tree))
    by (cbn; repeat constructor; unfold ord; lia).
  split; [exact Ht|]. split; [exact Hs|]. exact (Search_correct false _ _ _ 8 Ht Hs).
Defined.

(** The loop of [Remove] that follows [_left] pointers stops at a node of the subtree with no left child, whose value is the first of the subtree in order. *)
Theorem min_loop_first fuel h par c i v l r :
  rep h par (Node c i v l r) -> (height (Node c i v l r) < fuel)%nat ->
  exists m mc mv mpar mr, min_loop fuel i h = Some (m, h) /\
    h !! m = Some (mkNode mc mv mpar None mr) /\ m ∈ ids (Node c i v l r) /\
    exists rest, inorder (Node c i v l r) = mv :: rest.
Proof.
  intros Hr Hf.
  destruct (min_loop_sim fuel c i v l r [] h par Hr Hf) as (m & Hm & Hrun).
  destruct (leftmost (Node c i v l r) []) as [x q] eqn:Hlm.
  destruct (leftmost_node c i v l r []) as (mc & mi & mv & mr & Hx). rewrite Hlm in Hx. simpl in Hx. subst x.
  simpl in Hm. injection Hm as <-.
  destruct (leftmost_props h _ _ _ _ par Hlm Hr) as ((par' & Hrx) & Hsub & s & Hs).
  destruct Hrx as (Hmi & _ & _).
  exists mi, mc, mv, par', (ptr_of mr). split; [exact Hrun|]. split; [exact Hmi|].
  split; [apply Hsub; simpl; set_solver|]. exists (inorder mr ++ s). rewrite Hs. reflexivity.
Qed.

Lemma min_loop_first_witness :
  rep demo_heap None demo_tree /\ (height demo_tree < 4)%nat /\
  exists m mc mv mpar mr, min_loop 4 1%positive demo_heap = Some (m, demo_heap) /\
    demo_heap !! m = Some (mkNode mc mv mpar None mr) /\ m ∈ ids demo_tree /\
    exists rest, inorder demo_tree = mv :: rest.
Proof.
  assert (H : rep demo_heap None demo_tree) by demo_rep.
  split; [exact H|]. split; [vm_compute; lia|].
  exact (min_loop_first 4 demo_heap None BLACK 1%positive 5 demo_left demo_right H ltac:(vm_compute; lia)).
Defined.

(** [Insert] keeps the invariant; when it returns false the heap and the node count are unchanged, and when it returns true it allocates exactly one fresh node and the count grows by one. *)
Theorem Insert_alloc AD h root t value :
  rb_inv AD h root t ->
  exists b root' h' t', Insert AD root value h = Some ((b, root'), h') /\ rb_inv AD h' root' t' /\
    (b = false -> h' = h /\ count t' = count t) /\
    (b = true -> (fresh (dom h) ∉ dom h) /\ dom h' = {[fresh (dom h)]} ∪ dom h /\
       count t' = S (count t)).
Proof.
  intros Hi. destruct (Insert_inv AD h root t value Hi) as (b & root' & h' & t' & Hrun & Hi' & Hf & Htr).
  exists b, root', h', t'. split; [exact Hrun|]. split; [exact Hi'|]. split.
  - intros Hb. destruct (Hf Hb) as (-> & -> & _). auto.
  - intros Hb. destruct (Htr Hb) as (Hids & Hfr & L & R & HLR & HLvR & _).
    split; [apply is_fresh|]. split.
    + destruct Hi as ((_ & Hrep & _) & _). destruct Hi' as ((_ & Hrep' & _) & _).
      pose proof (ids_dom h None t Hrep) as Hd. pose proof (ids_dom h' None t' Hrep') as Hd'.
      apply set_eq. intros k. destruct (decide (k ∈ ids t')) as [Hk|Hk].
      * split; [|intros _; apply Hd'; exact Hk]. intros _. rewrite Hids in Hk. set_solver.
      * rewrite Hids in Hk. rewrite elem_of_union, elem_of_singleton, !elem_of_dom.
        rewrite Hfr by set_solver. set_solver.
    + rewrite !count_inorder, HLR, HLvR, !length_app. simpl. lia.
Qed.

Lemma Insert_alloc_witness :
  rb_inv false demo_heap demo_root demo_tree /\
  exists b root' h' t', Insert false demo_root 4 demo_heap = Some ((b, root'), h') /\
    rb_inv false h' root' t' /\
    (b = false -> h' = demo_heap /\ count t' = count demo_tree) /\
    (b = true -> (fresh (dom demo_heap) ∉ dom demo_heap) /\
       dom h' = {[fresh (dom demo_heap)]} ∪ dom demo_heap /\ count t' = S (count demo_tree)).
Proof.
  assert (Hi : rb_inv false demo_heap demo_root demo_tree) by (apply reachable_inv; [demo_reach|demo_at]).
  split; [exact Hi|]. exact (Insert_alloc false _ _ _ 4 Hi).
Defined.

(** [Remove] keeps the invariant and never frees a heap cell; the count is unchanged when it returns null and drops by one otherwise. *)
Theorem Remove_alloc AD h root t value :
  rb_inv AD h root t ->
  exists res root' h' t', Remove root value h = Some ((res, root'), h') /\ rb_inv AD h' root' t' /\
    dom h' = dom h /\ (res = None -> count t' = count t) /\
    (forall xi, res = Some xi -> S (count t') = count t).
Proof.
  intros Hi. destruct (Remove_inv AD h root t value Hi) as (res & root' & h' & t' & Hrun & Hi' & Hn & Hs).
  exists res, root', h', t'. split; [exact Hrun|]. split; [exact Hi'|].
  destruct res as [xi|].
  - destruct (Hs xi eq_refl) as (Hxi & Hids & (c & Hc) & Hfr & P & Q & HPQ & HPQ').
    split; [|split; [discriminate|intros ? _; rewrite !count_inorder, HPQ, HPQ', !length_app; simpl; lia]].
    destruct Hi as ((_ & Hrep & _) & _). destruct Hi' as ((_ & Hrep' & _) & _).
    pose proof (ids_dom h None t Hrep) as Hd. pose proof (ids_dom h' None t' Hrep') as Hd'.
    apply set_eq. intros k. destruct (decide (k ∈ ids t)) as [Hk|Hk].
    + split; intros _; [apply Hd; exact Hk|]. destruct (decide (k = xi)) as [->|Hne].
      * apply elem_of_dom. rewrite Hc. eauto.
      * apply Hd'. rewrite Hids. set_solver.
    + rewrite !elem_of_dom, Hfr by exact Hk. reflexivity.
  - destruct (Hn eq_refl) as (-> & -> & _ & _). split; [reflexivity|]. split; [auto|discriminate].
Qed.

Lemma Remove_alloc_witness :
  rb_inv false demo_heap demo_root demo_tree /\
  exists res root' h' t', Remove demo_root 5 demo_heap = Some ((res, root'), h') /\
    rb_inv false h' root' t' /\ dom h' = dom demo_heap /\
    (res = None -> count t' = count demo_tree) /\
    (forall xi, res = Some xi -> S (count t') = count demo_tree).
Proof.
  assert (Hi : rb_inv false demo_heap demo_root demo_tree) by (apply reachable_inv; [demo_reach|demo_at]).
  split; [exact Hi|]. exact (Remove_alloc false _ _ _ 5 Hi).
Defined.

(** With duplicates allowed, [Insert] on a tree satisfying the invariant always inserts (returns true). *)
Theorem Insert_allow_dup_true h root t value :
  rb_inv true h root t -> exists root' h', Insert true root value h = Some ((true, root'), h').
Proof.
  intros Hi. destruct (Insert_inv true h root t value Hi) as (b & root' & h' & t' & Hrun & _ & Hf & _).
  destruct b; [eauto|]. destruct (Hf eq_refl) as (_ & _ & _ & E & _). discriminate.
Qed.

Lemma Insert_allow_dup_true_witness :
  rb_inv true demo_heap demo_root demo_tree /\
  exists root' h', Insert true demo_root 5 demo_heap = Some ((true, root'), h').
Proof.
  assert (Hi : rb_inv true demo_heap demo_root demo_tree).
  { split; [demo_at|]. split; [exists 2%nat; repeat constructor|]. split; [reflexivity|].
    cbn; repeat constructor; unfold ord; lia. }
  split; [exact Hi|]. exact (Insert_allow_dup_true _ _ _ 5 Hi).
Defined.

(** A tree built from the empty tree by [Insert] and [Remove] without duplicates has a strictly increasing in-order sequence without repeated values. *)
Theorem run_no_dup ops h root t :
  run false ops ∅ None = Some (h, root) -> tree_at h root t ->
  StronglySorted Z.lt (inorder t) /\ NoDup (inorder t).
Proof.
  intros Hr Ht. destruct (reachable_inv false h root t (ex_intro _ ops Hr) Ht) as (_ & _ & _ & Hs).
  split; [exact (sorted_ord_lt _ Hs)|exact (sorted_lt_NoDup _ Hs)].
Qed.

Lemma run_no_dup_witness :
  run false demo_ops ∅ None = Some (demo_heap, demo_root) /\ tree_at demo_heap demo_root demo_tree /\
  StronglySorted Z.lt (inorder demo_tree) /\ NoDup (inorder demo_tree).
Proof.
  assert (Hr : run false demo_ops ∅ None = Some (demo_heap, demo_root)) by (vm_compute; reflexivity).
  assert (Ht : tree_at demo_heap demo_root demo_tree) by demo_at.
  split; [exact Hr|]. split; [exact Ht|]. exact (run_no_dup demo_ops _ _ _ Hr Ht).
Defined.

(** Every sequence of [Insert] and [Remove] from the empty tree succeeds, and the in-order sequence of the result is a sorted permutation of the multiset obtained by applying the same operations to a list. *)
Theorem run_refines_bag AD ops :
  exists h root t, run AD ops ∅ None = Some (h, root) /\ tree_at h root t /\
    inorder t ≡ₚ bag_run AD ops [] /\ StronglySorted (ord AD) (inorder t).
Proof.
  destruct (run_bag AD ops ∅ None Leaf [] (rb_inv_empty AD) ltac:(reflexivity))
    as (h & root & t & Hr & (Ht & _ & _ & Hs) & Hp).
  exists h, root, t. auto.
Qed.

(** After [Insert] of a value, [Search] for that value finds a node. *)
Theorem Insert_then_Search AD h root t value :
  rb_inv AD h root t ->
  exists b root' h', Insert AD root value h = Some ((b, root'), h') /\
    exists k, Search root' value h' = Some (Some k, h').
Proof.
  intros Hi. destruct (Insert_inv AD h root t value Hi) as (b & root' & h' & t' & Hrun & Hi' & Hf & Htr).
  exists b, root', h'. split; [exact Hrun|].
  assert (Hin : value ∈ inorder t').
  { destruct b.
    - destruct (Htr eq_refl) as (_ & _ & L & R & _ & -> & _). set_solver.
    - destruct (Hf eq_refl) as (-> & _ & _ & _ & Hin). exact Hin. }
  destruct Hi' as (Ht' & _ & _ & Hs').
  destruct (search_z_spec AD h' root' t' value Ht' Hs') as [(k & _ & _ & _ & _ & Hk & _)|(_ & Hn)];
    [eauto|contradiction].
Qed.

Lemma Insert_then_Search_witness :
  rb_inv false demo_heap demo_root demo_tree /\
  exists b root' h', Insert false demo_root 4 demo_heap = Some ((b, root'), h') /\
    exists k, Search root' 4 h' = Some (Some k, h').
Proof.
  assert (Hi : rb_inv false demo_heap demo_root demo_tree) by (apply reachable_inv; [demo_reach|demo_at]).
  split; [exact Hi|]. exact (Insert_then_Search false _ _ _ 4 Hi).
Defined.

(** Without duplicates, after [Remove] of a value, [Search] for that value returns null. *)
Theorem Remove_then_Search h root t value :
  rb_inv false h root t ->
  exists res root' h', Remove root value h = Some ((res, root'), h') /\
    Search root' value h' = Some (None, h').
Proof.
  intros Hi. destruct (Remove_inv false h root t value Hi) as (res & root' & h' & t' & Hrun & Hi' & Hn & Hs).
  exists res, root', h'. split; [exact Hrun|].
  assert (Hnot : value ∉ inorder t').
  { destruct res as [xi|].
    - destruct (Hs xi eq_refl) as (_ & _ & _ & _ & P & Q & HPQ & ->).
      destruct Hi as (_ & _ & _ & Hsort). rewrite HPQ in Hsort.
      destruct (sorted_mid _ P value Q Hsort) as [H1 H2].
      rewrite elem_of_app. rewrite !Forall_forall in *. unfold ord in *.
      intros [Hin|Hin]; [specialize (H1 _ Hin)|specialize (H2 _ Hin)]; lia.
    - destruct (Hn eq_refl) as (-> & _ & _ & Hin). exact Hin. }
  destruct Hi' as (Ht' & _ & _ & Hs').
  destruct (search_z_spec false h' root' t' value Ht' Hs') as [(k & _ & _ & _ & _ & _ & _ & _ & Hin)|(H & _)];
    [contradiction|exact H].
Qed.

Lemma Remove_then_Search_witness :
  rb_inv false demo_heap demo_root demo_tree /\
  exists res root' h', Remove demo_root 3 demo_heap = Some ((res, root'), h') /\
    Search root' 3 h' = Some (None, h').
Proof.
  assert (Hi : rb_inv false demo_heap demo_root demo_tree) by (apply reachable_inv; [demo_reach|demo_at]).
  split; [exact Hi|]. exact (Remove_then_Search _ _ _ 3 Hi).
Defined.

(** ** Binary tree traversals and vector swizzles *)
Close Scope Z_scope.

(** The four traversals append to the output vector and keep what it held before; with a null output pointer they write nothing. *)
Theorem traversals_append {T} (t : BinTree T) (v : T) (l r : BinTree T) (o : list T) :
  PreOrder t (Some o) = option_map (app o) (PreOrder t (Some [])) /\
  InOrder t (Some o) = option_map (app o) (InOrder t (Some [])) /\
  PostOrder t (Some o) = option_map (app o) (PostOrder t (Some [])) /\
  LevelOrder v l r (Some o) = option_map (option_map (app o)) (LevelOrder v l r (Some [])) /\
  PreOrder t None = None /\ InOrder t None = None /\ PostOrder t None = None /\
  LevelOrder v l r None = Some None.
Proof.
  destruct (InOrder_app t) as (a & Ha & _). destruct (PostOrder_app t) as (b & Hb & _).
  rewrite !PreOrder_app, !Ha, !Hb, !LevelOrder_eq.
  split; [reflexivity|]. split; [reflexivity|]. split; [reflexivity|]. split; [reflexivity|].
  split; [apply PreOrder_None|]. split; [apply InOrder_None|]. split; [apply PostOrder_None|].
  reflexivity.
Qed.

(** The in-order and post-order traversals output a permutation of the pre-order output, which holds one value per node. *)
Theorem traversals_perm {T} (t : BinTree T) :
  exists a b c, PreOrder t (Some []) = Some a /\ InOrder t (Some []) = Some b /\
    PostOrder t (Some []) = Some c /\ b ≡ₚ a /\ c ≡ₚ a /\ length a = bsize t.
Proof.
  destruct (InOrder_app t) as (b & Hb & Pb). destruct (PostOrder_app t) as (c & Hc & Pc).
  exists (bvals t), b, c. rewrite PreOrder_app, Hb, Hc. split; [reflexivity|]. split; [reflexivity|].
  split; [reflexivity|]. split; [exact Pb|]. split; [exact Pc|].
  clear. induction t as [|v l IHl r IHr]; simpl; [reflexivity|]. rewrite length_app. lia.
Qed.

(** [LevelOrder] outputs the values depth by depth, each depth from left to right, and this is a permutation of the pre-order output. *)
Theorem LevelOrder_levels {T} (v : T) (l r : BinTree T) :
  exists a, LevelOrder v l r (Some []) =
      Some (Some (concat (map (depth_vals (BNode v l r)) (seq 0 (bheight (BNode v l r)))))) /\
    PreOrder (BNode v l r) (Some []) = Some a /\
    concat (map (depth_vals (BNode v l r)) (seq 0 (bheight (BNode v l r)))) ≡ₚ a.
Proof.
  exists (bvals (BNode v l r)). rewrite LevelOrder_eq, PreOrder_app. simpl out_app.
  split; [reflexivity|]. split; [reflexivity|]. apply levels_perm. lia.
Qed.

(** The root value comes first in pre-order and level order and last in post-order. *)
Theorem traversal_root_positions {T} (v : T) (l r : BinTree T) :
  exists a b c, PreOrder (BNode v l r) (Some []) = Some (v :: a) /\
    PostOrder (BNode v l r) (Some []) = Some (b ++ [v]) /\
    LevelOrder v l r (Some []) = Some (Some (v :: c)).
Proof.
  destruct (PostOrder_app (BNode v l r)) as (b & Hb & _).
  rewrite PreOrder_app, LevelOrder_eq.
  exists (bvals l ++ bvals r).
  simpl in Hb. destruct (PostOrder_app l) as (bl & Hl & _). destruct (PostOrder_app r) as (br & Hr & _).
  exists (bl ++ br). simpl.
  eexists. split; [reflexivity|]. split.
  - simpl. rewrite Hl, Hr. simpl. rewrite <- app_assoc. reflexivity.
  - reflexivity.
Qed.

(** [AreDifferentIndices] holds exactly when the indices are pairwise different, and swizzle assignment fails its assertion exactly when they are not. *)
Theorem AreDifferentIndices_NoDup {F} (zero : F) FirstIndex Rest data vec :
  (AreDifferentIndices FirstIndex Rest = true <-> NoDup (FirstIndex :: Rest)) /\
  (VectorSwizzle_assign zero FirstIndex Rest data vec = None <-> ~ NoDup (FirstIndex :: Rest)).
Proof.
  rewrite <- AreDifferentIndices_spec. split; [reflexivity|].
  unfold VectorSwizzle_assign. destruct (AreDifferentIndices FirstIndex Rest); split; congruence.
Qed.


(** Assigning to a swizzle with different in-range indices the value read from it leaves the data unchanged. *)
Theorem swizzle_get_assign {F} (zero : F) FirstIndex Rest data :
  NoDup (FirstIndex :: Rest) -> Forall (fun i => i < length data)%nat (FirstIndex :: Rest) ->
  VectorSwizzle_assign zero FirstIndex Rest data (VectorSwizzle_get zero FirstIndex Rest data) =
    Some (data, replicate (length (FirstIndex :: Rest)) zero).
Proof.
  intros Hn Hr. unfold VectorSwizzle_assign. rewrite (proj2 (AreDifferentIndices_spec _ _) Hn).
  do 2 f_equal. apply list_eq. intros p. rewrite VectorSwizzle_get_eq.
  destruct (decide (p ∈ FirstIndex :: Rest)) as [Hp|Hp].
  - apply list_elem_of_lookup in Hp as (k & Hk).
    pose proof Hr as Hr'. rewrite Forall_lookup in Hr'. specialize (Hr' k p Hk).
    rewrite (swizzle_write_in zero data _ 0 _ k p Hn Hk Hr'), Nat.add_0_l.
    unfold at_index at 1. rewrite list_lookup_fmap, Hk. simpl. unfold at_index.
    destruct (data !! p) eqn:Hd; [reflexivity|]. apply lookup_ge_None in Hd. lia.
  - apply swizzle_write_notin. exact Hp.
Qed.

(** Swizzle assignment with different indices keeps the length of the data and changes no component outside the indices. *)
Theorem swizzle_assign_frame {F} (zero : F) FirstIndex Rest data vec :
  NoDup (FirstIndex :: Rest) ->
  exists data', VectorSwizzle_assign zero FirstIndex Rest data vec =
      Some (data', replicate (length (FirstIndex :: Rest)) zero) /\
    length data' = length data /\
    forall p, p ∉ FirstIndex :: Rest -> data' !! p = data !! p.
Proof.
  intros Hn. exists (swizzle_write zero data (FirstIndex :: Rest) 0 vec).
  unfold VectorSwizzle_assign. rewrite (proj2 (AreDifferentIndices_spec _ _) Hn).
  split; [reflexivity|]. split; [apply swizzle_write_length|]. intros p Hp.
  apply swizzle_write_notin. exact Hp.
Qed.

(** Component [j] of a swizzle read is the data component named by the [j]-th index. *)
Theorem swizzle_get_component {F} (zero : F) FirstIndex Rest data j i :
  (FirstIndex :: Rest) !! j = Some i -> (i < length data)%nat ->
  VectorSwizzle_get zero FirstIndex Rest data !! j = data !! i.
Proof.
  intros Hj Hi. rewrite VectorSwizzle_get_eq, list_lookup_fmap, Hj. simpl.
  unfold at_index. destruct (data !! i) eqn:Hd; [reflexivity|]. apply lookup_ge_None in Hd. lia.
Qed.


Lemma swizzle_get_assign_witness :
  NoDup [2; 1; 0]%nat /\ Forall (fun i => i < length [10; 20; 30]%Z)%nat [2; 1; 0]%nat /\
  VectorSwizzle_assign 0%Z 2 [1; 0]%nat [10; 20; 30]%Z (VectorSwizzle_get 0%Z 2 [1; 0]%nat [10; 20; 30]%Z) =
    Some ([10; 20; 30]%Z, replicate (length [2; 1; 0]%nat) 0%Z).
Proof.
  assert (Hn : NoDup [2; 1; 0]%nat) by (apply (bool_decide_unpack _); reflexivity).
  assert (Hr : Forall (fun i => i < length [10; 20; 30]%Z)%nat [2; 1; 0]%nat)
    by (apply (bool_decide_unpack _); reflexivity).
  split; [exact Hn|]. split; [exact Hr|].
  exact (swizzle_get_assign 0%Z 2 [1; 0]%nat [10; 20; 30]%Z Hn Hr).
Defined.

Lemma swizzle_assign_frame_witness :
  NoDup [0; 2]%nat /\
  exists data', VectorSwizzle_assign 0%Z 0 [2]%nat [10; 20; 30]%Z [-5; -5]%Z =
      Some (data', replicate (length [0; 2]%nat) 0%Z) /\
    length data' = length [10; 20; 30]%Z /\
    forall p, p ∉ [0; 2]%nat -> data' !! p = [10; 20; 30]%Z !! p.
Proof.
  assert (Hn : NoDup [0; 2]%nat) by (apply (bool_decide_unpack _); reflexivity).
  split; [exact Hn|]. exact (swizzle_assign_frame 0%Z 0 [2]%nat [10; 20; 30]%Z [-5; -5]%Z Hn).
Defined.

Lemma swizzle_get_component_witness :
  [2; 1; 0]%nat !! 0%nat = Some 2%nat /\ (2 < length [10; 20; 30]%Z)%nat /\
  VectorSwizzle_get 0%Z 2 [1; 0]%nat [10; 20; 30]%Z !! 0%nat = [10; 20; 30]%Z !! 2%nat.
Proof.
  split; [reflexivity|]. split; [simpl; lia|].
  exact (swizzle_get_component 0%Z 2 [1; 0]%nat [10; 20; 30]%Z 0 2 eq_refl ltac:(simpl; lia)).
Defined.
